(** * CRDT2.cpp: the synchronisation engine of the collaborative text editor

    A shallow embedding of [src/CRDT2.cpp] and the properties of its
    snapshot store, diff engine, merge engine and merge trigger.

    Modelling conventions.
    - [int], [long] and [size_t] values are mathematical integers ([Z], or
      [nat] for sizes and loop counters).  The program only compares them,
      takes [max]/[min] and steps by one, and every size is taken to fit
      its C++ type (lines shorter than 2^31 bytes, fewer than 2^31 lines
      and operations), so no cast or step wraps around.
    - [std::string] is [list ascii]; a [char\[N\]] field of [UpdateObject]
      is the list of bytes held by the buffer, and reading it as a C string
      ([string(...)], [strcmp]) stops at the first NUL byte.
    - An exception ([std::out_of_range] of [substr]) or an access outside a
      vector is [None] in the option monad.
    - The display-only fields [op_type] and [timestamp] of [UpdateObject]
      and the console output are left out. *)

From Stdlib Require Import ZArith Ascii String.
From stdpp Require Import base option list gmap sorting strings.

Local Open Scope Z_scope.

(** ** Strings: [std::string] and C strings *)

Module CStr.

Abbreviation str := (list ascii).

Definition NUL : ascii := Ascii.zero.

(** A string literal as a [std::string]. *)
Definition lit (s : string) : str := list_ascii_of_string s.

(** The C string held by a buffer: the bytes before the first NUL. *)
Fixpoint c_str (buf : str) : str :=
  match buf with
  | [] => []
  | c :: rest => if decide (c = NUL) then [] else c :: c_str rest
  end.

(** [strncpy(dst, src.c_str(), n)] into a zero-initialised buffer of
    [n + 1] bytes: at most [n] bytes of the C string, NUL-terminated. *)
Definition strncpy (n : nat) (src : str) : str := take n (c_str src).

(** [strcmp]: bytes compared as [unsigned char]; only the sign matters. *)
Fixpoint strcmp_go (a b : str) : Z :=
  match a, b with
  | [], [] => 0
  | [], _ :: _ => -1
  | _ :: _, [] => 1
  | x :: a', y :: b' =>
      if decide (x = y) then strcmp_go a' b'
      else if (N_of_ascii x <? N_of_ascii y)%N then -1 else 1
  end.

Definition strcmp (a b : str) : Z := strcmp_go (c_str a) (c_str b).

(** [s.substr(pos, count)]: throws when [pos > s.size()]. *)
Definition substr (s : str) (pos count : nat) : option str :=
  if decide (pos ≤ length s)%nat then Some (take count (drop pos s)) else None.

(** [s.substr(pos)]: the rest of the string from [pos]. *)
Definition substr_from (s : str) (pos : nat) : option str :=
  if decide (pos ≤ length s)%nat then Some (drop pos s) else None.

End CStr.
Import CStr.

(** ** The edit operation *)

Record UpdateObject := mkUpdate {
  line : Z;
  start_col : Z;
  end_col : Z;
  old_content : str;
  new_content : str;
  ts : Z;
  user_id : str
}.

Global Instance UpdateObject_eq_dec : EqDecision UpdateObject.
Proof. solve_decision. Defined.

Global Instance UpdateObject_inhabited : Inhabited UpdateObject :=
  populate (mkUpdate 0 0 0 [] [] 0 []).

Definition MERGE_THRESHOLD : nat := 5.
Definition MAX_NOTIFICATIONS : nat := 5.

(** ** Merge engine: conflict resolution *)

Definition ranges_overlap (a1 b1 a2 b2 : Z) : bool :=
  negb ((b1 <=? a2) || (b2 <=? a1)).

(** The guard of the inner loop body (lines 289-290). *)
Definition conflict (a b : UpdateObject) : bool :=
  (line a =? line b)
  && ranges_overlap (start_col a) (end_col a) (start_col b) (end_col b).

(** The inner loop [for (j = i + 1; j < n; ++j)]: [rest] is [all\[j..n)].
    It returns the [keep] vector at the [break] or at the end of the loop. *)
Fixpoint resolve_inner (xi : UpdateObject) (i j : nat)
    (rest : list UpdateObject) (keep : list bool) : list bool :=
  match rest with
  | [] => keep
  | xj :: rest' =>
      if negb (keep !!! j) then resolve_inner xi i (S j) rest' keep
      else if conflict xi xj then
        if ts xi >? ts xj then
          resolve_inner xi i (S j) rest' (<[j := false]> keep)
        else if ts xi <? ts xj then <[i := false]> keep
        else if strcmp (user_id xi) (user_id xj) <=? 0 then
          resolve_inner xi i (S j) rest' (<[j := false]> keep)
        else <[i := false]> keep
      else resolve_inner xi i (S j) rest' keep
  end.

(** The outer loop [for (i = 0; i < n; ++i)]: [suffix] is [all\[i..n)]. *)
Fixpoint resolve_outer (i : nat) (suffix : list UpdateObject)
    (keep : list bool) : list bool :=
  match suffix with
  | [] => keep
  | xi :: rest =>
      resolve_outer (S i) rest
        (if negb (keep !!! i) then keep
         else resolve_inner xi i (S i) rest keep)
  end.

(** [vector<bool> keep(n, true)] after the two loops (lines 280-311). *)
Definition resolve (all : list UpdateObject) : list bool :=
  resolve_outer 0 all (replicate (length all) true).

(** The operations whose [keep] flag is still set, in batch order. *)
Definition kept (all : list UpdateObject) (keep : list bool)
    : list UpdateObject :=
  (filter (λ p, p.2 = true) (zip all keep)).*1.

Definition survivors (all : list UpdateObject) : list UpdateObject :=
  kept all (resolve all).

(** ** Merge engine: grouping and replay *)

(** [std::sort(ops.begin(), ops.end(), cmp)] with
    [cmp(a, b) = a.start_col > b.start_col].  The standard fixes the result
    only up to the order of operations with equal start columns: it is some
    rearrangement of the input in which no later element compares before an
    earlier one.  The development is parametric in any such function. *)
Definition start_desc (a b : UpdateObject) : Prop := start_col b ≤ start_col a.

Class StdSort := {
  std_sort : list UpdateObject → list UpdateObject;
  std_sort_perm : ∀ ops, std_sort ops ≡ₚ ops;
  std_sort_sorted : ∀ ops, StronglySorted start_desc (std_sort ops)
}.

(** [max_line] after the loop of lines 273-276. *)
Definition max_line (all : list UpdateObject) : Z :=
  foldl (λ m u, if line u >? m then line u else m) (-1) all.

(** [while ((int)doc.size() <= max_line) doc.push_back("")]. *)
Definition extend_doc (doc : list str) (max_line : Z) : list str :=
  Nat.iter (Z.to_nat (max_line + 1 - Z.of_nat (length doc)))
           (λ d, d ++ [[]]) doc.

(** [updates_by_line\[u.line\].push_back(u)]: [operator\[\]] creates an
    empty vector for a line that has none yet. *)
Definition push_back_at (m : gmap Z (list UpdateObject)) (u : UpdateObject)
    : gmap Z (list UpdateObject) :=
  <[line u := default [] (m !! line u) ++ [u]]> m.

(** The loop of lines 314-316. *)
Definition group_by_line (all : list UpdateObject) (keep : list bool)
    : gmap Z (list UpdateObject) :=
  foldl (λ m p, if p.2 : bool then push_back_at m p.1 else m) ∅ (zip all keep).

(** The clamping of lines 328-331: [max(0, col)], then cut at the size. *)
Definition clamp (col size : Z) : Z :=
  let c := Z.max 0 col in
  if c >? size then size else c.

(** One step of the loop of lines 326-335: the range, clamped into the
    current content [base], is replaced by the new content. *)
Definition apply_op (base : str) (op : UpdateObject) : option str :=
  let size := Z.of_nat (length base) in
  let sc := clamp (start_col op) size in
  let ec := clamp (end_col op) size in
  left ← substr base 0 (Z.to_nat sc);
  right ← (if ec <? size then substr_from base (Z.to_nat ec) else Some []);
  Some (left ++ c_str (new_content op) ++ right).

Fixpoint apply_ops (base : str) (ops : list UpdateObject) : option str :=
  match ops with
  | [] => Some base
  | op :: ops' => base' ← apply_op base op; apply_ops base' ops'
  end.

(** [doc\[line_no\]]: defined only inside the vector. *)
Definition doc_at (doc : list str) (line_no : Z) : option str :=
  if decide (0 ≤ line_no) then doc !! Z.to_nat line_no else None.

Section Replay.
Context `{StdSort}.

(** The body of the loop over [updates_by_line] (lines 320-336). *)
Definition replay_entry (doc : list str) (kv : Z * list UpdateObject)
    : option (list str) :=
  let ops := std_sort kv.2 in
  base ← doc_at doc kv.1;
  base' ← apply_ops base ops;
  Some (<[Z.to_nat kv.1 := base']> doc).

(** The loop over the entries of the map, in the order [entries]. *)
Fixpoint replay (entries : list (Z * list UpdateObject)) (doc : list str)
    : option (list str) :=
  match entries with
  | [] => Some doc
  | kv :: entries' => doc' ← replay_entry doc kv; replay entries' doc'
  end.

(** Lines 273-337 of [merge_and_apply], for a non-empty batch [all] and
    the document [doc] read from the file: the document to write back. *)
Definition merge_doc (all : list UpdateObject) (doc : list str)
    : option (list str) :=
  let doc := extend_doc doc (max_line all) in
  let keep := resolve all in
  let updates_by_line := group_by_line all keep in
  replay (map_to_list updates_by_line) doc.
End Replay.

(** A sort that meets the contract: stdpp's merge sort. *)
Global Instance start_desc_dec : RelDecision start_desc.
Proof. intros a b. unfold start_desc. apply _. Defined.

Global Instance start_desc_total : Total start_desc.
Proof. intros a b. unfold start_desc. lia. Qed.

Global Instance start_desc_trans : Transitive start_desc.
Proof. intros a b c. unfold start_desc. lia. Qed.

Global Program Instance merge_std_sort : StdSort := {|
  std_sort := merge_sort start_desc
|}.
Next Obligation. apply merge_sort_Permutation. Qed.
Next Obligation. apply StronglySorted_merge_sort; apply _. Qed.

(** ** Snapshot store: copy-on-write buffers behind a shared pointer *)

Module Snapshot.
Section Cell.
Context {T : Type}.

(** The vectors owned through [shared_ptr] handles, and the global
    pointer.  A handle is the index of its vector; a vector stays alive
    as long as a handle to it may exist, so the heap only grows. *)
Record cell := mkCell { heap : list (list T); cur : nat }.

(** [std::make_shared<std::vector<T>>()] at start-up. *)
Definition init : cell := mkCell [[]] 0.

(** [auto snap = ptr;] *)
Definition load (c : cell) : nat := cur c.

(** [*h] *)
Definition deref (c : cell) (h : nat) : option (list T) := heap c !! h.

(** The vector behind the global pointer. *)
Definition contents (c : cell) : list T := default [] (deref c (load c)).

(** [std::make_shared<std::vector<T>>(v)]: a fresh vector and its handle. *)
Definition make_shared (v : list T) (c : cell) : nat * cell :=
  (length (heap c), mkCell (heap c ++ [v]) (cur c)).

(** [h->push_back(x)], [h->erase(h->begin())]: in place, through [h]. *)
Definition mutate (h : nat) (f : list T → list T) (c : cell) : cell :=
  mkCell (alter f h (heap c)) (cur c).

(** [ptr = h;] *)
Definition store (h : nat) (c : cell) : cell := mkCell (heap c) h.

(** The copy-on-write append of lines 388-393 and 461-466. *)
Definition append (x : T) (c : cell) : cell :=
  let cur := load c in
  let '(next, c) := make_shared (default [] (deref c cur)) c in
  let c := mutate next (λ v, v ++ [x]) c in
  store next c.

(** [append_recent_notification] (lines 75-87): at most [bound] entries
    are kept, the oldest is erased. *)
Definition append_bounded (bound : nat) (x : T) (c : cell) : cell :=
  let cur := load c in
  let '(next, c) := make_shared (default [] (deref c cur)) c in
  let c := mutate next (λ v, v ++ [x]) c in
  let c := if decide (bound < length (default [] (deref c next)))%nat
           then mutate next (drop 1) c else c in
  store next c.

(** [ptr = std::make_shared<std::vector<T>>();] *)
Definition clear (c : cell) : cell :=
  let '(next, c) := make_shared [] c in store next c.

End Cell.
Global Arguments cell : clear implicits.
End Snapshot.

(** The writes the program makes to a buffer: the two appends and the
    publication of an empty vector. *)
Inductive cell_write {T : Type} : Snapshot.cell T → Snapshot.cell T → Prop :=
  | write_append (x : T) (c : Snapshot.cell T) :
      cell_write c (Snapshot.append x c)
  | write_append_bounded (bound : nat) (x : T) (c : Snapshot.cell T) :
      cell_write c (Snapshot.append_bounded bound x c)
  | write_clear (c : Snapshot.cell T) :
      cell_write c (Snapshot.clear c).

(** ** The document file *)

Definition newline : ascii := "010"%char.

(** [read_file]: the [getline] loop.  [cur] is the line being read, [None]
    when no byte of it has been extracted yet. *)
Fixpoint read_lines (cur : option str) (bytes : str) : list str :=
  match bytes with
  | [] => match cur with Some l => [l] | None => [] end
  | c :: rest =>
      if decide (c = newline) then default [] cur :: read_lines None rest
      else read_lines (Some (default [] cur ++ [c])) rest
  end.

Definition read_file (file : str) : list str := read_lines None file.

Definition write_file_from_lines (lines : list str) : str :=
  concat ((λ ln, ln ++ [newline]) <$> lines).

(** ** The process state and [merge_and_apply] *)

(** The accesses to the document file and the operations handed to
    [broadcast_update] (the registry and the pipes are outside the model). *)
Inductive io_event :=
  | FileRead
  | FileWrite (content : str)
  | Broadcast (upd : UpdateObject).

Record World := mkWorld {
  recv_ptr : Snapshot.cell UpdateObject;
  local_ptr : Snapshot.cell UpdateObject;
  recent_ptr : Snapshot.cell str;
  doc_file : str;
  io_log : list io_event
}.

(** The process at start-up: three empty buffers. *)
Definition init_world (file : str) : World :=
  mkWorld Snapshot.init Snapshot.init Snapshot.init file [].


(** The listener appends a received operation (lines 387-393). *)
Definition push_remote (upd : UpdateObject) (w : World) : World :=
  mkWorld (Snapshot.append upd (recv_ptr w)) (local_ptr w) (recent_ptr w)
          (doc_file w) (io_log w).

(** [detect_changes] appends a detected operation (lines 460-466). *)
Definition push_local (upd : UpdateObject) (w : World) : World :=
  mkWorld (recv_ptr w) (Snapshot.append upd (local_ptr w)) (recent_ptr w)
          (doc_file w) (io_log w).

Definition append_recent_notification (msg : str) (w : World) : World :=
  mkWorld (recv_ptr w) (local_ptr w)
          (Snapshot.append_bounded MAX_NOTIFICATIONS msg (recent_ptr w))
          (doc_file w) (io_log w).

Section Engine.
Context `{StdSort}.

Definition merge_and_apply (local_ops : list UpdateObject) (w : World)
    : option World :=
  let doc := read_file (doc_file w) in
  let log := io_log w ++ [FileRead] in
  let recv_snapshot := Snapshot.contents (recv_ptr w) in
  let recv' := Snapshot.clear (recv_ptr w) in
  let all := local_ops ++ recv_snapshot in
  if decide (all = []) then
    Some (mkWorld recv' (local_ptr w) (recent_ptr w) (doc_file w) log)
  else
    doc' ← merge_doc all doc;
    let file' := write_file_from_lines doc' in
    Some (mkWorld recv' (local_ptr w) (recent_ptr w) file'
                  (log ++ [FileWrite file'])).

(** ** Merge trigger *)

(** The test [total >= MERGE_THRESHOLD] of line 358. *)
Definition should_merge (local_count remote_count incoming_count : nat)
    : bool :=
  bool_decide (MERGE_THRESHOLD ≤ remote_count + local_count + incoming_count)%nat.

Definition try_merge_if_needed (local_ops_for_merge : list UpdateObject)
    (w : World) : option World :=
  let recv_snapshot := Snapshot.contents (recv_ptr w) in
  let local_snapshot := Snapshot.contents (local_ptr w) in
  if should_merge (length local_snapshot) (length recv_snapshot)
                  (length local_ops_for_merge)
  then
    let to_merge := local_ops_for_merge ++ local_snapshot in
    let w' := mkWorld (recv_ptr w) (Snapshot.clear (local_ptr w))
                      (recent_ptr w) (doc_file w) (io_log w) in
    merge_and_apply to_merge w'
  else Some w.

(** Lines 460-482 of [detect_changes] for a detected operation: it is
    appended to the local buffer; a buffer that reached the threshold is
    cleared and broadcast, and the merge trigger runs. *)
Definition publish_local (upd : UpdateObject) (w : World) : option World :=
  let w1 := push_local upd w in
  let next := Snapshot.contents (local_ptr w1) in
  if bool_decide (MERGE_THRESHOLD ≤ length next)%nat then
    let to_send := next in
    let w2 := mkWorld (recv_ptr w1) (Snapshot.clear (local_ptr w1))
                      (recent_ptr w1) (doc_file w1)
                      (io_log w1 ++ (Broadcast <$> to_send)) in
    try_merge_if_needed to_send w2
  else try_merge_if_needed [] w1.

(** Lines 385-407 of [listener_thread] for one record read from the pipe;
    [message] is the text of the notification. *)
Definition listener_receive (message : UpdateObject → str)
    (upd : UpdateObject) (w : World) : option World :=
  let w1 := push_remote upd w in
  let w2 := append_recent_notification (message upd) w1 in
  try_merge_if_needed [] w2.
End Engine.

(** ** Diff engine: [detect_changes] *)

(** [old_line\[i\] == new_line\[j\]] for indices inside both strings. *)
Definition same_char (a b : option ascii) : bool :=
  match a, b with
  | Some x, Some y => bool_decide (x = y)
  | _, _ => false
  end.

(** The loop of line 430.  It runs at most [minlen] times; [fuel] counts
    the iterations that are left. *)
Fixpoint prefix_loop (old_line new_line : str) (minlen fuel start_col : nat)
    : nat :=
  match fuel with
  | O => start_col
  | S fuel' =>
      if bool_decide (start_col < minlen)%nat
         && same_char (old_line !! start_col) (new_line !! start_col)
      then prefix_loop old_line new_line minlen fuel' (S start_col)
      else start_col
  end.

(** The loop of lines 434-438.  [old_end - 1 >= start_col] on [int] is
    [start_col < old_end]; each iteration lowers [old_end], so at most
    [old_line.size()] iterations run. *)
Fixpoint suffix_loop (old_line new_line : str) (start_col fuel : nat)
    (old_end new_end : nat) : nat * nat :=
  match fuel with
  | O => (old_end, new_end)
  | S fuel' =>
      if bool_decide (start_col < old_end)%nat
         && bool_decide (start_col < new_end)%nat
         && same_char (old_line !! (old_end - 1)%nat)
                      (new_line !! (new_end - 1)%nat)
      then suffix_loop old_line new_line start_col fuel'
                       (old_end - 1)%nat (new_end - 1)%nat
      else (old_end, new_end)
  end.

Inductive line_diff :=
  | Unchanged
  | Changed (upd : UpdateObject).

(** The body of the loop over the lines (lines 424-455) for line [i], with
    [now] the value of [time(nullptr)]. *)
Definition diff_line (i : nat) (old_line new_line user : str) (now : Z)
    : option line_diff :=
  if decide (old_line = new_line) then Some Unchanged else
  let minlen := (length old_line `min` length new_line)%nat in
  let start_col := prefix_loop old_line new_line minlen minlen 0 in
  let '(old_end, new_end) :=
    suffix_loop old_line new_line start_col (length old_line)
                (length old_line) (length new_line) in
  old_part ← (if decide (start_col < old_end)%nat
              then substr old_line start_col (old_end - start_col)
              else Some []);
  new_part ← (if decide (start_col < new_end)%nat
              then substr new_line start_col (new_end - start_col)
              else Some []);
  if decide (old_part = new_part) then Some Unchanged else
  Some (Changed {|
    line := Z.of_nat i;
    start_col := Z.of_nat start_col;
    end_col := Z.of_nat (old_end `max` new_end);
    old_content := strncpy 255 old_part;
    new_content := strncpy 255 new_part;
    ts := now;
    user_id := strncpy 31 user |}).

(** The operations emitted by the loop of [detect_changes] over the line
    indices [indices]; [clock i] is the time read while line [i] is
    processed. *)
Fixpoint detect_loop (old_lines new_lines : list str) (user : str)
    (clock : nat → Z) (indices : list nat) : option (list UpdateObject) :=
  match indices with
  | [] => Some []
  | i :: rest =>
      let old_line := default [] (old_lines !! i) in
      let new_line := default [] (new_lines !! i) in
      d ← diff_line i old_line new_line user (clock i);
      ops ← detect_loop old_lines new_lines user clock rest;
      Some (match d with Changed upd => upd :: ops | Unchanged => ops end)
  end.

Definition detect_changes (old_lines new_lines : list str) (user : str)
    (clock : nat → Z) : option (list UpdateObject) :=
  let max_n := (length old_lines `max` length new_lines)%nat in
  detect_loop old_lines new_lines user clock (seq 0 max_n).

(** The same loop with its effects on the process state: every emitted
    operation goes through [publish_local] before the next line is
    compared. *)
Fixpoint detect_loop_run `{StdSort} (old_lines new_lines : list str)
    (user : str) (clock : nat → Z) (indices : list nat) (w : World)
    : option World :=
  match indices with
  | [] => Some w
  | i :: rest =>
      let old_line := default [] (old_lines !! i) in
      let new_line := default [] (new_lines !! i) in
      d ← diff_line i old_line new_line user (clock i);
      w' ← match d with
           | Changed upd => publish_local upd w
           | Unchanged => Some w
           end;
      detect_loop_run old_lines new_lines user clock rest w'
  end.

(** [publish_local] for each operation of a list, in order. *)
Fixpoint publish_all `{StdSort} (ops : list UpdateObject) (w : World)
    : option World :=
  match ops with
  | [] => Some w
  | upd :: ops' => w' ← publish_local upd w; publish_all ops' w'
  end.

(** ** Closed forms used in the statements *)

(** The closed form of one replay step: the clamped range of [base] is
    replaced by the new content. *)
Definition splice (base : str) (op : UpdateObject) : str :=
  let size := Z.of_nat (length base) in
  take (Z.to_nat (clamp (start_col op) size)) base
  ++ c_str (new_content op)
  ++ drop (Z.to_nat (clamp (end_col op) size)) base.

(** The replay of one group on its line. *)
Definition replay_line `{StdSort} (ops : list UpdateObject) (base : str) : str :=
  foldl splice base (std_sort ops).

(** The operations of [ops] on line [l], in the order of [ops]. *)
Definition on_line (l : Z) (ops : list UpdateObject) : list UpdateObject :=
  filter (λ u, line u = l) ops.

(** Both edits of a line at once, each at its own clamped columns of the
    original content [base]; [op1] is the edit on the left. *)
Definition splice_both (base : str) (op1 op2 : UpdateObject) : str :=
  let size := Z.of_nat (length base) in
  let s1 := Z.to_nat (clamp (start_col op1) size) in
  let e1 := Z.to_nat (clamp (end_col op1) size) in
  let s2 := Z.to_nat (clamp (start_col op2) size) in
  let e2 := Z.to_nat (clamp (end_col op2) size) in
  take s1 base ++ c_str (new_content op1)
  ++ take (s2 - e1) (drop e1 base) ++ c_str (new_content op2)
  ++ drop e2 base.

(** [winner] wins the comparison of lines 292-308 against [loser]
    whichever of the two comes first in the batch: it is newer, or as new
    and of byte-wise smaller origin. *)
Definition dominates (winner loser : UpdateObject) : Prop :=
  ts loser < ts winner
  ∨ (ts loser = ts winner ∧ strcmp (user_id winner) (user_id loser) < 0).

Global Instance dominates_dec : RelDecision dominates.
Proof. intros a b. unfold dominates. apply _. Defined.

(** Batches on which the outcome does not depend on the order.  Every
    pair of conflicting operations has a winner by time stamp or origin. *)
Definition ties_broken (all : list UpdateObject) : Prop :=
  ∀ x y, x ∈ all → y ∈ all → x ≠ y → conflict x y = true →
    dominates x y ∨ dominates y x.

(** Two operations that conflict with a third conflict with each other. *)
Definition conflicts_transitive (all : list UpdateObject) : Prop :=
  ∀ x y z, x ∈ all → y ∈ all → z ∈ all → x ≠ z →
    conflict x y = true → conflict y z = true → conflict x z = true.

(** Operations of one line that do not conflict start at different
    columns. *)
Definition starts_distinct (all : list UpdateObject) : Prop :=
  ∀ x y, x ∈ all → y ∈ all → x ≠ y → line x = line y →
    conflict x y = false → start_col x ≠ start_col y.

(** ** The diff of a line as the specification words it *)

(** The length of the longest common prefix. *)
Fixpoint common_prefix_len (a b : str) : nat :=
  match a, b with
  | x :: a', y :: b' =>
      if decide (x = y) then S (common_prefix_len a' b') else O
  | _, _ => O
  end.

(** The length of the longest common suffix. *)
Definition common_suffix_len (a b : str) : nat :=
  common_prefix_len (reverse a) (reverse b).

(** [s\[from:to\]] *)
Definition segment (s : str) (from to : nat) : str :=
  take (to - from) (drop from s).

(** [p]: the longest common prefix; the common suffix is the longest one
    that starts no earlier than [p] in either line. *)
Definition trim_start (a b : str) : nat := common_prefix_len a b.

Definition trim_suffix (a b : str) : nat :=
  common_suffix_len (drop (trim_start a b) a) (drop (trim_start a b) b).

Definition trim_old_end (a b : str) : nat := (length a - trim_suffix a b)%nat.
Definition trim_new_end (a b : str) : nat := (length b - trim_suffix a b)%nat.

(** Steps 1 to 5 of the diff of line [i] from [a] to [b]. *)
Definition edit_of_line (i : nat) (a b user : str) (now : Z)
    : option UpdateObject :=
  if decide (a = b) then None else
  let p := trim_start a b in
  let old_part := segment a p (trim_old_end a b) in
  let new_part := segment b p (trim_new_end a b) in
  if decide (old_part = new_part) then None else
  Some {|
    line := Z.of_nat i;
    start_col := Z.of_nat p;
    end_col := Z.of_nat (trim_old_end a b `max` trim_new_end a b);
    old_content := strncpy 255 old_part;
    new_content := strncpy 255 new_part;
    ts := now;
    user_id := strncpy 31 user |}.

(** ** Several edits of one line at once *)

(** The line [base] with the range of every edit of [edits] replaced by
    the new text of that edit, each range taken at its own columns of
    [base]; the edits are listed from left to right and [pos] is the
    column of [base] reached so far. *)
Fixpoint replace_ranges (base : str) (pos : nat) (edits : list UpdateObject)
    : str :=
  match edits with
  | [] => drop pos base
  | op :: rest =>
      segment base pos (Z.to_nat (start_col op))
      ++ c_str (new_content op)
      ++ replace_ranges base (Z.to_nat (end_col op)) rest
  end.

(** ** Sample batches *)

(** Three edits of line 0 whose ranges overlap in a chain: the first with
    the second, the second with the third, the first and third apart. *)
Definition chain_A : UpdateObject := mkUpdate 0 0 2 (lit "ab") (lit "A") 1 (lit "alice").
Definition chain_B : UpdateObject := mkUpdate 0 1 4 (lit "bcd") (lit "B") 2 (lit "bob").
Definition chain_C : UpdateObject := mkUpdate 0 3 5 (lit "de") (lit "C") 3 (lit "carol").
Definition chain_doc : list str := [lit "abcdef"].

(** Two edits of the same range at the same time by different users. *)
Definition tie_alice : UpdateObject := mkUpdate 0 0 5 (lit "Hello") (lit "HELLO") 100 (lit "alice").
Definition tie_bob : UpdateObject := mkUpdate 0 0 5 (lit "Hello") (lit "HOWDY") 100 (lit "bob").

(** Three edits of line 0 that overlap one another, and an edit of
    line 1. *)
Definition pile_A : UpdateObject := mkUpdate 0 0 4 (lit "abcd") (lit "A") 1 (lit "alice").
Definition pile_B : UpdateObject := mkUpdate 0 1 5 (lit "bcde") (lit "B") 2 (lit "bob").
Definition pile_C : UpdateObject := mkUpdate 0 2 6 (lit "cdef") (lit "C") 2 (lit "carol").
Definition pile_D : UpdateObject := mkUpdate 1 0 1 (lit "x") (lit "D") 1 (lit "dave").

(** Two edits of line 0 with disjoint ranges that reach beyond a line of
    three bytes. *)
Definition far_left : UpdateObject := mkUpdate 0 1 5 (lit "bcde") (lit "Q") 1 (lit "alice").
Definition far_right : UpdateObject := mkUpdate 0 10 12 (lit "kl") (lit "XYZ") 2 (lit "bob").
Definition short_doc : list str := [lit "abc"].

(** An insertion and a replacement that start at the same column. *)
Definition insert_front : UpdateObject := mkUpdate 0 0 0 [] (lit "XY") 1 (lit "alice").
Definition replace_front : UpdateObject := mkUpdate 0 0 2 (lit "he") (lit "Z") 2 (lit "bob").
Definition hello_doc : list str := [lit "hello"].

(** ** The claims as the specification words them, where the code differs *)

(** "In any merge batch containing two operations A and B with the same
    line and overlapping ranges, if A is older then B survives and A is
    discarded". *)
Definition lww_in_any_batch (all : list UpdateObject) : Prop :=
  ∀ A B, A ∈ all → B ∈ all → conflict A B = true → ts A < ts B →
    B ∈ survivors all ∧ A ∉ survivors all.

(** "for a != b the operation's old_text equals a\[p:old_end\], and
    replacing that segment of a with its new_text reproduces b". *)
Definition diff_reproduces (a b : str) : Prop :=
  ∀ upd, diff_line 0 a b [] 0 = Some (Changed upd) →
    old_content upd = segment a (trim_start a b) (trim_old_end a b)
    ∧ take (trim_start a b) a ++ new_content upd
      ++ drop (trim_old_end a b) a = b.

(** "merge applied to any permutation of the batch produces the identical
    document". *)
Definition merge_order_independent (all : list UpdateObject)
    (doc : list str) : Prop :=
  ∀ all', all' ≡ₚ all → merge_doc all' doc = merge_doc all doc.

(** "two surviving non-overlapping edits on the same line are applied
    against the line's original content and both take effect at their
    column positions". *)
Definition both_edits_take_effect (op1 op2 : UpdateObject)
    (doc : list str) : Prop :=
  ∀ base, doc !! Z.to_nat (line op1) = Some base →
    merge_doc [op1; op2] doc
    = Some (<[Z.to_nat (line op1) := splice_both base op1 op2]> doc).

(** "merge on an empty batch is a no-op, no I/O performed". *)
Definition empty_merge_no_io (w : World) : Prop :=
  ∀ w', merge_and_apply [] w = Some w' →
    doc_file w' = doc_file w ∧ io_log w' = io_log w.

(** ** Registry: the table of users in shared memory *)

Definition MAX_USERS : nat := 5.

(** [struct Registry]: [users] holds the [MAX_USERS] buffers [user_id]. *)
Record Registry := mkRegistry {
  user_count : Z;
  users : list str
}.

(** A new shared-memory object is filled with zeros. *)
Definition empty_registry : Registry := mkRegistry 0 (replicate MAX_USERS []).

(** The loop of lines 111-116 over the first [user_count] entries. *)
Definition registered_in (user_id : str) (entries : list str) : bool :=
  foldl (λ found entry,
           if strcmp entry user_id =? 0 then true else found)
        false entries.

(** [register_user] (lines 107-123) on the mapped registry. *)
Definition register_user (user_id : str) (r : Registry) : Registry :=
  let count :=
    if (user_count r <? 0) || (user_count r >? Z.of_nat MAX_USERS)
    then 0 else user_count r in
  let found := registered_in user_id (take (Z.to_nat count) (users r)) in
  if negb found && (count <? Z.of_nat MAX_USERS) then
    mkRegistry (count + 1)
               (<[Z.to_nat count := strncpy 31 user_id]> (users r))
  else mkRegistry count (users r).

(** The registries that the program leaves in shared memory: the count is
    within the table and every buffer holds a terminated string. *)
Definition registry_wf (r : Registry) : Prop :=
  0 ≤ user_count r ≤ Z.of_nat MAX_USERS
  ∧ length (users r) = MAX_USERS
  ∧ Forall (λ entry, (length (c_str entry) ≤ 31)%nat) (users r).

(** The users an outsider sees registered: the C strings of the first
    [user_count] entries. *)
Definition active_users (r : Registry) : list str :=
  c_str <$> take (Z.to_nat (user_count r)) (users r).

(** ** Transport: the named pipes *)

Definition pipe_name (user_id : str) : str := lit "/tmp/pipe_" ++ user_id.

(** The FIFOs that a reader holds open, by path, each with the records
    written and not yet read, and the paths on which [write] fails.  A
    record fits the pipe buffer, so a write that succeeds delivers it
    whole. *)
Record Network := mkNetwork {
  fifo : gmap (list ascii) (list UpdateObject);
  jammed : list ascii → bool
}.

(** [open(p.c_str(), O_WRONLY | O_NONBLOCK)], [write], [close] of lines
    231-241: without a reader the open fails and nothing is sent; a failed
    write is only reported. *)
Definition send_to (p : str) (upd : UpdateObject) (net : Network) : Network :=
  match fifo net !! c_str p with
  | Some queue =>
      if jammed net (c_str p) then net
      else mkNetwork (<[c_str p := queue ++ [upd]]> (fifo net)) (jammed net)
  | None => net
  end.

(** The loop of lines 225-242 over the entries [entries]. *)
Fixpoint broadcast_loop (upd : UpdateObject) (sender_id : str)
    (entries : list str) (net : Network) : Network :=
  match entries with
  | [] => net
  | entry :: rest =>
      let target := c_str entry in
      if decide (target = sender_id) then
        broadcast_loop upd sender_id rest net
      else
        broadcast_loop upd sender_id rest
                       (send_to (pipe_name target) upd net)
  end.

(** [broadcast_update]: [r] is the registry if it can be opened and
    mapped; reading past the [MAX_USERS] entries is undefined. *)
Definition broadcast_update (upd : UpdateObject) (sender_id : str)
    (r : option Registry) (net : Network) : option Network :=
  match r with
  | None => Some net
  | Some r =>
      if decide (user_count r ≤ Z.of_nat (length (users r))) then
        Some (broadcast_loop upd sender_id
                (take (Z.to_nat (user_count r)) (users r)) net)
      else None
  end.

(** The number of records that a broadcast hands to the pipe [path]: one
    for each registered entry, other than the sender, whose pipe it is. *)
Definition deliveries (sender_id path : str) (entries : list str) : nat :=
  length (filter (λ entry, c_str entry ≠ sender_id
                           ∧ c_str (pipe_name (c_str entry)) = path)
                 entries).

(** ** Projections of the process state used in the statements *)

(** The operations handed to [broadcast_update], in order. *)
Definition broadcasts (log : list io_event) : list UpdateObject :=
  omap (λ e, match e with Broadcast upd => Some upd | _ => None end) log.

(** The number of operations waiting in the two buffers. *)
Definition buffered (w : World) : nat :=
  (length (Snapshot.contents (recv_ptr w))
   + length (Snapshot.contents (local_ptr w)))%nat.

(** [append_recent_notification] for each message of a list, in order. *)
Definition notify_all (msgs : list str) (w : World) : World :=
  foldl (λ w msg, append_recent_notification msg w) w msgs.

(** Three edits of line 0 that touch without overlapping. *)
Definition greet_left : UpdateObject := mkUpdate 0 0 5 (lit "Hello") (lit "HOWDY") 7 (lit "alice").
Definition greet_mid : UpdateObject := mkUpdate 0 5 6 (lit " ") (lit "_") 8 (lit "carol").
Definition greet_right : UpdateObject := mkUpdate 0 6 11 (lit "World") (lit "Mars") 9 (lit "bob").

(** A document of three lines, and an edit two lines below its end. *)
Definition three_lines : list str := [lit "abcdef"; lit "second"; lit "third"].
Definition far_below : UpdateObject := mkUpdate 4 0 0 [] (lit "new") 5 (lit "dave").

(** A world that has detected four operations and received none. *)
Definition drafting_world : World :=
  push_local pile_A (push_local pile_B (push_local pile_C
    (push_local pile_D (init_world (lit "abcdef"))))).

(** A world that has received four operations and detected none. *)
Definition crowded_world : World :=
  push_remote pile_A (push_remote pile_B (push_remote pile_C
    (push_remote pile_D (init_world (lit "abcdef"))))).

(** The two activities of a running editor, each taken as one step: the
    editor thread publishes a detected operation (lines 460-482), the
    listener thread takes a record from the pipe (lines 385-407). *)
Inductive engine_step `{StdSort} : World → World → Prop :=
  | step_publish (upd : UpdateObject) (w w' : World) :
      publish_local upd w = Some w' → engine_step w w'
  | step_receive (message : UpdateObject → str) (upd : UpdateObject)
      (w w' : World) :
      listener_receive message upd w = Some w' → engine_step w w'.

(** Case analysis on the members of a literal batch. *)
Ltac batch_cases :=
  repeat match goal with
  | H : _ ∈ _ :: _ |- _ => apply elem_of_cons in H as [-> | H]
  | H : _ ∈ [] |- _ => by apply elem_of_nil in H
  end.

(** * Properties *)

(** ** Snapshot store *)

Section SnapshotFacts.
Context {T : Type}.
Implicit Types (c : Snapshot.cell T) (x : T) (h : nat) (v : list T).
Import Snapshot.


(** The micro-steps of a writer leave every vector that already exists
    untouched: allocation extends the heap, the mutation goes through the
    fresh handle, publication only moves the pointer. *)
Lemma make_shared_deref v c h :
  (h < length (heap c))%nat →
  deref (make_shared v c).2 h = deref c h.
Proof. intros Hh. unfold deref; simpl. by rewrite lookup_app_l. Qed.

Lemma make_shared_fresh v c :
  deref (make_shared v c).2 (make_shared v c).1 = Some v
  ∧ deref c (make_shared v c).1 = None.
Proof.
  unfold deref; simpl. split.
  - rewrite lookup_app_r by lia. by rewrite Nat.sub_diag.
  - by apply lookup_ge_None.
Qed.

Lemma mutate_deref_ne f c h h' :
  h ≠ h' → deref (mutate h f c) h' = deref c h'.
Proof. intros Hne. unfold deref; simpl. by apply list_lookup_alter_ne. Qed.

Lemma mutate_deref_eq f c h :
  deref (mutate h f c) h = f <$> deref c h.
Proof. unfold deref; simpl. apply list_lookup_alter_eq. Qed.

Lemma store_deref c h h' : deref (store h c) h' = deref c h'.
Proof. done. Qed.

Lemma append_deref x c h :
  (h < length (heap c))%nat → deref (append x c) h = deref c h.
Proof.
  intros Hh. unfold append, make_shared, mutate, store, deref; simpl.
  rewrite list_lookup_alter_ne by lia. by rewrite lookup_app_l.
Qed.

Lemma append_contents x c : contents (append x c) = contents c ++ [x].
Proof.
  unfold contents, append, make_shared, mutate, store, deref, load; simpl.
  rewrite list_lookup_alter_eq, lookup_app_r by lia.
  by rewrite Nat.sub_diag.
Qed.


Lemma append_bounded_deref n x c h :
  (h < length (heap c))%nat → deref (append_bounded n x c) h = deref c h.
Proof.
  intros Hh. unfold append_bounded, make_shared.
  case_decide; unfold mutate, store, deref; simpl;
    rewrite ?list_lookup_alter_ne by lia; by rewrite lookup_app_l.
Qed.

Lemma append_bounded_contents n x c :
  contents (append_bounded n x c)
  = if decide (n < length (contents c ++ [x]))%nat
    then drop 1 (contents c ++ [x]) else contents c ++ [x].
Proof.
  unfold contents at 1, append_bounded, make_shared, load.
  assert (Hnew : deref (mutate (length (heap c)) (λ v, v ++ [x])
              {| heap := heap c ++ [default [] (deref c (cur c))];
                 cur := cur c |}) (length (heap c))
            = Some (contents c ++ [x])).
  { unfold mutate, deref; simpl.
    rewrite list_lookup_alter_eq, lookup_app_r by lia.
    by rewrite Nat.sub_diag. }
  rewrite Hnew; simpl. case_decide.
  - unfold store, deref; simpl. unfold mutate; simpl.
    rewrite !list_lookup_alter_eq, lookup_app_r by lia.
    by rewrite Nat.sub_diag.
  - unfold store. unfold deref in *. simpl in *. by rewrite Hnew.
Qed.


Lemma clear_deref c h :
  (h < length (heap c))%nat → deref (clear c) h = deref c h.
Proof.
  intros Hh. unfold clear, make_shared, store, deref; simpl.
  by rewrite lookup_app_l.
Qed.

Lemma clear_contents c : contents (clear c) = [].
Proof.
  unfold contents, clear, make_shared, store, deref, load; simpl.
  rewrite lookup_app_r by lia. by rewrite Nat.sub_diag.
Qed.

End SnapshotFacts.

(** A snapshot, once taken, never changes: every write goes to a vector
    allocated after it. *)
Lemma cell_write_stable {T : Type} (c c' : Snapshot.cell T) (h : nat) :
  cell_write c c' →
  (h < length (Snapshot.heap c))%nat →
  Snapshot.deref c' h = Snapshot.deref c h
  ∧ (length (Snapshot.heap c) ≤ length (Snapshot.heap c'))%nat.
Proof.
  intros Hw Hh. destruct Hw as [x c | n x c | c].
  - split; [by apply append_deref |].
    unfold Snapshot.append, Snapshot.make_shared, Snapshot.mutate,
      Snapshot.store; simpl.
    rewrite length_alter, length_app. lia.
  - split; [by apply append_bounded_deref |].
    unfold Snapshot.append_bounded, Snapshot.make_shared.
    case_decide; unfold Snapshot.mutate, Snapshot.store; simpl;
      rewrite ?length_alter, length_app; lia.
  - split; [by apply clear_deref |].
    unfold Snapshot.clear; simpl. rewrite length_app. lia.
Qed.

Lemma snapshot_stable {T : Type} (c c' : Snapshot.cell T) (h : nat) :
  rtc cell_write c c' →
  (h < length (Snapshot.heap c))%nat →
  Snapshot.deref c' h = Snapshot.deref c h.
Proof.
  intros Hrtc. induction Hrtc as [c | c c1 c' Hstep _ IH]; [done |].
  intros Hh. destruct (cell_write_stable c c1 h Hstep Hh) as [Hd Hl].
  rewrite IH by lia. done.
Qed.




(** ** Merge trigger *)

(** C6.  The trigger fires exactly when the three counts add up to at
    least five: [should_merge] is true for every sum of 5 or more and false
    for every sum of 4 or less.  When it is true [try_merge_if_needed]
    clears the local buffer and runs [merge_and_apply] on the incoming and
    the buffered local operations, which reads the document file and
    drains both buffers; when it is false nothing happens. *)
Theorem merge_trigger_threshold `{StdSort}
    (local_count remote_count incoming_count : nat)
    (incoming : list UpdateObject) (w : World) :
  (should_merge local_count remote_count incoming_count = true
     ↔ (5 ≤ local_count + remote_count + incoming_count)%nat)
  ∧ (should_merge local_count remote_count incoming_count = false
     ↔ (local_count + remote_count + incoming_count ≤ 4)%nat)
  ∧ try_merge_if_needed incoming w
    = (if should_merge (length (Snapshot.contents (local_ptr w)))
                       (length (Snapshot.contents (recv_ptr w)))
                       (length incoming)
       then merge_and_apply (incoming ++ Snapshot.contents (local_ptr w))
              (mkWorld (recv_ptr w) (Snapshot.clear (local_ptr w))
                       (recent_ptr w) (doc_file w) (io_log w))
       else Some w)
  ∧ (∀ w', try_merge_if_needed incoming w = Some w' →
       if should_merge (length (Snapshot.contents (local_ptr w)))
                       (length (Snapshot.contents (recv_ptr w)))
                       (length incoming)
       then (∃ rest, io_log w' = io_log w ++ FileRead :: rest)
            ∧ Snapshot.contents (local_ptr w') = []
            ∧ Snapshot.contents (recv_ptr w') = []
       else w' = w).
Proof.
  unfold should_merge at 1 2. unfold MERGE_THRESHOLD.
  split; [| split; [| split; [done |]]].
  - rewrite bool_decide_eq_true. lia.
  - rewrite bool_decide_eq_false. lia.
  - intros w'. unfold try_merge_if_needed.
    destruct (should_merge _ _ _); [| by intros [= <-]].
    unfold merge_and_apply. simpl.
    case_decide.
    + intros [= <-]. simpl. split; [by exists [] |].
      split; apply clear_contents.
    + destruct (merge_doc _ _) as [doc'|]; [| done]. simpl.
      intros [= <-]. simpl. rewrite <- app_assoc.
      split; [by eexists |]. split; apply clear_contents.
Qed.

(** ** Merging an empty batch *)

Lemma merge_empty_batch `{StdSort} (w : World) :
  Snapshot.contents (recv_ptr w) = [] →
  merge_and_apply [] w
  = Some (mkWorld (Snapshot.clear (recv_ptr w)) (local_ptr w) (recent_ptr w)
                  (doc_file w) (io_log w ++ [FileRead])).
Proof. intros Hr. unfold merge_and_apply. rewrite Hr. simpl. done. Qed.

(** C5 (as amended).  With no local operation to merge and an empty
    receive buffer, [merge_and_apply] succeeds, leaves the document file
    byte for byte as it was and writes nothing: its only file access is
    the read of the document at entry.  The buffers keep their contents
    (the receive buffer is republished empty). *)
Theorem merge_empty_batch_no_write `{StdSort} (w : World) :
  Snapshot.contents (recv_ptr w) = [] →
  ∃ w', merge_and_apply [] w = Some w'
    ∧ doc_file w' = doc_file w
    ∧ io_log w' = io_log w ++ [FileRead]
    ∧ (∀ content, FileWrite content ∈ io_log w' → FileWrite content ∈ io_log w)
    ∧ Snapshot.contents (recv_ptr w') = []
    ∧ local_ptr w' = local_ptr w
    ∧ recent_ptr w' = recent_ptr w.
Proof.
  intros Hr. eexists. split; [by apply merge_empty_batch |]. simpl.
  repeat split; try done.
  - intros content [Hin | Hin]%elem_of_app; [done |].
    by apply list_elem_of_singleton in Hin.
  - apply clear_contents.
Qed.

Lemma merge_empty_batch_no_write_witness :
  Snapshot.contents (recv_ptr (init_world (lit "Hello World"))) = []
  ∧ ∃ w', merge_and_apply [] (init_world (lit "Hello World")) = Some w'
      ∧ doc_file w' = lit "Hello World".
Proof.
  split; [reflexivity |].
  destruct (merge_empty_batch_no_write (init_world (lit "Hello World")) eq_refl)
    as (w' & Hm & Hf & _).
  exists w'. split; [exact Hm | exact Hf].
Defined.

(** C5 (as stated) fails: the empty merge reads the document file. *)
Lemma empty_merge_reads_file :
  ¬ empty_merge_no_io (init_world (lit "Hello World")).
Proof.
  intros Hno. destruct (Hno _ (merge_empty_batch (init_world (lit "Hello World")) eq_refl))
    as [_ Hlog].
  discriminate Hlog.
Qed.

(** ** Strings *)

Lemma substr_0 (s : str) (n : nat) : substr s 0 n = Some (take n s).
Proof. unfold substr. rewrite decide_True by lia. by rewrite drop_0. Qed.

Lemma c_str_no_nul (s : str) : NUL ∉ s → c_str s = s.
Proof.
  induction s as [|c s IH]; [done |]. intros Hn. simpl.
  apply not_elem_of_cons in Hn as [Hc Hs].
  rewrite decide_False by done. by rewrite IH.
Qed.

Lemma c_str_nul_free (s : str) : NUL ∉ c_str s.
Proof.
  induction s as [|c s IH]; simpl; [apply not_elem_of_nil |].
  case_decide; [apply not_elem_of_nil |].
  apply not_elem_of_cons. split; [congruence | done].
Qed.

Lemma c_str_prefix (s : str) : c_str s `prefix_of` s.
Proof.
  induction s as [|c s IH]; simpl; [done |].
  case_decide; [apply prefix_nil | by apply prefix_cons].
Qed.

Lemma c_str_idemp (s : str) : c_str (c_str s) = c_str s.
Proof. apply c_str_no_nul, c_str_nul_free. Qed.

Lemma strncpy_length (n : nat) (s : str) : (length (strncpy n s) ≤ n)%nat.
Proof. unfold strncpy. rewrite length_take. lia. Qed.

Lemma strncpy_prefix (n : nat) (s : str) : strncpy n s `prefix_of` s.
Proof.
  unfold strncpy. etrans; [apply prefix_take | apply c_str_prefix].
Qed.

Lemma strncpy_fits (n : nat) (s : str) :
  NUL ∉ s → (length s ≤ n)%nat → strncpy n s = s.
Proof.
  intros Hn Hl. unfold strncpy. rewrite c_str_no_nul by done.
  by apply take_ge.
Qed.

Lemma c_str_strncpy (n : nat) (s : str) : c_str (strncpy n s) = strncpy n s.
Proof.
  apply c_str_no_nul. unfold strncpy. intros Hin.
  apply (c_str_nul_free s). by apply subseteq_take in Hin.
Qed.

(** ** Merge engine: replay *)

Lemma clamp_bounds (col size : Z) : 0 ≤ size → 0 ≤ clamp col size ≤ size.
Proof. intros Hs. unfold clamp. destruct (Z.gtb_spec (Z.max 0 col) size); lia. Qed.

Lemma clamp_in_range (col size : Z) : 0 ≤ col ≤ size → clamp col size = col.
Proof. intros Hc. unfold clamp. destruct (Z.gtb_spec (Z.max 0 col) size); lia. Qed.

Lemma apply_op_splice (base : str) (op : UpdateObject) :
  apply_op base op = Some (splice base op).
Proof.
  unfold apply_op, splice.
  pose proof (clamp_bounds (start_col op) (Z.of_nat (length base))
                ltac:(lia)) as Hsc.
  pose proof (clamp_bounds (end_col op) (Z.of_nat (length base))
                ltac:(lia)) as Hec.
  rewrite substr_0. simpl.
  destruct (Z.ltb_spec (clamp (end_col op) (Z.of_nat (length base)))
              (Z.of_nat (length base))) as [Hlt | Hge].
  - unfold substr_from. rewrite decide_True by lia. done.
  - simpl. rewrite (drop_ge base) by lia. done.
Qed.

Lemma apply_ops_splice (ops : list UpdateObject) (base : str) :
  apply_ops base ops = Some (foldl splice base ops).
Proof.
  revert base. induction ops as [|op ops IH]; intros base; simpl; [done |].
  rewrite apply_op_splice. simpl. apply IH.
Qed.

Lemma extend_doc_app (doc : list str) (m : Z) :
  extend_doc doc m
  = doc ++ replicate (Z.to_nat (m + 1 - Z.of_nat (length doc))) [].
Proof.
  unfold extend_doc.
  induction (Z.to_nat (m + 1 - Z.of_nat (length doc))) as [|k IH]; simpl.
  - by rewrite app_nil_r.
  - rewrite IH. rewrite <- app_assoc. f_equal.
    change ([] :: replicate k []) with (replicate (S k) ([] : str)).
    by rewrite replicate_S_end.
Qed.

Lemma extend_doc_length (doc : list str) (m : Z) :
  Z.of_nat (length (extend_doc doc m)) = Z.max (Z.of_nat (length doc)) (m + 1).
Proof. rewrite extend_doc_app, length_app, length_replicate. lia. Qed.

Lemma extend_doc_lookup_old (doc : list str) (m : Z) (i : nat) :
  (i < length doc)%nat → extend_doc doc m !! i = doc !! i.
Proof. intros Hi. rewrite extend_doc_app. by apply lookup_app_l. Qed.

Lemma extend_doc_lookup_new (doc : list str) (m : Z) (i : nat) :
  (length doc ≤ i)%nat → Z.of_nat i ≤ m → extend_doc doc m !! i = Some [].
Proof.
  intros Hi Hm. rewrite extend_doc_app, lookup_app_r by done.
  apply lookup_replicate_2. lia.
Qed.

Lemma max_line_foldl (all : list UpdateObject) (m0 : Z) :
  let m := foldl (λ m u, if line u >? m then line u else m) m0 all in
  m0 ≤ m ∧ Forall (λ u, line u ≤ m) all
  ∧ (m = m0 ∨ ∃ u, u ∈ all ∧ line u = m).
Proof.
  revert m0. induction all as [|u all IH]; intros m0; simpl.
  - split; [lia |]. split; [constructor | by left].
  - destruct (IH (if line u >? m0 then line u else m0)) as (Hle & Hall & Hex).
    destruct (Z.gtb_spec (line u) m0) as [Hgt | Hng].
    + split; [lia |]. split; [constructor; [lia | done] |].
      right. destruct Hex as [-> | (v & Hv & Hm)].
      * exists u. split; [left | done].
      * exists v. split; [by right | done].
    + split; [lia |]. split; [constructor; [lia | done] |].
      destruct Hex as [-> | (v & Hv & Hm)]; [by left |].
      right. exists v. split; [by right | done].
Qed.

Lemma max_line_ge (all : list UpdateObject) (u : UpdateObject) :
  u ∈ all → line u ≤ max_line all.
Proof.
  intros Hin. destruct (max_line_foldl all (-1)) as (_ & Hall & _).
  rewrite Forall_forall in Hall. by apply Hall.
Qed.

Lemma max_line_lower (all : list UpdateObject) : -1 ≤ max_line all.
Proof. by destruct (max_line_foldl all (-1)) as (Hle & _). Qed.

Lemma max_line_attained (all : list UpdateObject) :
  max_line all = -1 ∨ ∃ u, u ∈ all ∧ line u = max_line all.
Proof. by destruct (max_line_foldl all (-1)) as (_ & _ & Hex). Qed.

Lemma on_line_nil (l : Z) (ops : list UpdateObject) :
  (∀ u, u ∈ ops → line u ≠ l) → on_line l ops = [].
Proof.
  unfold on_line. induction ops as [|u ops IH]; intros Hno; [done |].
  rewrite filter_cons_False by (apply Hno; left).
  apply IH. intros v Hv. apply Hno. by right.
Qed.

Lemma group_by_line_kept (all : list UpdateObject) (keep : list bool) :
  group_by_line all keep = foldl push_back_at ∅ (kept all keep).
Proof.
  unfold group_by_line, kept. generalize (∅ : gmap Z (list UpdateObject)).
  generalize (zip all keep) as ps.
  induction ps as [|[u k] ps IH]; intros m; [done |].
  destruct k.
  - rewrite filter_cons_True by done. simpl. apply IH.
  - rewrite filter_cons_False by (simpl; congruence). simpl. apply IH.
Qed.

Lemma foldl_push_back_lookup (ops : list UpdateObject)
    (m : gmap Z (list UpdateObject)) (l : Z) :
  foldl push_back_at m ops !! l
  = match m !! l, on_line l ops with
    | None, [] => None
    | o, g => Some (default [] o ++ g)
    end.
Proof.
  revert m. induction ops as [|u ops IH]; intros m; cbn [foldl].
  - unfold on_line. rewrite filter_nil.
    destruct (m !! l) as [g|] eqn:E; simpl; by rewrite ?app_nil_r.
  - rewrite IH. unfold push_back_at, on_line.
    destruct (decide (line u = l)) as [Heq | Hne].
    + subst l. rewrite lookup_insert_eq, filter_cons_True by done. simpl.
      rewrite <- app_assoc. simpl. by destruct (m !! line u).
    + rewrite lookup_insert_ne, filter_cons_False by done. done.
Qed.

Lemma group_by_line_lookup (all : list UpdateObject) (keep : list bool) (l : Z) :
  group_by_line all keep !! l
  = match on_line l (kept all keep) with
    | [] => None
    | g => Some g
    end.
Proof.
  rewrite group_by_line_kept, foldl_push_back_lookup, lookup_empty.
  by destruct (on_line l (kept all keep)).
Qed.

Lemma kept_subseteq (all : list UpdateObject) (keep : list bool) :
  kept all keep ⊆ all.
Proof.
  intros u Hu. unfold kept in Hu.
  apply list_elem_of_fmap in Hu as ([u' k] & -> & Hin).
  apply list_elem_of_filter in Hin as [_ Hin]. simpl.
  by apply elem_of_zip_l in Hin.
Qed.

Lemma survivors_subseteq (all : list UpdateObject) : survivors all ⊆ all.
Proof. apply kept_subseteq. Qed.

Section ReplayFacts.
Context `{StdSort}.

Lemma std_sort_nil : std_sort [] = [].
Proof. apply Permutation_nil_r, std_sort_perm. Qed.

Lemma std_sort_singleton (op : UpdateObject) : std_sort [op] = [op].
Proof. apply Permutation_singleton_r, std_sort_perm. Qed.

Lemma replay_line_nil (base : str) : replay_line [] base = base.
Proof. unfold replay_line. by rewrite std_sort_nil. Qed.

Lemma replay_line_singleton (op : UpdateObject) (base : str) :
  replay_line [op] base = splice base op.
Proof. unfold replay_line. by rewrite std_sort_singleton. Qed.

Lemma replay_entry_ok (doc : list str) (k : Z) (ops : list UpdateObject)
    (base : str) :
  0 ≤ k → doc !! Z.to_nat k = Some base →
  replay_entry doc (k, ops)
  = Some (<[Z.to_nat k := replay_line ops base]> doc).
Proof.
  intros Hk Hb. unfold replay_entry, doc_at; simpl.
  rewrite decide_True by done. rewrite Hb; simpl.
  rewrite apply_ops_splice. done.
Qed.

Lemma replay_entry_negative (doc : list str) (k : Z)
    (ops : list UpdateObject) :
  k < 0 → replay_entry doc (k, ops) = None.
Proof.
  intros Hk. unfold replay_entry, doc_at; simpl.
  by rewrite decide_False by lia.
Qed.

(** The loop over the map entries, in whatever order they come: every
    line with an entry receives the replay of its group, the others are
    left alone. *)
Lemma replay_ok (entries : list (Z * list UpdateObject)) (doc : list str) :
  NoDup entries.*1 →
  Forall (λ kv, 0 ≤ kv.1 < Z.of_nat (length doc)) entries →
  ∃ doc', replay entries doc = Some doc'
    ∧ length doc' = length doc
    ∧ ∀ i base, doc !! i = Some base →
        doc' !! i
        = Some (replay_line
                  (default [] ((list_to_map entries
                                  : gmap Z (list UpdateObject))
                               !! Z.of_nat i)) base).
Proof.
  revert doc. induction entries as [|[k ops] es IH]; intros doc Hnd Hin.
  - exists doc. repeat split; [done..|].
    intros i base Hb. simpl. rewrite lookup_empty; simpl.
    by rewrite replay_line_nil.
  - apply NoDup_cons in Hnd as [Hk Hnd].
    apply Forall_cons in Hin as [Hkr Hin]. simpl in Hk, Hkr.
    destruct (lookup_lt_is_Some_2 doc (Z.to_nat k) ltac:(lia))
      as [base_k Hbk].
    cbn [replay]. rewrite (replay_entry_ok _ _ _ _ (proj1 Hkr) Hbk).
    cbn [mbind option_bind].
    destruct (IH (<[Z.to_nat k := replay_line ops base_k]> doc) Hnd)
      as (doc' & Hrun & Hlen & Hlk).
    { rewrite length_insert. done. }
    exists doc'. rewrite length_insert in Hlen.
    split; [done |]. split; [done |].
    intros i base Hb. cbn [list_to_map foldr uncurry fst snd].
    destruct (decide (Z.to_nat k = i)) as [Hi | Hi].
    + subst i. rewrite Z2Nat.id by lia. rewrite lookup_insert_eq. simpl.
      assert (base = base_k) as -> by congruence.
      rewrite (Hlk (Z.to_nat k) (replay_line ops base_k)).
      * rewrite Z2Nat.id by lia.
        rewrite (not_elem_of_list_to_map_1 es k Hk). simpl.
        by rewrite replay_line_nil.
      * apply list_lookup_insert_eq. lia.
    + rewrite lookup_insert_ne by lia.
      apply Hlk. by rewrite list_lookup_insert_ne.
Qed.

Lemma replay_negative (entries : list (Z * list UpdateObject))
    (doc : list str) :
  Exists (λ kv, kv.1 < 0) entries → replay entries doc = None.
Proof.
  revert doc. induction entries as [|[k ops] es IH]; intros doc Hex.
  - by apply Exists_nil in Hex.
  - cbn [replay]. apply Exists_cons in Hex as [Hk | Hex]; simpl in *.
    + by rewrite replay_entry_negative.
    + destruct (replay_entry doc (k, ops)) as [doc1|]; simpl; [|done].
      by apply IH.
Qed.

Lemma replay_entry_length (doc doc1 : list str)
    (kv : Z * list UpdateObject) :
  replay_entry doc kv = Some doc1 → length doc1 = length doc.
Proof.
  unfold replay_entry. intros Hrun.
  destruct (doc_at doc kv.1) as [base|]; [|done]. simpl in Hrun.
  destruct (apply_ops base (std_sort kv.2)) as [base'|]; [|done].
  simpl in Hrun. injection Hrun as <-. apply length_insert.
Qed.

Lemma replay_out_of_range (entries : list (Z * list UpdateObject))
    (doc : list str) :
  Exists (λ kv, ¬ 0 ≤ kv.1 < Z.of_nat (length doc)) entries →
  replay entries doc = None.
Proof.
  revert doc. induction entries as [|[k ops] es IH]; intros doc Hex.
  - by apply Exists_nil in Hex.
  - cbn [replay]. apply Exists_cons in Hex as [Hk | Hex]; simpl in *.
    + unfold replay_entry, doc_at; simpl. case_decide; [|done].
      rewrite (lookup_ge_None_2 doc (Z.to_nat k)) by lia. done.
    + destruct (replay_entry doc (k, ops)) as [doc1|] eqn:E; simpl; [|done].
      apply IH. by rewrite (replay_entry_length _ _ _ E).
Qed.

(** The order in which the loop meets the entries of the unordered map
    does not matter. *)
Lemma replay_permutation (entries entries' : list (Z * list UpdateObject))
    (doc : list str) :
  entries ≡ₚ entries' → NoDup entries.*1 →
  replay entries doc = replay entries' doc.
Proof.
  intros Hperm Hnd.
  destruct (decide (Forall (λ kv, 0 ≤ kv.1 < Z.of_nat (length doc)) entries))
    as [Hin | Hout].
  - destruct (replay_ok entries doc Hnd Hin) as (d1 & -> & Hl1 & Hk1).
    destruct (replay_ok entries' doc) as (d2 & -> & Hl2 & Hk2).
    { by rewrite <- Hperm. }
    { by rewrite <- Hperm. }
    f_equal. apply list_eq. intros i.
    destruct (doc !! i) as [base|] eqn:Hb.
    + rewrite (Hk1 i base Hb), (Hk2 i base Hb).
      by rewrite (list_to_map_proper _ _ Hnd Hperm).
    + apply lookup_ge_None in Hb.
      rewrite (lookup_ge_None_2 d1), (lookup_ge_None_2 d2) by lia. done.
  - apply not_Forall_Exists in Hout; [| apply _].
    rewrite (replay_out_of_range entries) by done.
    rewrite Hperm in Hout.
    by rewrite (replay_out_of_range entries').
Qed.

Lemma group_entry_line (all : list UpdateObject) (k : Z)
    (g : list UpdateObject) :
  group_by_line all (resolve all) !! k = Some g →
  g = on_line k (survivors all) ∧ ∃ u, u ∈ survivors all ∧ line u = k.
Proof.
  rewrite group_by_line_lookup. fold (survivors all).
  destruct (on_line k (survivors all)) as [|u g'] eqn:E; [done |].
  intros [= <-]. split; [done |].
  assert (Hu : u ∈ on_line k (survivors all)) by (rewrite E; left).
  apply list_elem_of_filter in Hu as [Hl Hu]. by exists u.
Qed.

(** The document written back by a merge, line by line: each line of the
    extended document receives the replay of the surviving operations
    filed under its index. *)
Lemma merge_doc_lines (all : list UpdateObject) (doc : list str) :
  Forall (λ u, 0 ≤ line u) (survivors all) →
  merge_doc all doc
  = Some (imap (λ i base,
                  replay_line (on_line (Z.of_nat i) (survivors all)) base)
               (extend_doc doc (max_line all))).
Proof.
  intros Hnn. rewrite Forall_forall in Hnn. unfold merge_doc.
  destruct (replay_ok (map_to_list (group_by_line all (resolve all)))
              (extend_doc doc (max_line all))) as (doc' & -> & Hlen & Hlk).
  { apply NoDup_fst_map_to_list. }
  { apply Forall_forall. intros [k g] Hin. simpl.
    apply elem_of_map_to_list in Hin.
    apply group_entry_line in Hin as (_ & u & Hu & <-).
    split; [by apply Hnn |].
    rewrite extend_doc_length.
    pose proof (max_line_ge all u (survivors_subseteq all u Hu)). lia. }
  f_equal. apply list_eq. intros i. rewrite list_lookup_imap.
  destruct (extend_doc doc (max_line all) !! i) as [base|] eqn:Hb; simpl.
  - rewrite (Hlk i base Hb). do 2 f_equal.
    rewrite list_to_map_to_list, group_by_line_lookup.
    fold (survivors all).
    by destruct (on_line (Z.of_nat i) (survivors all)).
  - apply lookup_ge_None. apply lookup_ge_None in Hb. lia.
Qed.

Lemma merge_doc_negative (all : list UpdateObject) (doc : list str) :
  Exists (λ u, line u < 0) (survivors all) → merge_doc all doc = None.
Proof.
  intros Hex. unfold merge_doc. apply replay_negative.
  apply Exists_exists in Hex as (u & Hu & Hneg).
  apply Exists_exists.
  exists (line u, on_line (line u) (survivors all)). split; [|done].
  apply elem_of_map_to_list. rewrite group_by_line_lookup.
  fold (survivors all).
  destruct (on_line (line u) (survivors all)) as [|v g] eqn:E; [|done].
  assert (Hin : u ∈ on_line (line u) (survivors all)).
  { apply list_elem_of_filter. done. }
  rewrite E in Hin. by apply elem_of_nil in Hin.
Qed.
End ReplayFacts.

(** C7.  Replay clamps the columns of every operation into the bounds of
    the current line content before it takes substrings: whatever the start
    and end columns are, both clamped columns lie between 0 and the length
    of the content, no [substr] call is out of range, and the step yields
    the content with the clamped range replaced.  Hence no list of
    operations makes the replay of a line fail, and a whole merge can only
    go wrong through a negative line number of a surviving operation, never
    through column values. *)
Theorem replay_clamps_columns `{StdSort} (base : str) (op : UpdateObject)
    (ops all : list UpdateObject) (doc : list str) :
  let size := Z.of_nat (length base) in
  let sc := clamp (start_col op) size in
  let ec := clamp (end_col op) size in
  0 ≤ sc ≤ size ∧ 0 ≤ ec ≤ size
  ∧ sc = Z.min (Z.max 0 (start_col op)) size
  ∧ ec = Z.min (Z.max 0 (end_col op)) size
  ∧ apply_op base op
    = Some (take (Z.to_nat sc) base ++ c_str (new_content op)
            ++ drop (Z.to_nat ec) base)
  ∧ is_Some (apply_ops base ops)
  ∧ (merge_doc all doc = None ↔ Exists (λ u, line u < 0) (survivors all)).
Proof.
  intros size sc ec.
  split; [apply clamp_bounds; lia |].
  split; [apply clamp_bounds; lia |].
  split; [unfold sc, clamp;
          destruct (Z.gtb_spec (Z.max 0 (start_col op)) size); lia |].
  split; [unfold ec, clamp;
          destruct (Z.gtb_spec (Z.max 0 (end_col op)) size); lia |].
  split; [apply apply_op_splice |].
  split; [rewrite apply_ops_splice; by eexists |].
  split; [| apply merge_doc_negative].
  intros Hnone.
  destruct (decide (Exists (λ u, line u < 0) (survivors all)))
    as [Hex | Hnex]; [done |].
  rewrite merge_doc_lines in Hnone; [done |].
  apply Forall_forall. intros u Hu.
  destruct (decide (0 ≤ line u)) as [Hnn | Hneg]; [done |].
  exfalso. apply Hnex, Exists_exists. exists u. split; [done | lia].
Qed.

(** C10.  A merge of a non-empty batch (lines numbered from 0) succeeds
    and writes back a document in which no line was removed: it is the old
    document, extended with empty lines up to the largest line number of
    the batch, and every line that no surviving operation names is as it
    was (an old line keeps its text and index, an added line is empty). *)
Theorem merge_frame `{StdSort} (local_ops : list UpdateObject) (w : World) :
  let all := local_ops ++ Snapshot.contents (recv_ptr w) in
  let doc := read_file (doc_file w) in
  all ≠ [] →
  Forall (λ u, 0 ≤ line u) all →
  ∃ doc' w',
    merge_and_apply local_ops w = Some w'
    ∧ merge_doc all doc = Some doc'
    ∧ doc_file w' = write_file_from_lines doc'
    ∧ Z.of_nat (length doc')
      = Z.max (Z.of_nat (length doc)) (max_line all + 1)
    ∧ (length doc ≤ length doc')%nat
    ∧ ∀ i : nat,
        (∀ u, u ∈ survivors all → line u ≠ Z.of_nat i) →
        ((i < length doc)%nat → doc' !! i = doc !! i)
        ∧ ((length doc ≤ i < length doc')%nat → doc' !! i = Some []).
Proof.
  intros all doc Hne Hnn.
  assert (Hsn : Forall (λ u, 0 ≤ line u) (survivors all)).
  { rewrite Forall_forall in *. intros u Hu.
    by apply Hnn, survivors_subseteq. }
  pose proof (merge_doc_lines all doc Hsn) as Hm.
  eexists _, _. split.
  { unfold merge_and_apply. fold all. rewrite decide_False by done.
    fold doc. rewrite Hm. simpl. reflexivity. }
  split; [exact Hm |]. split; [done |].
  assert (Hlen : Z.of_nat (length (imap (λ (i : nat) (base : str),
              replay_line (on_line (Z.of_nat i) (survivors all)) base)
              (extend_doc doc (max_line all))))
            = Z.max (Z.of_nat (length doc)) (max_line all + 1)).
  { by rewrite length_imap, extend_doc_length. }
  split; [done |]. split; [lia |].
  intros i Hi.
  assert (Hgrp : on_line (Z.of_nat i) (survivors all) = []).
  { by apply on_line_nil. }
  rewrite list_lookup_imap, Hgrp. split.
  - intros Hlt. rewrite extend_doc_lookup_old by done.
    destruct (doc !! i); simpl; [|done]. by rewrite replay_line_nil.
  - intros [Hge Hlt]. rewrite extend_doc_lookup_new; [| done | lia].
    simpl. by rewrite replay_line_nil.
Qed.

Lemma merge_frame_witness :
  ∃ doc' w',
    merge_and_apply [chain_C; far_below]
      (init_world (write_file_from_lines three_lines)) = Some w'
    ∧ merge_doc [chain_C; far_below] three_lines = Some doc'
    ∧ length doc' = 5%nat
    ∧ doc' !! 1%nat = Some (lit "second")
    ∧ doc' !! 2%nat = Some (lit "third")
    ∧ doc' !! 3%nat = Some [].
Proof.
  destruct (merge_frame [chain_C; far_below]
              (init_world (write_file_from_lines three_lines)))
    as (doc' & w' & Hrun & Hdoc & _ & Hlen & _ & Hframe).
  - discriminate.
  - repeat constructor; discriminate.
  - assert (Hsize : length doc' = 5%nat).
    { apply Nat2Z.inj. rewrite Hlen. reflexivity. }
    assert (Hfree : ∀ i : nat, (0 < i < 4)%nat →
              ∀ u, u ∈ survivors [chain_C; far_below] → line u ≠ Z.of_nat i).
    { intros i Hi u Hu.
      change (survivors [chain_C; far_below]) with [chain_C; far_below] in Hu.
      apply elem_of_cons in Hu as [-> | Hu];
        [| apply list_elem_of_singleton in Hu as ->]; simpl; lia. }
    exists doc', w'. split; [exact Hrun |]. split; [exact Hdoc |].
    split; [exact Hsize |].
    destruct (Hframe 1%nat (Hfree 1%nat ltac:(lia))) as [Hold1 _].
    destruct (Hframe 2%nat (Hfree 2%nat ltac:(lia))) as [Hold2 _].
    destruct (Hframe 3%nat (Hfree 3%nat ltac:(lia))) as [_ Hnew3].
    split; [apply Hold1; simpl; lia |].
    split; [apply Hold2; simpl; lia |].
    apply Hnew3. rewrite Hsize. simpl. lia.
Defined.

(** ** Merge engine: conflict resolution of a pair *)

Lemma ranges_overlap_sym (a1 b1 a2 b2 : Z) :
  ranges_overlap a1 b1 a2 b2 = ranges_overlap a2 b2 a1 b1.
Proof. unfold ranges_overlap. by rewrite orb_comm. Qed.

Lemma conflict_sym (a b : UpdateObject) : conflict a b = conflict b a.
Proof.
  unfold conflict. rewrite ranges_overlap_sym. f_equal. apply Z.eqb_sym.
Qed.

Lemma conflict_same_line (a b : UpdateObject) :
  conflict a b = true → line a = line b.
Proof. unfold conflict. intros [Hl _]%andb_true_iff. lia. Qed.

Lemma N_of_ascii_inj (x y : ascii) : N_of_ascii x = N_of_ascii y → x = y.
Proof.
  intros Hxy. rewrite <- (ascii_N_embedding x), <- (ascii_N_embedding y).
  by rewrite Hxy.
Qed.

Lemma strcmp_go_antisym (a b : str) : strcmp_go b a = - strcmp_go a b.
Proof.
  revert b. induction a as [|x a IH]; intros [|y b]; simpl; try done.
  destruct (decide (x = y)) as [-> | Hne].
  - rewrite decide_True by done. apply IH.
  - rewrite decide_False by congruence.
    assert (N_of_ascii x ≠ N_of_ascii y) by (intros ?%N_of_ascii_inj; done).
    destruct (N.ltb_spec (N_of_ascii x) (N_of_ascii y)),
             (N.ltb_spec (N_of_ascii y) (N_of_ascii x)); lia.
Qed.

Lemma strcmp_antisym (a b : str) : strcmp b a = - strcmp a b.
Proof. apply strcmp_go_antisym. Qed.

Lemma resolve_pair (a b : UpdateObject) :
  resolve [a; b]
  = if conflict a b then
      if ts a >? ts b then [true; false]
      else if ts a <? ts b then [false; true]
      else if strcmp (user_id a) (user_id b) <=? 0 then [true; false]
      else [false; true]
    else [true; true].
Proof.
  unfold resolve. simpl.
  destruct (conflict a b); [|done].
  destruct (ts a >? ts b); [done |].
  destruct (ts a <? ts b); [done |].
  by destruct (strcmp (user_id a) (user_id b) <=? 0).
Qed.

Lemma survivors_single (a : UpdateObject) : survivors [a] = [a].
Proof. reflexivity. Qed.

Lemma survivors_pair_winner (w l : UpdateObject) :
  conflict l w = true →
  ts l < ts w ∨ (ts l = ts w ∧ strcmp (user_id w) (user_id l) < 0) →
  survivors [l; w] = [w] ∧ survivors [w; l] = [w].
Proof.
  intros Hc Hwin. unfold survivors. rewrite !resolve_pair.
  rewrite (conflict_sym w l), Hc.
  pose proof (strcmp_antisym (user_id w) (user_id l)) as Hanti.
  destruct (Z.gtb_spec (ts l) (ts w)), (Z.ltb_spec (ts l) (ts w)),
           (Z.gtb_spec (ts w) (ts l)), (Z.ltb_spec (ts w) (ts l)),
           (Z.leb_spec (strcmp (user_id l) (user_id w)) 0),
           (Z.leb_spec (strcmp (user_id w) (user_id l)) 0);
    try lia; by split.
Qed.

Section PairFacts.
Context `{StdSort}.

Lemma merge_doc_survivors (all1 all2 : list UpdateObject) (doc : list str) :
  max_line all1 = max_line all2 →
  survivors all1 = survivors all2 →
  merge_doc all1 doc = merge_doc all2 doc.
Proof.
  intros Hm Hs. unfold merge_doc. rewrite !group_by_line_kept.
  fold (survivors all1) (survivors all2). by rewrite Hm, Hs.
Qed.

Lemma max_line_pair_same (a b : UpdateObject) :
  line a = line b → max_line [a; b] = max_line [b].
Proof.
  intros Hl. unfold max_line; simpl. rewrite Hl.
  destruct (line b >? -1) eqn:E1.
  - by rewrite Z.gtb_ltb, Z.ltb_irrefl.
  - by rewrite E1.
Qed.
End PairFacts.

Section MergeFacts.
Context `{StdSort}.

Lemma max_line_single (a : UpdateObject) :
  0 ≤ line a → max_line [a] = line a.
Proof.
  intros Hl. unfold max_line; simpl.
  destruct (Z.gtb_spec (line a) (-1)); [done | lia].
Qed.

(** Merging a single operation replaces its clamped range in its line. *)
Lemma merge_doc_single (a : UpdateObject) (doc : list str) :
  0 ≤ line a →
  merge_doc [a] doc
  = Some (alter (λ base, splice base a) (Z.to_nat (line a))
                (extend_doc doc (line a))).
Proof.
  intros Hl. rewrite merge_doc_lines.
  2: { rewrite survivors_single. by constructor. }
  rewrite survivors_single, max_line_single by done.
  f_equal. apply list_eq. intros i. rewrite list_lookup_imap.
  destruct (decide (i = Z.to_nat (line a))) as [-> | Hne].
  - rewrite list_lookup_alter_eq, Z2Nat.id by done.
    unfold on_line. rewrite filter_cons_True, filter_nil by done.
    destruct (extend_doc doc (line a) !! Z.to_nat (line a)); [|done].
    simpl. by rewrite replay_line_singleton.
  - rewrite list_lookup_alter_ne by done.
    unfold on_line. rewrite filter_cons_False, filter_nil by lia.
    destruct (extend_doc doc (line a) !! i); [|done].
    simpl. by rewrite replay_line_nil.
Qed.

(** A sorted pair with distinct start columns has one order only. *)
Lemma std_sort_pair (a b : UpdateObject) (ops : list UpdateObject) :
  ops ≡ₚ [a; b] → start_col b < start_col a → std_sort ops = [a; b].
Proof.
  intros Hp Hlt.
  assert (Hperm : [a; b] ≡ₚ std_sort ops).
  { by rewrite std_sort_perm. }
  pose proof (std_sort_sorted ops) as Hs.
  apply Permutation_length_2_inv in Hperm as [-> | Heq]; [done |].
  rewrite Heq in Hs. exfalso.
  apply StronglySorted_inv in Hs as [_ Hhd].
  apply Forall_cons in Hhd as [Hba _]. unfold start_desc in Hba. lia.
Qed.
End MergeFacts.

(** ** Merge engine: invariants of the conflict resolution loops *)

(** A flag of [keep] is only ever cleared. *)
Lemma insert_false_true (keep : list bool) (j k : nat) :
  <[j := false]> keep !!! k = true →
  keep !!! k = true ∧ ((j < length keep)%nat → k ≠ j).
Proof.
  rewrite list_lookup_total_insert. case_decide as Hd; [done |].
  intros Hk. split; [done |]. intros Hj ->. apply Hd. done.
Qed.

Lemma resolve_inner_length (xi : UpdateObject) (i j : nat)
    (rest : list UpdateObject) (keep : list bool) :
  length (resolve_inner xi i j rest keep) = length keep.
Proof.
  revert j keep. induction rest as [|xj rest IH]; intros j keep; simpl;
    [done |].
  repeat case_match; rewrite ?IH, ?length_insert; done.
Qed.

Lemma resolve_inner_mono (xi : UpdateObject) (i j : nat)
    (rest : list UpdateObject) (keep : list bool) (k : nat) :
  resolve_inner xi i j rest keep !!! k = true → keep !!! k = true.
Proof.
  revert j keep. induction rest as [|xj rest IH]; intros j keep; simpl;
    [done |].
  repeat case_match; intros Hk;
    try (apply IH in Hk); try (apply insert_false_true in Hk as [Hk _]);
    done.
Qed.

Lemma resolve_outer_length (i : nat) (suffix : list UpdateObject)
    (keep : list bool) :
  length (resolve_outer i suffix keep) = length keep.
Proof.
  revert i keep. induction suffix as [|xi rest IH]; intros i keep; simpl;
    [done |].
  rewrite IH. case_match; [done | apply resolve_inner_length].
Qed.

Lemma resolve_outer_mono (i : nat) (suffix : list UpdateObject)
    (keep : list bool) (k : nat) :
  resolve_outer i suffix keep !!! k = true → keep !!! k = true.
Proof.
  revert i keep. induction suffix as [|xi rest IH]; intros i keep; simpl;
    [done |].
  intros Hk%IH. case_match; [done | by apply resolve_inner_mono in Hk].
Qed.

(** After the inner loop for [i], the operation [i] and a conflicting
    later operation are not both kept. *)
Lemma resolve_inner_conflict (xi : UpdateObject) (i j : nat)
    (rest : list UpdateObject) (keep : list bool) (d : nat)
    (xj : UpdateObject) :
  (i < j)%nat → (j + length rest = length keep)%nat →
  rest !! d = Some xj → conflict xi xj = true →
  resolve_inner xi i j rest keep !!! i = false
  ∨ resolve_inner xi i j rest keep !!! (j + d)%nat = false.
Proof.
  revert j keep d.
  induction rest as [|x0 rest IH]; intros j keep d Hij Hlen Hd Hc; [done |].
  simpl in Hlen.
  assert (Hi : (i < length keep)%nat) by lia.
  assert (Hj : (j < length keep)%nat) by lia.
  assert (Hcleared : ∀ keep', length keep' = length keep →
            keep' !!! j = false →
            resolve_inner xi i (S j) rest keep' !!! (j + 0)%nat = false).
  { intros keep' _ Hf. rewrite Nat.add_0_r.
    destruct (resolve_inner xi i (S j) rest keep' !!! j) eqn:E; [|done].
    apply resolve_inner_mono in E. congruence. }
  assert (Hnext : ∀ keep' d', length keep' = length keep →
            rest !! d' = Some xj →
            resolve_inner xi i (S j) rest keep' !!! i = false
            ∨ resolve_inner xi i (S j) rest keep' !!! (j + S d')%nat = false).
  { intros keep' d' Hl Hd'.
    replace (j + S d')%nat with (S j + d')%nat by lia.
    apply IH; [lia | lia | done | done]. }
  cbn [resolve_inner].
  destruct (keep !!! j) eqn:Hkj; simpl.
  2: { destruct d as [|d']; [right; by apply Hcleared | by apply Hnext]. }
  destruct (conflict xi x0) eqn:Hc0.
  2: { destruct d as [|d']; [| by apply Hnext].
       simpl in Hd. congruence. }
  assert (Hdrop : <[j := false]> keep !!! j = false).
  { by apply list_lookup_total_insert_eq. }
  assert (Hbreak : <[i := false]> keep !!! i = false).
  { by apply list_lookup_total_insert_eq. }
  destruct (ts xi >? ts x0).
  { destruct d as [|d'].
    - right. apply Hcleared; [by rewrite length_insert | done].
    - apply Hnext; [by rewrite length_insert | done]. }
  destruct (ts xi <? ts x0); [by left |].
  destruct (strcmp (user_id xi) (user_id x0) <=? 0); [| by left].
  destruct d as [|d'].
  - right. apply Hcleared; [by rewrite length_insert | done].
  - apply Hnext; [by rewrite length_insert | done].
Qed.

(** After the loops, two conflicting operations are not both kept. *)
Lemma resolve_outer_conflict (i : nat) (suffix : list UpdateObject)
    (keep : list bool) (a b : nat) (xa xb : UpdateObject) :
  (i + length suffix = length keep)%nat →
  suffix !! a = Some xa → suffix !! b = Some xb → (a < b)%nat →
  conflict xa xb = true →
  resolve_outer i suffix keep !!! (i + a)%nat = false
  ∨ resolve_outer i suffix keep !!! (i + b)%nat = false.
Proof.
  revert i keep a b.
  induction suffix as [|xi rest IH]; intros i keep a b Hlen Ha Hb Hab Hc;
    [done |].
  simpl in Hlen. cbn [resolve_outer].
  set (keep1 := if negb (keep !!! i) then keep
                else resolve_inner xi i (S i) rest keep).
  assert (Hlen1 : length keep1 = length keep).
  { unfold keep1. case_match; [done | apply resolve_inner_length]. }
  destruct b as [|b']; [lia |]. simpl in Hb.
  destruct a as [|a'].
  - simpl in Ha. injection Ha as ->. rewrite Nat.add_0_r.
    assert (H1 : keep1 !!! i = false ∨ keep1 !!! (S i + b')%nat = false).
    { unfold keep1. destruct (keep !!! i) eqn:Hki; cbn [negb]; [| by left].
      apply (resolve_inner_conflict xa i (S i) rest keep b' xb);
        [lia | lia | done | done]. }
    replace (i + S b')%nat with (S i + b')%nat by lia.
    destruct H1 as [H1 | H1]; [left | right].
    + destruct (resolve_outer (S i) rest keep1 !!! i) eqn:E; [|done].
      apply resolve_outer_mono in E. congruence.
    + destruct (resolve_outer (S i) rest keep1 !!! (S i + b')%nat) eqn:E;
        [|done].
      apply resolve_outer_mono in E. congruence.
  - simpl in Ha.
    replace (i + S a')%nat with (S i + a')%nat by lia.
    replace (i + S b')%nat with (S i + b')%nat by lia.
    apply IH; [lia | done | done | lia | done].
Qed.

(** The inner loop for [i] keeps the flag of [b] when [b] wins every
    comparison it takes part in. *)
Lemma resolve_inner_keeps (xi : UpdateObject) (i j : nat)
    (rest : list UpdateObject) (keep : list bool) (b : nat) :
  keep !!! b = true →
  (b = i → ∀ d xj, rest !! d = Some xj → conflict xi xj = true →
     ts xi > ts xj
     ∨ (ts xi = ts xj ∧ strcmp (user_id xi) (user_id xj) ≤ 0)) →
  (∀ d xj, rest !! d = Some xj → b = (j + d)%nat → conflict xi xj = true →
     ts xi < ts xj
     ∨ (ts xi = ts xj ∧ strcmp (user_id xi) (user_id xj) > 0)) →
  resolve_inner xi i j rest keep !!! b = true.
Proof.
  revert j keep.
  induction rest as [|x0 rest IH]; intros j keep Hb Hfirst Hlater; [done |].
  assert (Hnext : ∀ keep', keep' !!! b = true →
            resolve_inner xi i (S j) rest keep' !!! b = true).
  { intros keep' Hb'. apply IH; [done | |].
    - intros Hbi d xj Hd. by apply (Hfirst Hbi (S d)).
    - intros d xj Hd Hbj. apply (Hlater (S d)); [done | lia]. }
  cbn [resolve_inner].
  destruct (negb (keep !!! j)); [by apply Hnext |].
  destruct (conflict xi x0) eqn:Hc; [| by apply Hnext].
  assert (Hi : b = i → ts xi > ts x0
             ∨ (ts xi = ts x0 ∧ strcmp (user_id xi) (user_id x0) ≤ 0)).
  { intros Hbi. by apply (Hfirst Hbi 0%nat). }
  assert (Hj : b = j → ts xi < ts x0
             ∨ (ts xi = ts x0 ∧ strcmp (user_id xi) (user_id x0) > 0)).
  { intros Hbj. apply (Hlater 0%nat); [done | lia | done]. }
  destruct (Z.gtb_spec (ts xi) (ts x0)).
  { apply Hnext. rewrite list_lookup_total_insert_ne; [done |].
    intros ->. destruct Hj as [? | [? ?]]; [done | lia | lia]. }
  destruct (Z.ltb_spec (ts xi) (ts x0)).
  { rewrite list_lookup_total_insert_ne; [done |].
    intros ->. destruct Hi as [? | [? ?]]; [done | lia | lia]. }
  destruct (Z.leb_spec (strcmp (user_id xi) (user_id x0)) 0).
  - apply Hnext. rewrite list_lookup_total_insert_ne; [done |].
    intros ->. destruct Hj as [? | [? ?]]; [done | lia | lia].
  - rewrite list_lookup_total_insert_ne; [done |].
    intros ->. destruct Hi as [? | [? ?]]; [done | lia | lia].
Qed.

Lemma resolve_outer_keeps (i : nat) (suffix : list UpdateObject)
    (keep : list bool) (b : nat) (xb : UpdateObject) :
  keep !!! b = true →
  (∀ c xc, suffix !! c = Some xc → (i + c)%nat = b → xc = xb) →
  (∀ c xc, suffix !! c = Some xc → conflict xc xb = true →
     ((i + c < b)%nat →
        ts xc < ts xb
        ∨ (ts xc = ts xb ∧ strcmp (user_id xc) (user_id xb) > 0))
     ∧ ((b < i + c)%nat →
        ts xb > ts xc
        ∨ (ts xb = ts xc ∧ strcmp (user_id xb) (user_id xc) ≤ 0))) →
  resolve_outer i suffix keep !!! b = true.
Proof.
  revert i keep.
  induction suffix as [|xi rest IH]; intros i keep Hb Hself Hdom; [done |].
  cbn [resolve_outer]. apply IH.
  - destruct (negb (keep !!! i)); [done |].
    apply resolve_inner_keeps; [done | |].
    + intros -> d xj Hd Hc.
      assert (xi = xb) as -> by (apply (Hself 0%nat); [done | lia]).
      apply (Hdom (S d) xj); [done | by rewrite conflict_sym | lia].
    + intros d xj Hd -> Hc.
      assert (xj = xb) as -> by (apply (Hself (S d)); [done | lia]).
      apply (Hdom 0%nat xi); [done | done | lia].
  - intros c xc Hc Hic. apply (Hself (S c)); [done | lia].
  - intros c xc Hc Hcf.
    destruct (Hdom (S c) xc Hc Hcf) as [H1 H2].
    split; intros Hlt; [apply H1 | apply H2]; lia.
Qed.

Lemma strcmp_go_refl (a : str) : strcmp_go a a = 0.
Proof. induction a as [|x a IH]; simpl; [done |]. by rewrite decide_True. Qed.

Lemma strcmp_refl (a : str) : strcmp a a = 0.
Proof. apply strcmp_go_refl. Qed.

(** The kept operations, by index. *)
Lemma elem_of_kept (all : list UpdateObject) (keep : list bool)
    (u : UpdateObject) :
  length keep = length all →
  u ∈ kept all keep ↔ ∃ i, all !! i = Some u ∧ keep !!! i = true.
Proof.
  revert keep. induction all as [|x all IH]; intros [|k keep] Hlen;
    try done.
  - split; [by intros ?%elem_of_nil | by intros (i & ? & _)].
  - injection Hlen as Hlen. specialize (IH keep Hlen).
    unfold kept in *. cbn [zip_with].
    destruct k.
    + rewrite filter_cons_True by done. rewrite fmap_cons, elem_of_cons.
      simpl. rewrite IH. split.
      * intros [-> | (i & Hi & Hk)]; [by exists 0%nat | by exists (S i)].
      * intros ([|i] & Hi & Hk); simpl in *;
          [left; congruence | right; by exists i].
    + rewrite filter_cons_False by (simpl; congruence). rewrite IH. split.
      * intros (i & Hi & Hk). by exists (S i).
      * intros ([|i] & Hi & Hk); simpl in *; [done | by exists i].
Qed.

Lemma resolve_length (all : list UpdateObject) :
  length (resolve all) = length all.
Proof. unfold resolve. by rewrite resolve_outer_length, length_replicate. Qed.

Lemma elem_of_survivors (all : list UpdateObject) (u : UpdateObject) :
  u ∈ survivors all ↔ ∃ i, all !! i = Some u ∧ resolve all !!! i = true.
Proof. apply elem_of_kept, resolve_length. Qed.

(** No two operations that survive conflict with each other. *)
Lemma survivors_conflict_free (all : list UpdateObject)
    (a b : UpdateObject) :
  a ∈ survivors all → b ∈ survivors all → a ≠ b → conflict a b = false.
Proof.
  intros (ia & Hia & Hka)%elem_of_survivors
         (ib & Hib & Hkb)%elem_of_survivors Hne.
  destruct (conflict a b) eqn:Hc; [exfalso | done].
  assert (Hlen : (0 + length all)%nat = length (replicate (length all) true)).
  { by rewrite length_replicate. }
  unfold resolve in Hka, Hkb.
  destruct (decide (ia < ib)%nat) as [Hlt | Hge].
  - destruct (resolve_outer_conflict 0 all _ ia ib a b Hlen Hia Hib Hlt Hc)
      as [Hf | Hf]; simpl in Hf; congruence.
  - assert (Hlt : (ib < ia)%nat).
    { destruct (decide (ia = ib)) as [-> | ?]; [congruence | lia]. }
    rewrite conflict_sym in Hc.
    destruct (resolve_outer_conflict 0 all _ ib ia b a Hlen Hib Hia Hlt Hc)
      as [Hf | Hf]; simpl in Hf; congruence.
Qed.

(** An operation that dominates every other operation it conflicts with
    survives. *)
Lemma dominant_survives (all : list UpdateObject) (b : UpdateObject) :
  b ∈ all →
  (∀ c, c ∈ all → c ≠ b → conflict c b = true → dominates b c) →
  b ∈ survivors all.
Proof.
  intros Hin Hdom.
  destruct (list_find_elem_of (λ x, x = b) all b Hin eq_refl)
    as [[ib b'] Hfind].
  apply list_find_Some in Hfind as (Hib & -> & Hfirst).
  apply elem_of_survivors. exists ib. split; [done |].
  unfold resolve. apply (resolve_outer_keeps 0 all _ ib b).
  - apply lookup_total_replicate_2. by apply lookup_lt_Some in Hib.
  - intros c xc Hc Hcb. simpl in Hcb. subst c. congruence.
  - intros c xc Hc Hcf. simpl.
    destruct (decide (xc = b)) as [-> | Hne].
    + split; intros Hlt.
      * exfalso. by apply (Hfirst c b).
      * right. rewrite strcmp_refl. lia.
    + assert (Hd : dominates b xc).
      { apply Hdom; [by eapply list_elem_of_lookup_2 | done | done]. }
      pose proof (strcmp_antisym (user_id b) (user_id xc)) as Hanti.
      unfold dominates in Hd. split; intros _; lia.
Qed.

(** ** Merge engine: last writer wins *)

(** C1 (as amended).  Let A and B be two operations with the same line
    and overlapping ranges such that B is newer than A, or as new and of
    byte-wise smaller origin.  In any batch that contains both, B survives
    and A is discarded provided B also wins against every other operation
    of the batch that conflicts with it.  In the batch that consists of A
    and B alone, in either order, B is the only survivor and the merged
    document is the one obtained by merging B alone: the range of B is
    replaced in its line and nothing of A shows. *)
Theorem lww_conflict_resolution `{StdSort} (all : list UpdateObject)
    (A B : UpdateObject) (doc : list str) :
  conflict A B = true →
  ts A < ts B ∨ (ts A = ts B ∧ strcmp (user_id B) (user_id A) < 0) →
  (A ∈ all → B ∈ all →
   (∀ C, C ∈ all → C ≠ B → conflict C B = true → dominates B C) →
   B ∈ survivors all ∧ A ∉ survivors all)
  ∧ survivors [A; B] = [B]
  ∧ survivors [B; A] = [B]
  ∧ merge_doc [A; B] doc = merge_doc [B] doc
  ∧ merge_doc [B; A] doc = merge_doc [B] doc
  ∧ (0 ≤ line B →
     merge_doc [B] doc
     = Some (alter (λ base, splice base B) (Z.to_nat (line B))
                   (extend_doc doc (line B)))).
Proof.
  intros Hc Hwin.
  destruct (survivors_pair_winner B A Hc Hwin) as [H1 H2].
  pose proof (conflict_same_line _ _ Hc) as Hline.
  split; [| split; [done | split; [done | split; [| split]]]].
  - intros HA HB Hdom.
    assert (HBs : B ∈ survivors all) by by apply dominant_survives.
    split; [done |]. intros HAs.
    assert (Hne : A ≠ B).
    { intros ->. rewrite strcmp_refl in Hwin. lia. }
    pose proof (survivors_conflict_free all A B HAs HBs Hne). congruence.
  - apply merge_doc_survivors; [by apply max_line_pair_same |].
    by rewrite H1, survivors_single.
  - apply merge_doc_survivors.
    + rewrite (max_line_pair_same B A) by done.
      unfold max_line; simpl. by rewrite Hline.
    + by rewrite H2, survivors_single.
  - apply merge_doc_single.
Qed.

Lemma lww_conflict_resolution_witness :
  conflict chain_A chain_B = true
  ∧ chain_B ∈ survivors [chain_A; chain_B]
  ∧ merge_doc [chain_A; chain_B] chain_doc = merge_doc [chain_B] chain_doc.
Proof.
  split; [reflexivity |].
  destruct (lww_conflict_resolution [chain_A; chain_B] chain_A chain_B
              chain_doc) as (Hany & _ & _ & Hdoc & _).
  - reflexivity.
  - left. reflexivity.
  - split; [| exact Hdoc]. apply Hany.
    + left.
    + right. left.
    + intros C HC Hne _. left.
      apply elem_of_cons in HC as [-> | HC]; [reflexivity |].
      apply list_elem_of_singleton in HC. congruence.
Defined.

(** The tie of the specification: at equal time stamps "alice" wins over
    "bob" in either order. *)
Lemma lww_tie_example `{StdSort} :
  merge_doc [tie_alice; tie_bob] [lit "Hello World"]
  = Some [lit "HELLO World"]
  ∧ merge_doc [tie_bob; tie_alice] [lit "Hello World"]
    = Some [lit "HELLO World"].
Proof.
  assert (Hc : conflict tie_bob tie_alice = true) by reflexivity.
  assert (Hwin : ts tie_bob < ts tie_alice
                 ∨ (ts tie_bob = ts tie_alice
                    ∧ strcmp (user_id tie_alice) (user_id tie_bob) < 0)).
  { right. split; reflexivity. }
  destruct (survivors_pair_winner tie_alice tie_bob Hc Hwin) as [H1 H2].
  assert (Hsingle : merge_doc [tie_alice] [lit "Hello World"]
                    = Some [lit "HELLO World"]).
  { rewrite merge_doc_single by discriminate. reflexivity. }
  split.
  - rewrite <- Hsingle. apply merge_doc_survivors; [reflexivity |].
    by rewrite H2, survivors_single.
  - rewrite <- Hsingle. apply merge_doc_survivors; [reflexivity |].
    by rewrite H1, survivors_single.
Qed.

(** C1 (as stated) fails in a larger batch: the second edit of the chain
    is newer than the first and overlaps it, yet it is the one discarded
    (by the third) and the first survives. *)
Lemma lww_in_any_batch_fails :
  ¬ lww_in_any_batch [chain_C; chain_B; chain_A].
Proof.
  intros Hlww.
  destruct (Hlww chain_A chain_B) as [Hin _].
  - set_solver.
  - set_solver.
  - reflexivity.
  - reflexivity.
  - change (chain_B ∈ [chain_C; chain_A]) in Hin.
    apply elem_of_cons in Hin as [Heq | Hin]; [discriminate Heq |].
    apply list_elem_of_singleton in Hin. discriminate Hin.
Qed.

(** ** Merge engine: two disjoint edits of one line *)

Lemma splice_in_range (base : str) (op : UpdateObject) :
  0 ≤ start_col op → start_col op ≤ Z.of_nat (length base) →
  0 ≤ end_col op → end_col op ≤ Z.of_nat (length base) →
  splice base op
  = take (Z.to_nat (start_col op)) base ++ c_str (new_content op)
    ++ drop (Z.to_nat (end_col op)) base.
Proof.
  intros ? ? ? ?. unfold splice. by rewrite !clamp_in_range by lia.
Qed.

Lemma splice_twice_disjoint (base : str) (op1 op2 : UpdateObject) :
  0 ≤ start_col op1 ≤ end_col op1 →
  end_col op1 ≤ start_col op2 →
  start_col op2 ≤ end_col op2 ≤ Z.of_nat (length base) →
  splice (splice base op2) op1 = splice_both base op1 op2.
Proof.
  intros H1 H12 H2.
  rewrite (splice_in_range base op2) by lia.
  unfold splice_both. rewrite !clamp_in_range by lia.
  set (s1 := Z.to_nat (start_col op1)). set (e1 := Z.to_nat (end_col op1)).
  set (s2 := Z.to_nat (start_col op2)). set (e2 := Z.to_nat (end_col op2)).
  set (base' := take s2 base ++ c_str (new_content op2) ++ drop e2 base).
  assert (Hlen : length (take s2 base) = s2).
  { rewrite length_take. unfold s2. lia. }
  assert (Hlen' : (s2 ≤ length base')%nat).
  { unfold base'. rewrite length_app, Hlen. lia. }
  unfold splice. rewrite !clamp_in_range by (unfold s2 in *; lia).
  fold s1 e1. f_equal.
  - unfold base'. rewrite take_app_le by (unfold s1, s2 in *; lia).
    rewrite take_take. f_equal. unfold s1, s2. lia.
  - f_equal. unfold base'.
    rewrite drop_app_le by (unfold e1, s2 in *; lia).
    f_equal. rewrite take_drop_commute. do 2 f_equal.
    unfold e1, s2. lia.
Qed.

Lemma ascending_starts_inj (edits : list UpdateObject) (x y : UpdateObject) :
  StronglySorted (λ a b, start_col a < start_col b) edits →
  x ∈ edits → y ∈ edits → start_col x = start_col y → x = y.
Proof.
  intros Hsorted.
  induction Hsorted as [|z rest Hrest IH Hall]; intros Hx Hy Heq.
  { by apply elem_of_nil in Hx. }
  rewrite Forall_forall in Hall.
  apply elem_of_cons in Hx as [-> | Hx]; apply elem_of_cons in Hy as [-> | Hy].
  - done.
  - specialize (Hall y Hy). lia.
  - specialize (Hall x Hx). lia.
  - by apply IH.
Qed.

Lemma ascending_reverse (edits : list UpdateObject) :
  StronglySorted (λ a b, start_col a < start_col b) edits →
  StronglySorted start_desc (reverse edits).
Proof.
  intros Hsorted. induction Hsorted as [|z rest Hrest IH Hall].
  { constructor. }
  rewrite reverse_cons. apply StronglySorted_app_2; [| done |].
  - intros x1 x2 Hx1 Hx2. apply list_elem_of_singleton in Hx2 as ->.
    rewrite elem_of_reverse in Hx1. rewrite Forall_forall in Hall.
    specialize (Hall x1 Hx1). unfold start_desc. lia.
  - repeat constructor.
Qed.

(** With pairwise different start columns the order of the replay is
    fixed, whatever [std::sort] does with equal keys. *)
Lemma std_sort_ascending `{StdSort} (edits ops : list UpdateObject) :
  edits ≡ₚ ops →
  StronglySorted (λ a b, start_col a < start_col b) edits →
  std_sort ops = reverse edits.
Proof.
  intros Hperm Hsorted.
  apply (StronglySorted_unique_strong start_desc).
  - intros x1 x2 Hx1 Hx2 H12 H21. unfold start_desc in *.
    apply (ascending_starts_inj edits); [done | | | lia].
    + by rewrite std_sort_perm, <- Hperm in Hx1.
    + by rewrite elem_of_reverse in Hx2.
  - apply std_sort_sorted.
  - by apply ascending_reverse.
  - by rewrite std_sort_perm, <- Hperm, reverse_Permutation.
Qed.

(** Edits that lie within the line, from left to right, each ending no
    later than the next one starts: replayed from the right, every edit
    still finds the original content at and to the left of its range. *)
Lemma foldl_splice_ascending (base : str) (edits : list UpdateObject)
    (pos : nat) :
  StronglySorted (λ a b, end_col a ≤ start_col b) edits →
  Forall (λ u, Z.of_nat pos ≤ start_col u
               ∧ start_col u ≤ end_col u ≤ Z.of_nat (length base)) edits →
  foldl splice base (reverse edits)
  = take pos base ++ replace_ranges base pos edits.
Proof.
  revert pos. induction edits as [|a rest IH]; intros pos Hsorted Hrange.
  { simpl. by rewrite take_drop. }
  apply StronglySorted_cons in Hsorted as [Hleft Hsorted].
  apply Forall_cons in Hrange as [(Hpos & Hse & Hlen) Hrange].
  rewrite reverse_cons, foldl_app. cbn [foldl replace_ranges].
  rewrite (IH (Z.to_nat (end_col a))); [| done |].
  2: { rewrite Forall_forall in *. intros u Hu.
       specialize (Hleft u Hu). specialize (Hrange u Hu). lia. }
  set (s := Z.to_nat (start_col a)). set (e := Z.to_nat (end_col a)).
  assert (Hte : length (take e base) = e).
  { rewrite length_take. unfold e. lia. }
  unfold splice. rewrite length_app, Hte.
  rewrite !clamp_in_range by (unfold e; lia). fold s e.
  rewrite take_app_le by (rewrite Hte; unfold s, e; lia).
  rewrite take_take, drop_app_length' by done.
  replace (s `min` e)%nat with s by (unfold s, e; lia).
  unfold segment. rewrite (app_assoc (take pos base)), take_take_drop.
  by replace (pos + (s - pos))%nat with s by (unfold s; lia).
Qed.

(** C4 (as amended).  For a batch whose line numbers are not negative, a
    merge extends the document with empty lines up to the largest line
    number of the batch, files the surviving operations under their lines
    and replays each group in descending order of start column, every
    operation on the content left by the ones before it, with its columns
    clamped to that content.  When the surviving edits of a line, listed
    from left to right as [edits], lie within the original line, start at
    pairwise different columns and do not overlap one another, every one
    of them takes effect at its own columns of the original content: the
    merged line is the original line with each range replaced by the new
    text of its edit. *)
Theorem replay_disjoint_edits `{StdSort} (all : list UpdateObject)
    (doc : list str) :
  Forall (λ u, 0 ≤ line u) all →
  ∃ doc',
    merge_doc all doc = Some doc'
    ∧ Z.of_nat (length doc')
      = Z.max (Z.of_nat (length doc)) (max_line all + 1)
    ∧ (∀ i : nat,
         doc' !! i
         = (λ b, foldl splice b (std_sort (on_line (Z.of_nat i) (survivors all))))
           <$> (doc ++ replicate (length doc' - length doc) []) !! i)
    ∧ (∀ l : Z,
         StronglySorted (λ a b, (start_col b ≤ start_col a)%Z)
           (std_sort (on_line l (survivors all)))
         ∧ std_sort (on_line l (survivors all)) ≡ₚ on_line l (survivors all))
    ∧ (∀ (i : nat) (base : str) (edits : list UpdateObject),
         (doc ++ replicate (length doc' - length doc) []) !! i = Some base →
         edits ≡ₚ on_line (Z.of_nat i) (survivors all) →
         StronglySorted
           (λ a b, start_col a < start_col b
                   ∧ ranges_overlap (start_col a) (end_col a)
                                    (start_col b) (end_col b) = false)
           edits →
         Forall (λ u, 0 ≤ start_col u ≤ end_col u
                      ∧ end_col u ≤ Z.of_nat (length base)) edits →
         doc' !! i = Some (replace_ranges base 0 edits)).
Proof.
  intros Hnn.
  assert (Hsn : Forall (λ u, 0 ≤ line u) (survivors all)).
  { rewrite Forall_forall in *. intros u Hu.
    by apply Hnn, survivors_subseteq. }
  eexists. split; [by apply merge_doc_lines |].
  assert (Hlen : Z.of_nat (length (imap (λ (i : nat) (b : str),
              replay_line (on_line (Z.of_nat i) (survivors all)) b)
              (extend_doc doc (max_line all))))
            = Z.max (Z.of_nat (length doc)) (max_line all + 1)).
  { by rewrite length_imap, extend_doc_length. }
  split; [done |].
  assert (Hlines : ∀ i : nat,
            imap (λ (i : nat) (b : str),
                    replay_line (on_line (Z.of_nat i) (survivors all)) b)
                 (extend_doc doc (max_line all)) !! i
            = (λ b, foldl splice b
                      (std_sort (on_line (Z.of_nat i) (survivors all))))
              <$> (doc ++ replicate
                     (length (imap (λ (i : nat) (b : str),
                                replay_line
                                  (on_line (Z.of_nat i) (survivors all)) b)
                                (extend_doc doc (max_line all)))
                      - length doc) []) !! i).
  { intros i. rewrite list_lookup_imap, length_imap. unfold replay_line.
    do 2 f_equal. rewrite extend_doc_app at 1. do 2 f_equal.
    rewrite extend_doc_app, length_app, length_replicate. lia. }
  split; [done |]. split.
  { intros l. split; [apply std_sort_sorted | apply std_sort_perm]. }
  intros i base edits Hbase Hperm Hsorted Hrange.
  rewrite Hlines, Hbase. simpl. f_equal.
  rewrite (std_sort_ascending edits).
  - rewrite (foldl_splice_ascending base edits 0); [done | |].
    + clear Hperm. induction Hsorted as [|a rest Hrest IH Hall];
        [constructor |].
      apply Forall_cons in Hrange as [Ha Hrange].
      constructor; [by apply IH |].
      rewrite Forall_forall in *. intros b Hb.
      destruct (Hall b Hb) as [Hlt Hfree]. specialize (Hrange b Hb).
      unfold ranges_overlap in Hfree.
      apply negb_false_iff, orb_true_iff in Hfree as [Hle | Hle];
        apply Z.leb_le in Hle; lia.
    + eapply Forall_impl; [exact Hrange |]. simpl. intros u Hu. lia.
  - done.
  - clear Hperm Hrange. induction Hsorted as [|a rest Hrest IH Hall];
      constructor; [done |].
    eapply Forall_impl; [exact Hall |]. by intros b [? _].
Qed.

Lemma replay_disjoint_edits_witness :
  ∃ doc',
    merge_doc [greet_right; greet_left; greet_mid] [lit "Hello World"]
    = Some doc'
    ∧ doc' !! 0%nat = Some (lit "HOWDY_Mars").
Proof.
  destruct (replay_disjoint_edits [greet_right; greet_left; greet_mid]
              [lit "Hello World"])
    as (doc' & Hm & _ & _ & _ & Hline).
  - repeat constructor; discriminate.
  - exists doc'. split; [exact Hm |].
    apply (Hline 0%nat (lit "Hello World")
             [greet_left; greet_mid; greet_right]).
    + reflexivity.
    + apply (Permutation_app_comm [greet_left; greet_mid] [greet_right]).
    + repeat constructor; simpl; lia.
    + repeat constructor; simpl; lia.
Defined.

(** C4 (as stated) fails when a range reaches beyond the line: the edit on
    the left is clamped against the content already extended by the edit on
    the right and deletes part of its text.  It also fails for two edits
    that start at the same column when the sort leaves them in batch order
    (as the merge sort used here and an insertion sort do): the insertion
    is applied first and the replacement then overwrites it. *)
Lemma both_edits_take_effect_fails :
  ¬ both_edits_take_effect far_left far_right short_doc
  ∧ ¬ both_edits_take_effect insert_front replace_front hello_doc.
Proof.
  split.
  - intros Hboth. specialize (Hboth (lit "abc") eq_refl).
    vm_compute in Hboth. discriminate Hboth.
  - intros Hboth. specialize (Hboth (lit "hello") eq_refl).
    vm_compute in Hboth. discriminate Hboth.
Qed.

(** ** Merge engine: the order of the batch *)

Lemma chain_merges `{StdSort} :
  [chain_C; chain_B; chain_A] ≡ₚ [chain_A; chain_B; chain_C]
  ∧ survivors [chain_A; chain_B; chain_C] = [chain_C]
  ∧ survivors [chain_C; chain_B; chain_A] = [chain_C; chain_A]
  ∧ merge_doc [chain_A; chain_B; chain_C] chain_doc = Some [lit "abcCf"]
  ∧ merge_doc [chain_C; chain_B; chain_A] chain_doc = Some [lit "AcCf"].
Proof.
  split.
  { change [chain_C; chain_B; chain_A]
      with (reverse [chain_A; chain_B; chain_C]).
    apply reverse_Permutation. }
  split; [reflexivity |]. split; [reflexivity |].
  split.
  - rewrite merge_doc_lines by (repeat constructor; discriminate).
    change (survivors [chain_A; chain_B; chain_C]) with [chain_C].
    change (extend_doc chain_doc (max_line [chain_A; chain_B; chain_C]))
      with [lit "abcdef"].
    cbn [imap]. change (on_line (Z.of_nat 0) [chain_C]) with [chain_C].
    by rewrite replay_line_singleton.
  - rewrite merge_doc_lines by (repeat constructor; discriminate).
    change (survivors [chain_C; chain_B; chain_A]) with [chain_C; chain_A].
    change (extend_doc chain_doc (max_line [chain_C; chain_B; chain_A]))
      with [lit "abcdef"].
    cbn [imap].
    change (on_line (Z.of_nat 0) [chain_C; chain_A]) with [chain_C; chain_A].
    unfold replay_line.
    by rewrite (std_sort_pair chain_C chain_A [chain_C; chain_A]).
Qed.

(** *** When the order does not matter *)

Lemma strcmp_go_trans (a b c : str) :
  strcmp_go a b < 0 → strcmp_go b c < 0 → strcmp_go a c < 0.
Proof.
  revert b c. induction a as [|x a IH]; intros [|y b] [|z c]; simpl;
    try lia.
  repeat case_decide; subst; try done;
    repeat match goal with
    | |- context [(?u <? ?v)%N] => destruct (N.ltb_spec u v)
    end; try lia.
  apply IH.
Qed.

Lemma dominates_irrefl (a : UpdateObject) : ¬ dominates a a.
Proof. unfold dominates. rewrite strcmp_refl. lia. Qed.

Lemma dominates_trans (a b c : UpdateObject) :
  dominates a b → dominates b c → dominates a c.
Proof.
  unfold dominates, strcmp.
  intros [Hab | [Hab Sab]] [Hbc | [Hbc Sbc]]; try (left; lia).
  right. split; [lia |]. by eapply strcmp_go_trans.
Qed.

(** A non-empty batch has an operation that none of its operations
    dominates. *)
Lemma undominated_exists (l : list UpdateObject) :
  l ≠ [] → ∃ m, m ∈ l ∧ ∀ z, z ∈ l → ¬ dominates z m.
Proof.
  induction l as [|x l IH]; [done |]. intros _.
  destruct l as [|x' l'].
  { exists x. split; [left |]. intros z ->%list_elem_of_singleton.
    apply dominates_irrefl. }
  destruct (IH ltac:(done)) as (m & Hm & Hmax).
  destruct (decide (dominates x m)) as [Hxm | Hxm].
  - exists x. split; [left |]. intros z [-> | Hz]%elem_of_cons.
    + apply dominates_irrefl.
    + intros Hzx. apply (Hmax z Hz). by eapply dominates_trans.
  - exists m. split; [by right |]. intros z [-> | Hz]%elem_of_cons; [done |].
    by apply Hmax.
Qed.

(** With ties broken and transitive conflicts the survivors are the
    operations that win against everything they conflict with. *)
Lemma survivors_dominant (all : list UpdateObject) (x : UpdateObject) :
  ties_broken all → conflicts_transitive all →
  x ∈ survivors all ↔
  x ∈ all ∧ ∀ y, y ∈ all → y ≠ x → conflict y x = true → dominates x y.
Proof.
  intros Hties Htrans. split.
  2: { intros [Hx Hdom]. by apply dominant_survives. }
  intros Hxs.
  assert (Hx : x ∈ all) by by apply survivors_subseteq.
  split; [done |]. intros y Hy Hyx Hc.
  destruct (Hties x y Hx Hy ltac:(done) ltac:(by rewrite conflict_sym))
    as [Hdom | Hdom]; [done | exfalso].
  set (K := filter (λ z, z = x ∨ conflict z x = true) all).
  assert (HyK : y ∈ K) by (apply list_elem_of_filter; auto).
  destruct (undominated_exists K) as (m & HmK & Hmax).
  { intros HK. rewrite HK in HyK. by apply elem_of_nil in HyK. }
  apply list_elem_of_filter in HmK as [Hmx Hm].
  assert (Hne : m ≠ x) by (intros ->; by apply (Hmax y)).
  assert (Hcm : conflict m x = true) by (by destruct Hmx).
  assert (Hms : m ∈ survivors all).
  { apply dominant_survives; [done |]. intros z Hz Hzm Hczm.
    assert (HzK : z ∈ K).
    { apply list_elem_of_filter. split; [| done].
      destruct (decide (z = x)) as [-> | Hzx]; [by left | right].
      by apply (Htrans z m x). }
    destruct (Hties z m Hz Hm Hzm Hczm) as [Hd | Hd]; [| done].
    by apply Hmax in Hd. }
  pose proof (survivors_conflict_free all m x Hms Hxs Hne). congruence.
Qed.

Lemma kept_sublist (all : list UpdateObject) (keep : list bool) :
  kept all keep `sublist_of` all.
Proof.
  unfold kept. revert keep.
  induction all as [|x all IH]; intros [|k keep]; cbn [zip_with];
    try (rewrite filter_nil; apply sublist_nil_l).
  destruct k.
  - rewrite filter_cons_True by done. rewrite fmap_cons.
    by apply sublist_skip.
  - rewrite filter_cons_False by (simpl; congruence).
    by apply sublist_cons.
Qed.

Lemma survivors_NoDup (all : list UpdateObject) :
  NoDup all → NoDup (survivors all).
Proof. intros Hnd. eapply sublist_NoDup; [done | apply kept_sublist]. Qed.

Lemma max_line_le (all all' : list UpdateObject) :
  all' ⊆ all → max_line all' ≤ max_line all.
Proof.
  intros Hsub. destruct (max_line_attained all') as [-> | (u & Hu & <-)].
  - apply max_line_lower.
  - by apply max_line_ge, Hsub.
Qed.

Lemma max_line_permutation (all all' : list UpdateObject) :
  all' ≡ₚ all → max_line all' = max_line all.
Proof.
  intros Hperm.
  assert (max_line all' ≤ max_line all).
  { apply max_line_le. intros u. by rewrite Hperm. }
  assert (max_line all ≤ max_line all').
  { apply max_line_le. intros u. by rewrite Hperm. }
  lia.
Qed.

Section OrderFacts.
Context `{StdSort}.

Lemma survivors_permutation (all all' : list UpdateObject) :
  NoDup all → ties_broken all → conflicts_transitive all →
  all' ≡ₚ all → survivors all' ≡ₚ survivors all.
Proof.
  intros Hnd Hties Htrans Hperm.
  assert (Hties' : ties_broken all').
  { intros x y Hx Hy. rewrite Hperm in Hx, Hy. by apply Hties. }
  assert (Htrans' : conflicts_transitive all').
  { intros x y z Hx Hy Hz. rewrite Hperm in Hx, Hy, Hz. by apply Htrans. }
  apply NoDup_Permutation.
  - apply survivors_NoDup. by rewrite Hperm.
  - by apply survivors_NoDup.
  - intros x. rewrite !survivors_dominant by done.
    split; intros [Hx Hdom]; (split; [by rewrite Hperm in * |]);
      intros y Hy; apply Hdom; by rewrite Hperm in *.
Qed.

(** The sorted group of a line is the same whichever way the survivors
    were listed. *)
Lemma std_sort_survivors (all : list UpdateObject)
    (ops ops' : list UpdateObject) (l : Z) :
  starts_distinct all → ops ⊆ survivors all → ops' ≡ₚ ops →
  std_sort (on_line l ops') = std_sort (on_line l ops).
Proof.
  intros Hstarts Hsub Hperm.
  apply (StronglySorted_unique_strong start_desc);
    [| apply std_sort_sorted | apply std_sort_sorted |].
  2: { rewrite !std_sort_perm. unfold on_line. by rewrite Hperm. }
  intros x1 x2 Hx1 Hx2 H12 H21.
  rewrite std_sort_perm in Hx1, Hx2.
  apply list_elem_of_filter in Hx1 as [Hl1 Hx1].
  apply list_elem_of_filter in Hx2 as [Hl2 Hx2].
  rewrite Hperm in Hx1. apply Hsub in Hx1, Hx2.
  destruct (decide (x1 = x2)) as [| Hne]; [done | exfalso].
  apply (Hstarts x1 x2); try done.
  - by apply survivors_subseteq.
  - by apply survivors_subseteq.
  - congruence.
  - by apply survivors_conflict_free with all.
  - unfold start_desc in *. lia.
Qed.
End OrderFacts.

(** The chain of three edits: the same operations merged into the same
    document give two different documents.  Taken oldest first only the
    newest survives; taken newest first the oldest survives as well,
    because the edit that would have discarded it was itself discarded
    before and is skipped by the outer loop.  Each of the three operations
    is what [detect_changes] emits for an edit of the line "abcdef" by one
    user. *)
Lemma merge_depends_on_batch_order `{StdSort} :
  [chain_C; chain_B; chain_A] ≡ₚ [chain_A; chain_B; chain_C]
  ∧ survivors [chain_A; chain_B; chain_C] = [chain_C]
  ∧ survivors [chain_C; chain_B; chain_A] = [chain_C; chain_A]
  ∧ merge_doc [chain_A; chain_B; chain_C] chain_doc = Some [lit "abcCf"]
  ∧ merge_doc [chain_C; chain_B; chain_A] chain_doc = Some [lit "AcCf"]
  ∧ detect_changes chain_doc [lit "Acdef"] (lit "alice") (λ _, 1)
    = Some [chain_A]
  ∧ detect_changes chain_doc [lit "aBef"] (lit "bob") (λ _, 2)
    = Some [chain_B]
  ∧ detect_changes chain_doc [lit "abcCf"] (lit "carol") (λ _, 3)
    = Some [chain_C].
Proof.
  destruct chain_merges as (Hperm & Hs1 & Hs2 & Hfwd & Hbwd).
  repeat split; done.
Qed.

(** C2 (as stated) fails on the chain of three edits. *)
Lemma merge_order_independent_fails :
  ¬ merge_order_independent [chain_A; chain_B; chain_C] chain_doc.
Proof.
  intros Hind.
  destruct (@chain_merges merge_std_sort) as (Hperm & _ & _ & Hfwd & Hbwd).
  specialize (Hind _ Hperm). rewrite Hfwd, Hbwd in Hind.
  discriminate Hind.
Qed.

(** C2 (as amended).  For a batch of distinct operations in which every
    two conflicting operations differ in time stamp or origin, two
    operations that conflict with a common third one conflict with each
    other, and operations of one line that do not conflict start at
    different columns, the merge of any permutation of the batch keeps the
    same operations and produces the identical document. *)
Theorem merge_permutation_invariant `{StdSort}
    (all all' : list UpdateObject) (doc : list str) :
  NoDup all →
  ties_broken all →
  conflicts_transitive all →
  starts_distinct all →
  all' ≡ₚ all →
  survivors all' ≡ₚ survivors all
  ∧ merge_doc all' doc = merge_doc all doc.
Proof.
  intros Hnd Hties Htrans Hstarts Hperm.
  pose proof (survivors_permutation all all' Hnd Hties Htrans Hperm) as Hs.
  split; [done |].
  destruct (decide (Exists (λ u, line u < 0) (survivors all)))
    as [Hneg | Hnn].
  - rewrite (merge_doc_negative all) by done.
    apply merge_doc_negative. by rewrite Hs.
  - assert (Hf : Forall (λ u, 0 ≤ line u) (survivors all)).
    { apply Forall_forall. intros u Hu.
      destruct (decide (0 ≤ line u)) as [| Hlt]; [done | exfalso].
      apply Hnn, Exists_exists. exists u. split; [done | lia]. }
    rewrite (merge_doc_lines all) by done.
    rewrite (merge_doc_lines all') by by rewrite Hs.
    rewrite (max_line_permutation all all') by done.
    f_equal. apply imap_ext. intros i base _. unfold replay_line.
    f_equal. by apply (std_sort_survivors all).
Qed.

Lemma merge_permutation_invariant_witness :
  merge_doc [pile_D; pile_C; pile_B; pile_A] [lit "abcdef"; lit "x"]
  = merge_doc [pile_A; pile_B; pile_C; pile_D] [lit "abcdef"; lit "x"].
Proof.
  apply (merge_permutation_invariant [pile_A; pile_B; pile_C; pile_D]
           [pile_D; pile_C; pile_B; pile_A]).
  - repeat (apply NoDup_cons_2;
      [intros Hin;
       repeat (apply elem_of_cons in Hin as [Hin | Hin]; [discriminate Hin |]);
       by apply elem_of_nil in Hin |]).
    apply NoDup_nil_2.
  - intros x y Hx Hy Hne Hc. batch_cases; try done;
      try (vm_compute in Hc; discriminate Hc);
      unfold dominates;
      first [ left; left; vm_compute; reflexivity
            | right; left; vm_compute; reflexivity
            | left; right; split; vm_compute; reflexivity
            | right; right; split; vm_compute; reflexivity ].
  - intros x y z Hx Hy Hz Hne Hxy Hyz. batch_cases; try done;
      try (vm_compute in Hxy; discriminate Hxy);
      try (vm_compute in Hyz; discriminate Hyz);
      vm_compute; reflexivity.
  - intros x y Hx Hy Hne Hl Hc. batch_cases; try done;
      try (vm_compute in Hc; discriminate Hc);
      vm_compute in Hl; discriminate Hl.
  - change [pile_D; pile_C; pile_B; pile_A]
      with (reverse [pile_A; pile_B; pile_C; pile_D]).
    apply reverse_Permutation.
Defined.

(** ** Diff engine *)

Lemma common_prefix_len_nil_r (a : str) : common_prefix_len a [] = O.
Proof. by destruct a. Qed.

Lemma common_prefix_len_le (a b : str) :
  (common_prefix_len a b ≤ length a `min` length b)%nat.
Proof.
  revert b. induction a as [|x a IH]; intros [|y b]; simpl; try lia.
  case_decide; [| lia]. specialize (IH b). lia.
Qed.

Lemma common_prefix_len_take (a b : str) :
  take (common_prefix_len a b) a = take (common_prefix_len a b) b.
Proof.
  revert b. induction a as [|x a IH]; intros [|y b]; simpl; try done.
  case_decide; [| done]. subst. simpl. by rewrite IH.
Qed.

(** The prefix is the longest: the lines differ right after it. *)
Lemma common_prefix_len_stop (a b : str) (x y : ascii) :
  a !! common_prefix_len a b = Some x →
  b !! common_prefix_len a b = Some y → x ≠ y.
Proof.
  revert b. induction a as [|x' a IH]; intros [|y' b]; simpl; try done.
  case_decide; simpl.
  - apply IH.
  - congruence.
Qed.

Lemma common_suffix_len_le (a b : str) :
  (common_suffix_len a b ≤ length a `min` length b)%nat.
Proof.
  unfold common_suffix_len.
  pose proof (common_prefix_len_le (reverse a) (reverse b)) as Hle.
  by rewrite !length_reverse in Hle.
Qed.

Lemma common_suffix_len_drop (a b : str) :
  drop (length a - common_suffix_len a b) a
  = drop (length b - common_suffix_len a b) b.
Proof.
  unfold common_suffix_len.
  pose proof (common_prefix_len_take (reverse a) (reverse b)) as Ht.
  rewrite !take_reverse in Ht. by apply (inj reverse) in Ht.
Qed.

(** The loop of line 430 computes the longest common prefix. *)
Lemma prefix_loop_spec (a b : str) (fuel k : nat) :
  (k + fuel = length a `min` length b)%nat →
  prefix_loop a b (length a `min` length b) fuel k
  = (k + common_prefix_len (drop k a) (drop k b))%nat.
Proof.
  revert k. induction fuel as [|fuel IH]; intros k Hk; simpl.
  - destruct (decide (k = length a)) as [-> | Hne].
    + rewrite drop_all. simpl. lia.
    + rewrite (drop_ge b) by lia. rewrite common_prefix_len_nil_r. lia.
  - rewrite bool_decide_eq_true_2 by lia. simpl.
    destruct (lookup_lt_is_Some_2 a k ltac:(lia)) as [x Hx].
    destruct (lookup_lt_is_Some_2 b k ltac:(lia)) as [y Hy].
    rewrite Hx, Hy. simpl.
    rewrite (drop_S _ _ _ Hx), (drop_S _ _ _ Hy). simpl.
    destruct (decide (x = y)) as [-> | Hne].
    + rewrite bool_decide_eq_true_2 by done.
      rewrite IH by lia. lia.
    + rewrite bool_decide_eq_false_2 by done. lia.
Qed.

Lemma segment_snoc (s : str) (p e : nat) (x : ascii) :
  (p < e)%nat → s !! (e - 1)%nat = Some x →
  segment s p e = segment s p (e - 1) ++ [x].
Proof.
  intros Hpe Hx. unfold segment.
  replace (e - p)%nat with (S (e - 1 - p)) by lia.
  apply take_S_r. rewrite lookup_drop. rewrite <- Hx. f_equal. lia.
Qed.

Lemma segment_empty (s : str) (p e : nat) : (e ≤ p)%nat → segment s p e = [].
Proof. intros Hle. unfold segment. by replace (e - p)%nat with O by lia. Qed.

Lemma common_suffix_len_snoc (a b : str) (x y : ascii) :
  common_suffix_len (a ++ [x]) (b ++ [y])
  = if decide (x = y) then S (common_suffix_len a b) else O.
Proof. unfold common_suffix_len. by rewrite !reverse_snoc. Qed.

Lemma common_suffix_len_nil_l (b : str) : common_suffix_len [] b = O.
Proof. done. Qed.

Lemma common_suffix_len_nil_r (a : str) : common_suffix_len a [] = O.
Proof. unfold common_suffix_len. apply common_prefix_len_nil_r. Qed.

(** The loop of lines 434-438 strips the longest common suffix of the two
    segments that follow [start_col]. *)
Lemma suffix_loop_spec (a b : str) (p fuel oe ne : nat) :
  (p ≤ oe ≤ length a)%nat → (p ≤ ne ≤ length b)%nat → (oe - p ≤ fuel)%nat →
  suffix_loop a b p fuel oe ne
  = ((oe - common_suffix_len (segment a p oe) (segment b p ne))%nat,
     (ne - common_suffix_len (segment a p oe) (segment b p ne))%nat).
Proof.
  revert oe ne. induction fuel as [|fuel IH]; intros oe ne Ho Hn Hf; simpl.
  - rewrite (segment_empty a) by lia. rewrite common_suffix_len_nil_l.
    f_equal; lia.
  - destruct (decide (p < oe)%nat) as [Hpo | Hpo].
    2: { rewrite bool_decide_eq_false_2 by done. simpl.
         rewrite (segment_empty a) by lia. rewrite common_suffix_len_nil_l.
         f_equal; lia. }
    destruct (decide (p < ne)%nat) as [Hpn | Hpn].
    2: { rewrite (bool_decide_eq_false_2 (p < ne)%nat) by done.
         rewrite andb_false_r. simpl.
         rewrite (segment_empty b) by lia. rewrite common_suffix_len_nil_r.
         f_equal; lia. }
    rewrite !bool_decide_eq_true_2 by done. simpl.
    destruct (lookup_lt_is_Some_2 a (oe - 1) ltac:(lia)) as [x Hx].
    destruct (lookup_lt_is_Some_2 b (ne - 1) ltac:(lia)) as [y Hy].
    rewrite Hx, Hy. simpl.
    rewrite (segment_snoc a p oe x), (segment_snoc b p ne y) by done.
    rewrite common_suffix_len_snoc.
    destruct (decide (x = y)) as [-> | Hne].
    + rewrite bool_decide_eq_true_2 by done.
      rewrite IH by lia. f_equal; lia.
    + rewrite bool_decide_eq_false_2 by done. f_equal; lia.
Qed.

(** Both loops stop because their own condition fails, not for lack of
    fuel. *)
Lemma prefix_loop_exit (a b : str) :
  let minlen := (length a `min` length b)%nat in
  let p := prefix_loop a b minlen minlen 0 in
  ¬ ((p < minlen)%nat ∧ same_char (a !! p) (b !! p) = true).
Proof.
  intros minlen p [Hlt Hsame]. unfold p, minlen in *.
  rewrite prefix_loop_spec in Hlt, Hsame by lia.
  rewrite !drop_0, Nat.add_0_l in Hlt, Hsame.
  destruct (lookup_lt_is_Some_2 a (common_prefix_len a b) ltac:(lia))
    as [x Hx].
  destruct (lookup_lt_is_Some_2 b (common_prefix_len a b) ltac:(lia))
    as [y Hy].
  rewrite Hx, Hy in Hsame. simpl in Hsame.
  apply bool_decide_eq_true in Hsame.
  by apply (common_prefix_len_stop a b x y).
Qed.

Lemma suffix_loop_exit (a b : str) (p : nat) :
  (p ≤ length a `min` length b)%nat →
  let r := suffix_loop a b p (length a) (length a) (length b) in
  ¬ ((p < r.1)%nat ∧ (p < r.2)%nat
     ∧ same_char (a !! (r.1 - 1)%nat) (b !! (r.2 - 1)%nat) = true).
Proof.
  intros Hp r (Ho & Hn & Hsame). unfold r in *.
  rewrite suffix_loop_spec in Ho, Hn, Hsame by lia.
  unfold segment in Ho, Hn, Hsame.
  rewrite !take_ge in Ho, Hn, Hsame by (rewrite length_drop; lia).
  simpl in Ho, Hn, Hsame.
  set (s := common_suffix_len (drop p a) (drop p b)) in *.
  pose proof (common_suffix_len_le (drop p a) (drop p b)) as Hs.
  fold s in Hs. rewrite !length_drop in Hs.
  destruct (lookup_lt_is_Some_2 a (length a - s - 1) ltac:(lia)) as [x Hx].
  destruct (lookup_lt_is_Some_2 b (length b - s - 1) ltac:(lia)) as [y Hy].
  rewrite Hx, Hy in Hsame. simpl in Hsame.
  apply bool_decide_eq_true in Hsame.
  apply (common_prefix_len_stop (reverse (drop p a)) (reverse (drop p b))
           x y); [| | done].
  - fold (common_suffix_len (drop p a) (drop p b)). fold s.
    rewrite reverse_lookup by (rewrite length_drop; lia).
    rewrite lookup_drop, length_drop. rewrite <- Hx. f_equal. lia.
  - fold (common_suffix_len (drop p a) (drop p b)). fold s.
    rewrite reverse_lookup by (rewrite length_drop; lia).
    rewrite lookup_drop, length_drop. rewrite <- Hy. f_equal. lia.
Qed.

Lemma segment_to_end (s : str) (p : nat) : segment s p (length s) = drop p s.
Proof. unfold segment. apply take_ge. rewrite length_drop. lia. Qed.

Lemma trim_bounds (a b : str) :
  (trim_start a b ≤ trim_old_end a b ≤ length a)%nat
  ∧ (trim_start a b ≤ trim_new_end a b ≤ length b)%nat.
Proof.
  unfold trim_old_end, trim_new_end, trim_suffix, trim_start.
  pose proof (common_prefix_len_le a b).
  pose proof (common_suffix_len_le (drop (common_prefix_len a b) a)
                (drop (common_prefix_len a b) b)) as Hs.
  rewrite !length_drop in Hs. lia.
Qed.

(** Both lines are the common prefix, their own middle segment and the
    common suffix. *)
Lemma trim_decompose_old (a b : str) :
  a = take (trim_start a b) a
      ++ segment a (trim_start a b) (trim_old_end a b)
      ++ drop (trim_old_end a b) a.
Proof.
  destruct (trim_bounds a b) as [Ho _].
  unfold segment. rewrite app_assoc, take_take_drop.
  replace (trim_start a b + (trim_old_end a b - trim_start a b))%nat
    with (trim_old_end a b) by lia.
  by rewrite take_drop.
Qed.

Lemma trim_suffix_shared (a b : str) :
  drop (trim_old_end a b) a = drop (trim_new_end a b) b.
Proof.
  pose proof (common_suffix_len_drop (drop (trim_start a b) a)
                (drop (trim_start a b) b)) as Hd.
  fold (trim_suffix a b) in Hd. rewrite !drop_drop, !length_drop in Hd.
  destruct (trim_bounds a b) as [Ho Hn].
  unfold trim_old_end, trim_new_end in *.
  replace (trim_start a b + (length a - trim_start a b - trim_suffix a b))%nat
    with (length a - trim_suffix a b)%nat in Hd by lia.
  replace (trim_start a b + (length b - trim_start a b - trim_suffix a b))%nat
    with (length b - trim_suffix a b)%nat in Hd by lia.
  done.
Qed.

Lemma trim_decompose_new (a b : str) :
  b = take (trim_start a b) a
      ++ segment b (trim_start a b) (trim_new_end a b)
      ++ drop (trim_old_end a b) a.
Proof.
  destruct (trim_bounds a b) as [_ Hn].
  unfold trim_start at 1. rewrite common_prefix_len_take.
  fold (trim_start a b). rewrite trim_suffix_shared.
  unfold segment. rewrite app_assoc, take_take_drop.
  replace (trim_start a b + (trim_new_end a b - trim_start a b))%nat
    with (trim_new_end a b) by lia.
  by rewrite take_drop.
Qed.

Lemma trim_segments_differ (a b : str) :
  a ≠ b →
  segment a (trim_start a b) (trim_old_end a b)
  ≠ segment b (trim_start a b) (trim_new_end a b).
Proof.
  intros Hne Heq. apply Hne.
  etrans; [apply (trim_decompose_old a b) |].
  rewrite Heq. symmetry. apply trim_decompose_new.
Qed.

Lemma substr_guarded (s : str) (p e : nat) :
  (p ≤ length s)%nat →
  (if decide (p < e)%nat then substr s p (e - p) else Some [])
  = Some (segment s p e).
Proof.
  intros Hp. case_decide.
  - unfold substr. by rewrite decide_True by done.
  - by rewrite segment_empty by lia.
Qed.

(** The loop body of [detect_changes] never throws and emits the edit the
    specification describes. *)
Lemma diff_line_spec (i : nat) (a b user : str) (now : Z) :
  diff_line i a b user now
  = Some (match edit_of_line i a b user now with
          | Some upd => Changed upd
          | None => Unchanged
          end).
Proof.
  unfold diff_line, edit_of_line.
  destruct (decide (a = b)) as [Heq | Hne]; [done |].
  rewrite prefix_loop_spec by lia. rewrite !drop_0, Nat.add_0_l.
  fold (trim_start a b).
  destruct (trim_bounds a b) as [Ho Hn].
  rewrite suffix_loop_spec by lia.
  rewrite !segment_to_end. fold (trim_suffix a b).
  fold (trim_old_end a b) (trim_new_end a b).
  rewrite !substr_guarded by lia. simpl.
  by case_decide.
Qed.

Lemma detect_loop_spec (old_lines new_lines : list str) (user : str)
    (clock : nat → Z) (indices : list nat) :
  detect_loop old_lines new_lines user clock indices
  = Some (omap (λ i, edit_of_line i (default [] (old_lines !! i))
                       (default [] (new_lines !! i)) user (clock i))
               indices).
Proof.
  induction indices as [|i rest IH]; simpl; [done |].
  rewrite diff_line_spec, IH. simpl.
  by destruct (edit_of_line i _ _ user (clock i)).
Qed.

(** Running the loop on the process state publishes, in order, the
    operations that the loop emits. *)
Lemma detect_loop_run_spec `{StdSort} (old_lines new_lines : list str)
    (user : str) (clock : nat → Z) (indices : list nat) (w : World) :
  detect_loop_run old_lines new_lines user clock indices w
  = (ops ← detect_loop old_lines new_lines user clock indices;
     publish_all ops w).
Proof.
  rewrite detect_loop_spec. simpl. revert w.
  induction indices as [|i rest IH]; intros w; simpl; [done |].
  rewrite diff_line_spec. simpl.
  destruct (edit_of_line i _ _ user (clock i)) as [upd|]; simpl.
  - destruct (publish_local upd w) as [w'|]; simpl; [apply IH | done].
  - apply IH.
Qed.

Lemma edit_of_line_line (i : nat) (a b user : str) (now : Z)
    (upd : UpdateObject) :
  edit_of_line i a b user now = Some upd → line upd = Z.of_nat i.
Proof.
  unfold edit_of_line. repeat case_decide; try done. by intros [= <-].
Qed.

Lemma edit_of_line_changed (i : nat) (a b user : str) (now : Z) :
  a ≠ b → is_Some (edit_of_line i a b user now).
Proof.
  intros Hne. unfold edit_of_line. rewrite decide_False by done.
  rewrite decide_False by by apply trim_segments_differ. by eexists.
Qed.

(** Among the operations emitted for the indices [indices], those of
    line [i] are the single edit of that line, if it has one. *)
Lemma on_line_omap (f : nat → option UpdateObject) (indices : list nat)
    (i : nat) :
  (∀ k upd, f k = Some upd → line upd = Z.of_nat k) →
  NoDup indices →
  on_line (Z.of_nat i) (omap f indices)
  = if decide (i ∈ indices) then option_list (f i) else [].
Proof.
  intros Hline. induction indices as [|k rest IH]; intros Hnd.
  - by rewrite decide_False by apply not_elem_of_nil.
  - apply NoDup_cons in Hnd as [Hk Hnd].
    change (omap f (k :: rest))
      with (match f k with Some y => y :: omap f rest | None => omap f rest end).
    destruct (decide (i = k)) as [-> | Hne].
    + rewrite decide_True by left.
      assert (Hrest : on_line (Z.of_nat k) (omap f rest) = []).
      { rewrite IH by done. by rewrite decide_False. }
      destruct (f k) as [upd|] eqn:Hf; [|done].
      unfold on_line in *. rewrite filter_cons_True by by apply Hline.
      by rewrite Hrest.
    + assert (Hdec : (if decide (i ∈ k :: rest) then option_list (f i) else [])
                     = if decide (i ∈ rest) then option_list (f i) else []).
      { destruct (decide (i ∈ rest)) as [Hin | Hin].
        - by rewrite decide_True by by right.
        - rewrite decide_False; [done |].
          by intros [? | ?]%elem_of_cons. }
      rewrite Hdec, <- IH by done.
      destruct (f k) as [upd|] eqn:Hf; [|done].
      unfold on_line. rewrite filter_cons_False; [done |].
      rewrite (Hline _ _ Hf). lia.
Qed.

Lemma detect_changes_on_line (old_lines new_lines : list str) (user : str)
    (clock : nat → Z) (i : nat) :
  let a := default [] (old_lines !! i) in
  let b := default [] (new_lines !! i) in
  ∃ ops,
    detect_changes old_lines new_lines user clock = Some ops
    ∧ on_line (Z.of_nat i) ops = option_list (edit_of_line i a b user (clock i)).
Proof.
  intros a b. unfold detect_changes. rewrite detect_loop_spec.
  eexists. split; [done |].
  rewrite on_line_omap.
  2: { intros k upd. apply edit_of_line_line. }
  2: { apply NoDup_seq. }
  case_decide as Hin; [done |].
  rewrite elem_of_seq in Hin.
  assert (Ha : a = []).
  { unfold a. rewrite (lookup_ge_None_2 old_lines i) by lia. done. }
  assert (Hb : b = []).
  { unfold b. rewrite (lookup_ge_None_2 new_lines i) by lia. done. }
  rewrite Ha, Hb. done.
Qed.

(** C8.  [detect_changes] never throws, and for every line index [i] the
    operations it emits for that line are: none when the old and the new
    line are equal, and otherwise exactly one, with [line = i], the range
    from [p] to [max(old_end, new_end)], the old and the new middle
    segment, each cut to at most 255 bytes, as texts, the author and the
    time read for that line.  [p] is the length of the longest common
    prefix and [old_end], [new_end] are the ends of the middle segments
    left by the longest common suffix that starts no earlier than [p].
    Diffing "Hello World" against "Hello Mars" gives line 0, range
    \[6, 11), old text "World", new text "Mars". *)
Theorem detect_changes_emits (old_lines new_lines : list str) (user : str)
    (clock : nat → Z) (i : nat) :
  let a := default [] (old_lines !! i) in
  let b := default [] (new_lines !! i) in
  let p := trim_start a b in
  let old_end := trim_old_end a b in
  let new_end := trim_new_end a b in
  (∃ ops,
     detect_changes old_lines new_lines user clock = Some ops
     ∧ on_line (Z.of_nat i) ops
       = if decide (a = b) then []
         else [ {| line := Z.of_nat i;
                   start_col := Z.of_nat p;
                   end_col := Z.of_nat (old_end `max` new_end);
                   old_content := strncpy 255 (segment a p old_end);
                   new_content := strncpy 255 (segment b p new_end);
                   ts := clock i;
                   user_id := strncpy 31 user |} ])
  ∧ (length (strncpy 255 (segment a p old_end)) ≤ 255)%nat
  ∧ (length (strncpy 255 (segment b p new_end)) ≤ 255)%nat
  ∧ strncpy 255 (segment a p old_end) `prefix_of` segment a p old_end
  ∧ strncpy 255 (segment b p new_end) `prefix_of` segment b p new_end
  ∧ (∀ seg : str, NUL ∉ seg → (length seg ≤ 255)%nat → strncpy 255 seg = seg)
  ∧ take p a = take p b
  ∧ drop old_end a = drop new_end b
  ∧ (p ≤ old_end ≤ length a)%nat ∧ (p ≤ new_end ≤ length b)%nat
  ∧ detect_changes [lit "Hello World"] [lit "Hello Mars"] user clock
    = Some [ {| line := 0; start_col := 6; end_col := 11;
                old_content := lit "World"; new_content := lit "Mars";
                ts := clock 0%nat; user_id := strncpy 31 user |} ].
Proof.
  intros a b p old_end new_end.
  split.
  { destruct (detect_changes_on_line old_lines new_lines user clock i)
      as (ops & Hrun & Hline).
    exists ops. split; [done |]. rewrite Hline.
    fold a b. unfold edit_of_line.
    destruct (decide (a = b)) as [Heq | Hne]; [done |].
    by rewrite decide_False by by apply trim_segments_differ. }
  split; [apply strncpy_length |]. split; [apply strncpy_length |].
  split; [apply strncpy_prefix |]. split; [apply strncpy_prefix |].
  split; [intros seg; apply strncpy_fits |].
  split; [apply common_prefix_len_take |].
  split; [apply trim_suffix_shared |].
  split; [apply trim_bounds |]. split; [apply trim_bounds |].
  reflexivity.
Qed.

(** C3 (as amended).  For a line that changed from [a] to [b] the diff
    emits exactly one operation; its texts are the middle segments
    [a\[p:old_end\]] and [b\[p:new_end\]] cut to the C string of at most
    255 bytes that the record can hold, and putting [b\[p:new_end\]] in
    place of [a\[p:old_end\]] in [a] gives [b].  When the segments fit the
    record (at most 255 bytes, no NUL byte), the old text is
    [a\[p:old_end\]] itself and replacing it in [a] by the new text of the
    operation reproduces [b]. *)
Theorem diff_reproduces_when_fits (old_lines new_lines : list str)
    (user : str) (clock : nat → Z) (i : nat) :
  let a := default [] (old_lines !! i) in
  let b := default [] (new_lines !! i) in
  let p := trim_start a b in
  let old_end := trim_old_end a b in
  let new_end := trim_new_end a b in
  a ≠ b →
  ∃ ops upd,
    detect_changes old_lines new_lines user clock = Some ops
    ∧ on_line (Z.of_nat i) ops = [upd]
    ∧ diff_line i a b user (clock i) = Some (Changed upd)
    ∧ old_content upd = strncpy 255 (segment a p old_end)
    ∧ new_content upd = strncpy 255 (segment b p new_end)
    ∧ take p a ++ segment b p new_end ++ drop old_end a = b
    ∧ (NUL ∉ segment a p old_end → (old_end - p ≤ 255)%nat →
       old_content upd = segment a p old_end)
    ∧ (NUL ∉ segment b p new_end → (new_end - p ≤ 255)%nat →
       take p a ++ new_content upd ++ drop old_end a = b).
Proof.
  intros a b p old_end new_end Hne.
  destruct (detect_changes_on_line old_lines new_lines user clock i)
    as (ops & Hrun & Hline).
  fold a b in Hline.
  pose proof (diff_line_spec i a b user (clock i)) as Hdiff.
  unfold edit_of_line in Hline, Hdiff.
  rewrite decide_False in Hline, Hdiff by done.
  rewrite decide_False in Hline, Hdiff by by apply trim_segments_differ.
  eexists ops, _. split; [done |]. split; [exact Hline |].
  split; [exact Hdiff |]. simpl.
  split; [done |]. split; [done |].
  split; [symmetry; apply trim_decompose_new |].
  split.
  - intros Hnul Hlen. apply strncpy_fits; [done |].
    unfold segment. rewrite length_take. fold p old_end. lia.
  - intros Hnul Hlen. rewrite strncpy_fits; [| done |].
    + symmetry. apply trim_decompose_new.
    + unfold segment. rewrite length_take. fold p new_end. lia.
Qed.

Lemma diff_reproduces_when_fits_witness :
  ∃ ops upd,
    detect_changes [lit "Hello World"] [lit "Hello Mars"] (lit "alice")
                   (λ _, 100) = Some ops
    ∧ on_line 0 ops = [upd]
    ∧ take 6 (lit "Hello World") ++ new_content upd
      ++ drop 11 (lit "Hello World") = lit "Hello Mars".
Proof.
  destruct (diff_reproduces_when_fits [lit "Hello World"] [lit "Hello Mars"]
              (lit "alice") (λ _, 100) 0)
    as (ops & upd & Hrun & Hline & _ & _ & _ & _ & _ & Hnew).
  - discriminate.
  - exists ops, upd. split; [exact Hrun |]. split; [exact Hline |].
    apply Hnew.
    + vm_compute. intros Hin. repeat (apply elem_of_cons in Hin as [Hin | Hin];
        [discriminate Hin |]). by apply elem_of_nil in Hin.
    + vm_compute. lia.
Defined.

(** C3 (as stated) fails for a segment that does not fit the record: of
    300 changed bytes the operation keeps 255. *)
Lemma diff_reproduces_fails :
  ¬ diff_reproduces (replicate 300 "x"%char) (replicate 300 "y"%char).
Proof.
  intros Hrep.
  destruct (Hrep (mkUpdate 0 0 300 (replicate 255 "x"%char)
                           (replicate 255 "y"%char) 0 [])) as [Hold _].
  - vm_compute. reflexivity.
  - apply (f_equal length) in Hold. vm_compute in Hold. discriminate Hold.
Qed.

(** * Further properties of the program *)

(** ** The document file: [read_file] and [write_file_from_lines] *)

Lemma read_lines_line (cur : option str) (ln rest : str) :
  newline ∉ ln →
  read_lines cur (ln ++ newline :: rest)
  = (default [] cur ++ ln) :: read_lines None rest.
Proof.
  revert cur. induction ln as [|c ln IH]; intros cur Hnl.
  - rewrite app_nil_r. cbn [app read_lines].
    destruct (decide (newline = newline)); done.
  - apply not_elem_of_cons in Hnl as [Hc Hnl].
    cbn [app read_lines]. rewrite decide_False by done.
    rewrite IH by done. simpl. by rewrite <- app_assoc.
Qed.

Lemma read_lines_no_newline (cur : option str) (file : str) :
  newline ∉ default [] cur →
  Forall (λ ln, newline ∉ ln) (read_lines cur file).
Proof.
  revert cur. induction file as [|c file IH]; intros cur Hcur; simpl.
  - destruct cur; repeat constructor. done.
  - case_decide.
    + constructor; [done |]. apply IH. apply not_elem_of_nil.
    + apply IH. simpl. rewrite elem_of_app, list_elem_of_singleton.
      intros [? | ?]; [done | congruence].
Qed.

Lemma read_file_no_newline (file : str) :
  Forall (λ ln, newline ∉ ln) (read_file file).
Proof. apply read_lines_no_newline. apply not_elem_of_nil. Qed.

Lemma last_newline_cons (c : ascii) (file : str) :
  last (c :: file) = Some newline
  ↔ (file = [] ∧ c = newline) ∨ last file = Some newline.
Proof.
  destruct file as [|c' file']; simpl.
  - split; [intros [= ->]; auto | intros [[_ ->] | ?]; done].
  - split; [auto | intros [[? _] | ?]; done].
Qed.

(** The bytes written for the lines read so far: the input, closed by a
    newline if its last line lacks one. *)
Lemma write_read_lines (file : str) :
  (∀ ln, write_file_from_lines (read_lines (Some ln) file)
         = ln ++ file
           ++ (if decide (last file = Some newline) then [] else [newline]))
  ∧ write_file_from_lines (read_lines None file)
    = file ++ (if decide (file = [] ∨ last file = Some newline)
               then [] else [newline]).
Proof.
  unfold write_file_from_lines.
  induction file as [|c file [IH1 IH2]].
  - split; [intros ln; simpl; by rewrite app_nil_r | done].
  - pose proof (last_newline_cons c file) as Hlast.
    split; [intros ln |]; cbn [read_lines default];
      destruct (decide (c = newline)) as [-> | Hc];
      rewrite ?fmap_cons; cbn [concat]; rewrite ?IH1, ?IH2;
      rewrite <- ?app_assoc; cbn [app default]; repeat f_equal;
      repeat case_decide; try done; exfalso; destruct Hlast; intuition congruence.
Qed.

Lemma read_write_lines (lines : list str) :
  Forall (λ ln, newline ∉ ln) lines →
  read_file (write_file_from_lines lines) = lines.
Proof.
  unfold read_file, write_file_from_lines.
  induction 1 as [|ln lines Hln _ IH]; [done |].
  rewrite fmap_cons. cbn [concat]. rewrite <- app_assoc. simpl.
  rewrite read_lines_line by done. simpl. by rewrite IH.
Qed.

(** X1.  Writing lines that hold no newline byte and reading the file back
    returns the same lines. *)
Theorem read_file_write_file (lines : list str) :
  Forall (λ ln, newline ∉ ln) lines →
  read_file (write_file_from_lines lines) = lines.
Proof.
  unfold read_file, write_file_from_lines.
  induction 1 as [|ln lines Hln _ IH]; [done |].
  rewrite fmap_cons. cbn [concat]. rewrite <- app_assoc. simpl.
  rewrite read_lines_line by done. simpl. by rewrite IH.
Qed.

Lemma read_file_write_file_witness :
  read_file (write_file_from_lines [lit "Hello World"; []; lit "x"])
  = [lit "Hello World"; []; lit "x"].
Proof.
  apply read_file_write_file.
  repeat constructor; vm_compute;
    intros Hin; repeat (apply elem_of_cons in Hin as [Hin | Hin];
                        [discriminate Hin |]);
    by apply elem_of_nil in Hin.
Defined.

(** X2.  Reading a file and writing its lines back gives the same bytes
    when the file is empty or ends with a newline, and the file with one
    newline added otherwise; no line that is read holds a newline, and a
    line without its newline at the end of the file still counts. *)
Theorem write_file_read_file (file : str) :
  write_file_from_lines (read_file file)
  = (if decide (file = [] ∨ last file = Some newline) then file
     else file ++ [newline])
  ∧ Forall (λ ln, newline ∉ ln) (read_file file)
  ∧ read_file (write_file_from_lines (read_file file)) = read_file file.
Proof.
  split; [| split].
  - unfold read_file. rewrite (proj2 (write_read_lines file)).
    case_decide; [by rewrite app_nil_r | done].
  - apply read_file_no_newline.
  - apply read_write_lines, read_file_no_newline.
Qed.

(** ** Merge engine: the written file *)

Lemma splice_no_newline (base : str) (op : UpdateObject) :
  newline ∉ base → newline ∉ c_str (new_content op) →
  newline ∉ splice base op.
Proof.
  intros Hb Hn. unfold splice. rewrite !elem_of_app.
  intros [Hin | [Hin | Hin]]; [| done |].
  - by apply subseteq_take in Hin.
  - by apply subseteq_drop in Hin.
Qed.

Lemma foldl_splice_no_newline (ops : list UpdateObject) (base : str) :
  newline ∉ base →
  Forall (λ u, newline ∉ c_str (new_content u)) ops →
  newline ∉ foldl splice base ops.
Proof.
  revert base. induction ops as [|op ops IH]; intros base Hb Hops; [done |].
  apply Forall_cons in Hops as [Hop Hops]. cbn [foldl].
  apply IH; [by apply splice_no_newline | done].
Qed.

Lemma extend_doc_no_newline (doc : list str) (m : Z) :
  Forall (λ ln, newline ∉ ln) doc →
  Forall (λ ln, newline ∉ ln) (extend_doc doc m).
Proof.
  intros Hdoc. rewrite extend_doc_app. apply Forall_app. split; [done |].
  apply Forall_replicate. apply not_elem_of_nil.
Qed.

Lemma merge_and_apply_reads_back `{StdSort}
    (local_ops : list UpdateObject) (w : World) :
  let all := local_ops ++ Snapshot.contents (recv_ptr w) in
  all ≠ [] →
  Forall (λ u, 0 ≤ line u) all →
  Forall (λ u, newline ∉ c_str (new_content u)) (survivors all) →
  ∃ doc' w',
    merge_and_apply local_ops w = Some w'
    ∧ merge_doc all (read_file (doc_file w)) = Some doc'
    ∧ read_file (doc_file w') = doc'
    ∧ last (io_log w') = Some (FileWrite (write_file_from_lines doc')).
Proof.
  intros all Hne Hnn Hnl.
  assert (Hsn : Forall (λ u, 0 ≤ line u) (survivors all)).
  { rewrite Forall_forall in *. intros u Hu.
    by apply Hnn, survivors_subseteq. }
  pose proof (merge_doc_lines all (read_file (doc_file w)) Hsn) as Hm.
  eexists _, _. split.
  { unfold merge_and_apply. fold all. rewrite decide_False by done.
    rewrite Hm. simpl. reflexivity. }
  split; [exact Hm |]. simpl. split; [| apply last_snoc].
  apply read_write_lines.
  apply Forall_forall. intros ln Hln.
  apply list_elem_of_lookup in Hln as [i Hi].
  rewrite list_lookup_imap in Hi.
  destruct (extend_doc (read_file (doc_file w)) (max_line all) !! i)
    as [base|] eqn:Hb; [| done].
  simpl in Hi. injection Hi as <-. unfold replay_line.
  apply foldl_splice_no_newline.
  - pose proof (extend_doc_no_newline (read_file (doc_file w))
                  (max_line all) (read_file_no_newline _)) as Hext.
    rewrite Forall_forall in Hext. apply Hext.
    by eapply list_elem_of_lookup_2.
  - apply Forall_forall. intros u Hu. rewrite std_sort_perm in Hu.
    apply list_elem_of_filter in Hu as [_ Hu].
    rewrite Forall_forall in Hnl. by apply Hnl.
Qed.

(** X3.  When no surviving operation carries a newline in its new text, the
    file written by a merge reads back as the merged document, line for
    line: what the next [read_file] sees is what the merge computed. *)
Theorem merge_written_file_reads_back `{StdSort}
    (local_ops : list UpdateObject) (w : World) :
  let all := local_ops ++ Snapshot.contents (recv_ptr w) in
  all ≠ [] →
  Forall (λ u, 0 ≤ line u) all →
  Forall (λ u, newline ∉ c_str (new_content u)) (survivors all) →
  ∃ doc' w',
    merge_and_apply local_ops w = Some w'
    ∧ merge_doc all (read_file (doc_file w)) = Some doc'
    ∧ read_file (doc_file w') = doc'
    ∧ last (io_log w') = Some (FileWrite (write_file_from_lines doc')).
Proof.
  intros all Hne Hnn Hnl.
  assert (Hsn : Forall (λ u, 0 ≤ line u) (survivors all)).
  { rewrite Forall_forall in *. intros u Hu.
    by apply Hnn, survivors_subseteq. }
  pose proof (merge_doc_lines all (read_file (doc_file w)) Hsn) as Hm.
  eexists _, _. split.
  { unfold merge_and_apply. fold all. rewrite decide_False by done.
    rewrite Hm. simpl. reflexivity. }
  split; [exact Hm |]. simpl. split; [| apply last_snoc].
  apply read_write_lines.
  apply Forall_forall. intros ln Hln.
  apply list_elem_of_lookup in Hln as [i Hi].
  rewrite list_lookup_imap in Hi.
  destruct (extend_doc (read_file (doc_file w)) (max_line all) !! i)
    as [base|] eqn:Hb; [| done].
  simpl in Hi. injection Hi as <-. unfold replay_line.
  apply foldl_splice_no_newline.
  - pose proof (extend_doc_no_newline (read_file (doc_file w))
                  (max_line all) (read_file_no_newline _)) as Hext.
    rewrite Forall_forall in Hext. apply Hext.
    by eapply list_elem_of_lookup_2.
  - apply Forall_forall. intros u Hu. rewrite std_sort_perm in Hu.
    apply list_elem_of_filter in Hu as [_ Hu].
    rewrite Forall_forall in Hnl. by apply Hnl.
Qed.

Lemma merge_written_file_reads_back_witness :
  ∃ doc' w',
    merge_and_apply [chain_C] (init_world (lit "abcdef")) = Some w'
    ∧ read_file (doc_file w') = doc'.
Proof.
  destruct (merge_written_file_reads_back [chain_C]
              (init_world (lit "abcdef")))
    as (doc' & w' & Hrun & _ & Hread & _).
  - discriminate.
  - repeat constructor. discriminate.
  - repeat constructor. vm_compute. intros Hin.
    repeat (apply elem_of_cons in Hin as [Hin | Hin]; [discriminate Hin |]).
    by apply elem_of_nil in Hin.
  - exists doc', w'. split; [exact Hrun | exact Hread].
Defined.

(** ** Merge engine: what conflict resolution keeps *)

(** X4.  After conflict resolution no two operations of the batch that
    conflict (same line, overlapping ranges) are both kept, wherever they
    stand in the batch. *)
Theorem kept_operations_never_conflict (all : list UpdateObject)
    (i j : nat) (a b : UpdateObject) :
  all !! i = Some a → all !! j = Some b → i ≠ j →
  conflict a b = true →
  resolve all !!! i = false ∨ resolve all !!! j = false.
Proof.
  intros Hi Hj Hne Hc.
  assert (Hlen : (0 + length all)%nat = length (replicate (length all) true)).
  { by rewrite length_replicate. }
  unfold resolve.
  destruct (decide (i < j)%nat) as [Hlt | Hge].
  - apply (resolve_outer_conflict 0 all _ i j a b Hlen Hi Hj Hlt Hc).
  - rewrite conflict_sym in Hc.
    destruct (resolve_outer_conflict 0 all _ j i b a Hlen Hj Hi
                ltac:(lia) Hc) as [Hf | Hf]; auto.
Qed.

Lemma kept_operations_never_conflict_witness :
  resolve [chain_A; chain_B; chain_C] !!! 0%nat = false
  ∨ resolve [chain_A; chain_B; chain_C] !!! 1%nat = false.
Proof.
  apply (kept_operations_never_conflict [chain_A; chain_B; chain_C] 0 1
           chain_A chain_B); [reflexivity | reflexivity | lia | reflexivity].
Defined.

Lemma kept_all_true (all : list UpdateObject) :
  kept all (replicate (length all) true) = all.
Proof.
  unfold kept. induction all as [|x all IH]; [done |].
  cbn [length replicate zip_with]. rewrite filter_cons_True by done.
  rewrite fmap_cons. simpl. by rewrite IH.
Qed.

Lemma kept_full (all : list UpdateObject) (keep : list bool) :
  length keep = length all → kept all keep = all →
  keep = replicate (length all) true.
Proof.
  revert keep. induction all as [|x all IH]; intros [|k keep] Hlen Hk;
    try done.
  injection Hlen as Hlen. destruct k.
  - unfold kept in Hk. cbn [zip_with] in Hk.
    rewrite filter_cons_True in Hk by done. rewrite fmap_cons in Hk.
    injection Hk as Hk. cbn [length replicate]. f_equal. by apply IH.
  - exfalso. unfold kept in Hk. cbn [zip_with] in Hk.
    rewrite filter_cons_False in Hk by (simpl; congruence).
    pose proof (sublist_length _ _ (kept_sublist all keep)) as Hl.
    unfold kept in Hl. rewrite Hk in Hl. simpl in Hl. lia.
Qed.

Lemma conflict_free_all_survive (all : list UpdateObject) :
  (∀ i j a b, i ≠ j → all !! i = Some a → all !! j = Some b →
     conflict a b = false) →
  survivors all = all.
Proof.
  intros Hfree. unfold survivors.
  assert (Hres : resolve all = replicate (length all) true).
  { apply list_eq. intros k.
    destruct (decide (k < length all)%nat) as [Hk | Hk].
    - rewrite lookup_replicate_2 by done.
      destruct (lookup_lt_is_Some_2 all k Hk) as [x Hx].
      rewrite list_lookup_lookup_total_lt by (rewrite resolve_length; lia).
      f_equal. unfold resolve. apply (resolve_outer_keeps 0 all _ k x).
      + by apply lookup_total_replicate_2.
      + intros c xc Hc Hck. simpl in Hck. subst c. congruence.
      + intros c xc Hc Hcf. simpl.
        destruct (decide (c = k)) as [-> | Hck]; [split; intros; lia |].
        rewrite (Hfree c k xc x Hck Hc Hx) in Hcf. done.
    - rewrite (lookup_ge_None_2 (resolve all)) by
        (rewrite resolve_length; lia).
      symmetry. apply lookup_replicate_None. lia. }
  rewrite Hres. apply kept_all_true.
Qed.

(** X5.  Every operation of a batch survives exactly when no two of its
    operations conflict. *)
Theorem all_survive_iff_conflict_free (all : list UpdateObject) :
  survivors all = all
  ↔ ∀ i j a b, i ≠ j → all !! i = Some a → all !! j = Some b →
      conflict a b = false.
Proof.
  split.
  - intros Hall i j a b Hne Hi Hj.
    apply kept_full in Hall; [| apply resolve_length].
    destruct (conflict a b) eqn:Hc; [exfalso | done].
    assert (Hlen : (0 + length all)%nat
                   = length (replicate (length all) true)).
    { by rewrite length_replicate. }
    assert (Hki : resolve all !!! i = true).
    { rewrite Hall. apply lookup_total_replicate_2.
      by apply lookup_lt_Some in Hi. }
    assert (Hkj : resolve all !!! j = true).
    { rewrite Hall. apply lookup_total_replicate_2.
      by apply lookup_lt_Some in Hj. }
    unfold resolve in Hki, Hkj.
    destruct (decide (i < j)%nat) as [Hlt | Hge].
    + destruct (resolve_outer_conflict 0 all _ i j a b Hlen Hi Hj Hlt Hc)
        as [Hf | Hf]; simpl in Hf; congruence.
    + rewrite conflict_sym in Hc.
      destruct (resolve_outer_conflict 0 all _ j i b a Hlen Hj Hi
                  ltac:(lia) Hc) as [Hf | Hf]; simpl in Hf; congruence.
  - apply conflict_free_all_survive.
Qed.

Lemma strcmp_go_zero (a b : str) : strcmp_go a b = 0 ↔ a = b.
Proof.
  revert b. induction a as [|x a IH]; intros [|y b]; simpl; try done.
  destruct (decide (x = y)) as [-> | Hne].
  - rewrite IH. split; [by intros -> | by intros [= ->]].
  - split; [| by intros [= ? ?]].
    destruct (N_of_ascii x <? N_of_ascii y)%N; done.
Qed.

Lemma strcmp_zero (a b : str) : strcmp a b = 0 ↔ c_str a = c_str b.
Proof. apply strcmp_go_zero. Qed.

(** X6.  Conflict resolution keeps, on every line that the batch touches,
    an operation at least as new as any operation of the batch on that
    line.  So only the empty batch has no survivor, and the discarded
    operations never add a line to the document: the highest line of the
    survivors is the highest line of the batch. *)
Theorem touched_line_keeps_newest (all : list UpdateObject) :
  (∀ u, u ∈ all →
     ∃ v, v ∈ survivors all ∧ line v = line u ∧ ts u ≤ ts v)
  ∧ (survivors all = [] ↔ all = [])
  ∧ max_line (survivors all) = max_line all.
Proof.
  assert (Hkeep : ∀ u, u ∈ all →
            ∃ v, v ∈ survivors all ∧ line v = line u ∧ ts u ≤ ts v).
  { intros u Hu.
    set (same := filter (λ x, line x = line u) all).
    assert (Hin : u ∈ same) by by apply list_elem_of_filter.
    assert (Hne : same ≠ []) by (intros E; rewrite E in Hin; inversion Hin).
    destruct (undominated_exists same Hne) as (m & Hm & Hmax).
    apply list_elem_of_filter in Hm as [Hml Hm].
    destruct (list_find_elem_of
                (λ x, line x = line u ∧ ts x = ts m
                      ∧ strcmp (user_id x) (user_id m) = 0)
                all m Hm) as [[i0 x0] Hfind].
    { split; [done |]. split; [done | apply strcmp_refl]. }
    apply list_find_Some in Hfind as (Hi0 & (Hline & Hts & Hsame) & Hfirst).
    apply strcmp_zero in Hsame.
    assert (Hx0 : ∀ z, z ∈ all → line z = line u → ¬ dominates z x0).
    { intros z Hz Hzl Hd. apply (Hmax z); [by apply list_elem_of_filter |].
      unfold dominates, strcmp in *. rewrite <- Hts, <- Hsame. done. }
    exists x0. split; [| split; [done |]].
    - apply elem_of_survivors. exists i0. split; [done |].
      unfold resolve. apply (resolve_outer_keeps 0 all _ i0 x0).
      + apply lookup_total_replicate_2. by apply lookup_lt_Some in Hi0.
      + intros c xc Hc Hci. simpl in Hci. subst c. congruence.
      + intros c xc Hc Hcf. simpl.
        assert (Hz : xc ∈ all) by by eapply list_elem_of_lookup_2.
        assert (Hxl : line xc = line u).
        { apply conflict_same_line in Hcf. congruence. }
        pose proof (Hx0 xc Hz Hxl) as Hnd. unfold dominates in Hnd.
        pose proof (strcmp_antisym (user_id xc) (user_id x0)) as Hanti.
        split; intros Hlt.
        * destruct (decide (ts xc = ts x0
                            ∧ strcmp (user_id xc) (user_id x0) = 0))
            as [[Ht Hs] | Hno].
          -- exfalso. apply (Hfirst c xc Hc Hlt).
             split; [done |]. split; [congruence |].
             apply strcmp_zero. apply strcmp_zero in Hs. congruence.
          -- lia.
        * lia.
    - assert (Hnd : ¬ dominates u m) by by apply Hmax.
      unfold dominates in Hnd. lia. }
  split; [done |]. split.
  - split; [| by intros ->].
    intros Hnone. destruct all as [|u all']; [done | exfalso].
    destruct (Hkeep u) as (v & Hv & _); [left |].
    rewrite Hnone in Hv. by apply elem_of_nil in Hv.
  - apply Z.le_antisymm.
    + destruct (max_line_attained (survivors all)) as [-> | (u & Hu & <-)];
        [apply max_line_lower |].
      apply max_line_ge. by apply survivors_subseteq.
    + destruct (max_line_attained all) as [-> | (u & Hu & <-)];
        [apply max_line_lower |].
      destruct (Hkeep u Hu) as (v & Hv & <- & _). by apply max_line_ge.
Qed.

Lemma kept_count_le_one (all : list UpdateObject) (keep : list bool)
    (u : UpdateObject) :
  length keep = length all →
  (∀ i j, (i < j)%nat → all !! i = Some u → all !! j = Some u →
     keep !!! i = true → keep !!! j = true → False) →
  (length (filter (λ x, x = u) (kept all keep)) ≤ 1)%nat.
Proof.
  revert keep. induction all as [|x all IH]; intros [|k keep] Hlen Hpair;
    try done.
  { unfold kept. simpl. lia. }
  injection Hlen as Hlen.
  assert (Htail : ∀ i j, (i < j)%nat → all !! i = Some u →
            all !! j = Some u → keep !!! i = true → keep !!! j = true →
            False).
  { intros i j Hij Hi Hj Hki Hkj.
    apply (Hpair (S i) (S j)); [lia | done..]. }
  specialize (IH keep Hlen Htail).
  unfold kept in *. cbn [zip_with].
  destruct k; [| by rewrite filter_cons_False by (simpl; congruence)].
  rewrite filter_cons_True by done. rewrite fmap_cons. simpl.
  destruct (decide (x = u)) as [-> | Hne];
    [| by rewrite filter_cons_False by done].
  rewrite filter_cons_True by done. simpl.
  destruct (filter (λ x, x = u)
              ((filter (λ p, p.2 = true) (zip all keep)).*1))
    as [|y rest] eqn:E; [simpl; lia | exfalso].
  assert (Hy : y ∈ filter (λ x, x = u)
                 ((filter (λ p, p.2 = true) (zip all keep)).*1)).
  { rewrite E. left. }
  apply list_elem_of_filter in Hy as [-> Hy].
  apply (elem_of_kept all keep u Hlen) in Hy as (j & Hj & Hkj).
  apply (Hpair 0%nat (S j)); [lia | done..].
Qed.

(** X7.  An operation with a non-empty range that occurs several times in
    a batch (a record delivered twice) survives at most once, and merging
    it twice gives the document obtained by merging it once. *)
Theorem duplicate_applied_once `{StdSort} (all : list UpdateObject)
    (u : UpdateObject) (doc : list str) :
  start_col u < end_col u →
  (length (filter (λ x, x = u) (survivors all)) ≤ 1)%nat
  ∧ survivors [u; u] = [u]
  ∧ merge_doc [u; u] doc = merge_doc [u] doc.
Proof.
  intros Hrange.
  assert (Hself : conflict u u = true).
  { unfold conflict, ranges_overlap. rewrite Z.eqb_refl. simpl.
    destruct (Z.leb_spec (end_col u) (start_col u)); [lia | done]. }
  assert (Hpair : survivors [u; u] = [u]).
  { unfold survivors. rewrite resolve_pair, Hself.
    rewrite Z.gtb_ltb, Z.ltb_irrefl, strcmp_refl. done. }
  split; [| split; [done |]].
  - apply kept_count_le_one; [apply resolve_length |].
    intros i j Hij Hi Hj Hki Hkj.
    assert (Hlen : (0 + length all)%nat
                   = length (replicate (length all) true)).
    { by rewrite length_replicate. }
    unfold resolve in Hki, Hkj.
    destruct (resolve_outer_conflict 0 all _ i j u u Hlen Hi Hj Hij Hself)
      as [Hf | Hf]; simpl in Hf; congruence.
  - apply merge_doc_survivors; [by apply max_line_pair_same |].
    by rewrite Hpair, survivors_single.
Qed.

Lemma duplicate_applied_once_witness :
  merge_doc [chain_A; chain_A] chain_doc = merge_doc [chain_A] chain_doc.
Proof.
  destruct (duplicate_applied_once [chain_A; chain_A] chain_A chain_doc)
    as (_ & _ & Hdoc); [reflexivity | exact Hdoc].
Defined.

(** X8.  The document written by a merge does not depend on the order in
    which the loop meets the entries of the unordered map: replaying the
    groups in any order gives the result of [merge_doc]. *)
Theorem map_iteration_order_irrelevant `{StdSort}
    (all : list UpdateObject) (doc : list str)
    (entries : list (Z * list UpdateObject)) :
  entries ≡ₚ map_to_list (group_by_line all (resolve all)) →
  replay entries (extend_doc doc (max_line all)) = merge_doc all doc.
Proof.
  intros Hperm. unfold merge_doc. symmetry.
  apply replay_permutation; [done |]. apply NoDup_fst_map_to_list.
Qed.

Lemma map_iteration_order_irrelevant_witness :
  replay (reverse (map_to_list
                     (group_by_line [pile_A; pile_D] (resolve [pile_A; pile_D]))))
         (extend_doc [lit "abcdef"; lit "x"] (max_line [pile_A; pile_D]))
  = merge_doc [pile_A; pile_D] [lit "abcdef"; lit "x"].
Proof.
  apply map_iteration_order_irrelevant. apply reverse_Permutation.
Defined.

(** X9.  A single operation for a line beyond the end of the document
    creates that line: the document is padded with empty lines and the new
    line is the new text of the operation, whatever its columns are. *)
Theorem merge_creates_missing_line `{StdSort} (u : UpdateObject)
    (doc : list str) :
  Z.of_nat (length doc) ≤ line u →
  merge_doc [u] doc
  = Some (doc ++ replicate (Z.to_nat (line u) - length doc) []
              ++ [c_str (new_content u)]).
Proof.
  intros Hline. rewrite merge_doc_single by lia. f_equal.
  rewrite extend_doc_app.
  replace (Z.to_nat (line u + 1 - Z.of_nat (length doc)))
    with (S (Z.to_nat (line u) - length doc)) by lia.
  rewrite replicate_S_end.
  rewrite alter_app_r_alt by lia.
  rewrite alter_app_r_alt by (rewrite length_replicate; lia).
  rewrite length_replicate.
  replace (Z.to_nat (line u) - length doc
           - (Z.to_nat (line u) - length doc))%nat with 0%nat by lia.
  simpl. unfold splice. by rewrite take_nil, drop_nil, app_nil_r.
Qed.

Lemma merge_creates_missing_line_witness :
  merge_doc [mkUpdate 3 7 9 [] (lit "new") 1 (lit "alice")] [lit "a"]
  = Some [lit "a"; []; []; lit "new"].
Proof.
  apply (merge_creates_missing_line
           (mkUpdate 3 7 9 [] (lit "new") 1 (lit "alice")) [lit "a"]).
  simpl. lia.
Defined.

(** ** Buffers, merge trigger and broadcasts *)

Lemma broadcasts_app (l l' : list io_event) :
  broadcasts (l ++ l') = broadcasts l ++ broadcasts l'.
Proof. unfold broadcasts. apply omap_app. Qed.

Lemma broadcasts_fmap (ops : list UpdateObject) :
  broadcasts (Broadcast <$> ops) = ops.
Proof.
  induction ops as [|u ops IH]; [done |].
  change (u :: broadcasts (Broadcast <$> ops) = u :: ops). by rewrite IH.
Qed.

Lemma merge_and_apply_inv `{StdSort} (ops : list UpdateObject) (w w' : World) :
  merge_and_apply ops w = Some w' →
  recv_ptr w' = Snapshot.clear (recv_ptr w)
  ∧ local_ptr w' = local_ptr w
  ∧ recent_ptr w' = recent_ptr w
  ∧ ((ops ++ Snapshot.contents (recv_ptr w) = []
      ∧ doc_file w' = doc_file w
      ∧ io_log w' = io_log w ++ [FileRead])
     ∨ (ops ++ Snapshot.contents (recv_ptr w) ≠ []
        ∧ io_log w' = io_log w ++ [FileRead; FileWrite (doc_file w')])).
Proof.
  unfold merge_and_apply. case_decide as Hall.
  - intros [= <-]. simpl. eauto 10.
  - destruct (merge_doc _ _) as [doc' |]; [| done].
    simpl. intros [= <-]. simpl. rewrite <- app_assoc. eauto 10.
Qed.

Lemma try_merge_inv `{StdSort} (ops : list UpdateObject) (w w' : World) :
  try_merge_if_needed ops w = Some w' →
  ((buffered w + length ops < MERGE_THRESHOLD)%nat ∧ w' = w)
  ∨ ((MERGE_THRESHOLD ≤ buffered w + length ops)%nat
     ∧ recv_ptr w' = Snapshot.clear (recv_ptr w)
     ∧ local_ptr w' = Snapshot.clear (local_ptr w)
     ∧ recent_ptr w' = recent_ptr w
     ∧ ((ops = [] ∧ buffered w = 0%nat
         ∧ io_log w' = io_log w ++ [FileRead])
        ∨ io_log w' = io_log w ++ [FileRead; FileWrite (doc_file w')])).
Proof.
  unfold try_merge_if_needed, should_merge, buffered.
  case_bool_decide as Htot.
  - intros Hm. right. split; [lia |].
    apply merge_and_apply_inv in Hm
      as (Hr & Hl & Hn & [(Hnil & _ & Hlog) | (_ & Hlog)]); simpl in *.
    + repeat split; try done. left.
      apply app_eq_nil in Hnil as [Hnil ->].
      apply app_eq_nil in Hnil as [-> ->]. done.
    + repeat split; try done. by right.
  - intros [= <-]. left. split; [lia | done].
Qed.

(** X10.  After a run of the merge trigger fewer than [MERGE_THRESHOLD]
    operations are buffered: below the threshold nothing changes, from the
    threshold on both buffers are left empty and the file has been read. *)
Theorem merge_trigger_bounds_buffers `{StdSort} (ops : list UpdateObject)
    (w w' : World) :
  try_merge_if_needed ops w = Some w' →
  (buffered w' < MERGE_THRESHOLD)%nat
  ∧ ((MERGE_THRESHOLD ≤ buffered w + length ops)%nat →
       buffered w' = 0%nat
       ∧ ∃ tail, io_log w' = io_log w ++ FileRead :: tail)
  ∧ ((buffered w + length ops < MERGE_THRESHOLD)%nat → w' = w).
Proof.
  intros Hm.
  apply try_merge_inv in Hm
    as [[Hlt ->] | (Hge & Hr & Hl & _ & Hlog)].
  - split; [lia |]. split; [lia | done].
  - assert (Hzero : buffered w' = 0%nat).
    { unfold buffered. by rewrite Hr, Hl, !clear_contents. }
    split; [rewrite Hzero; unfold MERGE_THRESHOLD; lia |].
    split; [| lia]. intros _. split; [done |].
    destruct Hlog as [(_ & _ & ->) | ->]; eauto.
Qed.

Lemma merge_trigger_bounds_buffers_witness :
  ∃ w', try_merge_if_needed (H := merge_std_sort) [far_left] crowded_world
        = Some w'
        ∧ buffered w' = 0%nat
        ∧ ∃ tail, io_log w' = io_log crowded_world ++ FileRead :: tail.
Proof.
  destruct (try_merge_if_needed (H := merge_std_sort) [far_left]
              crowded_world) as [w' |] eqn:Hp;
    [| vm_compute in Hp; discriminate].
  exists w'. split; [done |].
  destruct (merge_trigger_bounds_buffers (H := merge_std_sort) [far_left]
              crowded_world w' Hp) as (_ & Hfull & _).
  apply Hfull. vm_compute. lia.
Defined.

Lemma publish_local_inv `{StdSort} (upd : UpdateObject) (w w' : World) :
  publish_local upd w = Some w' →
  let next := Snapshot.contents (local_ptr w) ++ [upd] in
  ((MERGE_THRESHOLD ≤ length next)%nat
   ∧ try_merge_if_needed next
       (mkWorld (recv_ptr w)
                (Snapshot.clear (Snapshot.append upd (local_ptr w)))
                (recent_ptr w) (doc_file w)
                (io_log w ++ (Broadcast <$> next))) = Some w')
  ∨ ((length next < MERGE_THRESHOLD)%nat
     ∧ try_merge_if_needed [] (push_local upd w) = Some w').
Proof.
  unfold publish_local. simpl. rewrite append_contents.
  case_bool_decide as Hfull; intros Hm; [left | right]; (split; [lia | done]).
Qed.

(** X11.  What publishing a detected operation broadcasts: when the local
    buffer, with the new operation, holds [MERGE_THRESHOLD] operations,
    each of them is broadcast once, oldest first; otherwise nothing is
    broadcast, whether or not a merge runs. *)
Theorem publish_local_broadcasts `{StdSort} (upd : UpdateObject)
    (w w' : World) :
  publish_local upd w = Some w' →
  let next := Snapshot.contents (local_ptr w) ++ [upd] in
  broadcasts (io_log w')
  = broadcasts (io_log w)
    ++ (if bool_decide (MERGE_THRESHOLD ≤ length next)%nat then next else []).
Proof.
  intros Hp next.
  assert (Htail : ∀ (v v' : World) ops,
            try_merge_if_needed ops v = Some v' →
            broadcasts (io_log v') = broadcasts (io_log v)).
  { intros v v' ops Hm.
    apply try_merge_inv in Hm
      as [[_ ->] | (_ & _ & _ & _ & [(_ & _ & ->) | ->])]; [done | |];
      rewrite broadcasts_app; simpl; by rewrite app_nil_r. }
  apply publish_local_inv in Hp as [[Hfull Hm] | [Hfew Hm]];
    fold next in Hfull || fold next in Hfew.
  - rewrite bool_decide_true by done.
    rewrite (Htail _ _ _ Hm). simpl.
    by rewrite broadcasts_app, broadcasts_fmap.
  - rewrite bool_decide_false by lia.
    rewrite (Htail _ _ _ Hm). simpl. by rewrite app_nil_r.
Qed.

Lemma publish_local_broadcasts_witness :
  ∃ w', publish_local (H := merge_std_sort) far_left drafting_world = Some w'
        ∧ broadcasts (io_log w')
          = [pile_D; pile_C; pile_B; pile_A; far_left].
Proof.
  destruct (publish_local (H := merge_std_sort) far_left drafting_world)
    as [w' |] eqn:Hp; [| vm_compute in Hp; discriminate].
  exists w'. split; [done |].
  etrans;
    [exact (publish_local_broadcasts (H := merge_std_sort) far_left
              drafting_world w' Hp)
    | reflexivity].
Defined.

(** X12.  Local operations can reach the file without being sent: when
    the local buffer stays below [MERGE_THRESHOLD] but the received
    operations bring the total to it, publishing an operation merges the
    whole local buffer with the received operations into the file, empties
    both buffers and broadcasts nothing. *)
Theorem local_operations_merged_unsent `{StdSort} (upd : UpdateObject)
    (w w' : World) :
  let next := Snapshot.contents (local_ptr w) ++ [upd] in
  let received := Snapshot.contents (recv_ptr w) in
  (length next < MERGE_THRESHOLD)%nat →
  (MERGE_THRESHOLD ≤ length received + length next)%nat →
  publish_local upd w = Some w' →
  ∃ doc',
    merge_doc (next ++ received) (read_file (doc_file w)) = Some doc'
    ∧ doc_file w' = write_file_from_lines doc'
    ∧ io_log w' = io_log w ++ [FileRead; FileWrite (doc_file w')]
    ∧ Snapshot.contents (local_ptr w') = []
    ∧ Snapshot.contents (recv_ptr w') = [].
Proof.
  intros next received Hfew Htot. unfold publish_local. simpl.
  rewrite append_contents. fold next.
  rewrite bool_decide_false by lia.
  unfold try_merge_if_needed, should_merge. simpl.
  rewrite append_contents. fold next received.
  rewrite bool_decide_true by (simpl; lia).
  unfold merge_and_apply. simpl. fold received.
  rewrite decide_False.
  2: { intros Hnil. apply app_eq_nil in Hnil as [Hnil _].
       unfold next in Hnil. by apply app_eq_nil in Hnil as [_ ?]. }
  destruct (merge_doc _ _) as [doc' |] eqn:Hdoc; [| done].
  simpl. intros [= <-]. simpl. exists doc'.
  rewrite !clear_contents, <- app_assoc. done.
Qed.

Lemma local_operations_merged_unsent_witness :
  ∃ w', publish_local (H := merge_std_sort) far_left crowded_world = Some w'
        ∧ Snapshot.contents (local_ptr w') = []
        ∧ broadcasts (io_log w') = [].
Proof.
  destruct (publish_local (H := merge_std_sort) far_left crowded_world)
    as [w' |] eqn:Hp; [| vm_compute in Hp; discriminate].
  exists w'. split; [done |].
  destruct (local_operations_merged_unsent (H := merge_std_sort)
              far_left crowded_world w') as (doc' & _ & _ & Hlog & Hl & _);
    [vm_compute; lia | vm_compute; lia | exact Hp |].
  split; [exact Hl |]. rewrite Hlog. reflexivity.
Defined.

(** ** Whole runs of the editor *)



Lemma try_merge_writes `{StdSort} (ops : list UpdateObject) (w w' : World) :
  try_merge_if_needed ops w = Some w' →
  rtc cell_write (recv_ptr w) (recv_ptr w')
  ∧ rtc cell_write (local_ptr w) (local_ptr w')
  ∧ recent_ptr w' = recent_ptr w.
Proof.
  intros Hm.
  apply try_merge_inv in Hm as [[_ ->] | (_ & -> & -> & -> & _)]; [done |].
  repeat split; apply rtc_once; constructor.
Qed.

Lemma engine_step_writes `{StdSort} (w w' : World) :
  engine_step w w' →
  rtc cell_write (recv_ptr w) (recv_ptr w')
  ∧ rtc cell_write (local_ptr w) (local_ptr w')
  ∧ rtc cell_write (recent_ptr w) (recent_ptr w').
Proof.
  intros [upd v v' Hp | message upd v v' Hr].
  - apply publish_local_inv in Hp as [[_ Hm] | [_ Hm]];
      apply try_merge_writes in Hm as (Hrecv & Hlocal & ->); simpl in *.
    + repeat split; [done | | done].
      eapply rtc_l; [apply (write_append upd) |].
      eapply rtc_l; [apply write_clear | done].
    + repeat split; [done | | done].
      eapply rtc_l; [apply (write_append upd) | done].
  - unfold listener_receive in Hr.
    apply try_merge_writes in Hr as (Hrecv & Hlocal & ->); simpl in *.
    repeat split; [| done |].
    + eapply rtc_l; [apply (write_append upd) | done].
    + apply rtc_once. constructor.
Qed.

Lemma engine_run_writes `{StdSort} (w w' : World) :
  rtc engine_step w w' →
  rtc cell_write (recv_ptr w) (recv_ptr w')
  ∧ rtc cell_write (local_ptr w) (local_ptr w')
  ∧ rtc cell_write (recent_ptr w) (recent_ptr w').
Proof.
  intros Hrun. induction Hrun as [w | w w1 w' Hstep _ (IHr & IHl & IHn)];
    [done |].
  apply engine_step_writes in Hstep as (Hr & Hl & Hn).
  repeat split; by etrans.
Qed.




(** X14.  A snapshot of any of the three buffers taken at some point of a
    run designates the same contents at every later point of the run, what
    ever the editor and the listener publish, receive, merge or clear in
    between. *)
Theorem snapshots_survive_runs `{StdSort} (w w' : World) (h : nat) :
  rtc engine_step w w' →
  ((h < length (Snapshot.heap (recv_ptr w)))%nat →
     Snapshot.deref (recv_ptr w') h = Snapshot.deref (recv_ptr w) h)
  ∧ ((h < length (Snapshot.heap (local_ptr w)))%nat →
     Snapshot.deref (local_ptr w') h = Snapshot.deref (local_ptr w) h)
  ∧ ((h < length (Snapshot.heap (recent_ptr w)))%nat →
     Snapshot.deref (recent_ptr w') h = Snapshot.deref (recent_ptr w) h).
Proof.
  intros Hrun. apply engine_run_writes in Hrun as (Hr & Hl & Hn).
  repeat split; intros Hh; by apply snapshot_stable.
Qed.

Lemma snapshots_survive_runs_witness :
  ∃ w', publish_local (H := merge_std_sort) far_left crowded_world = Some w'
        ∧ Snapshot.deref (recv_ptr w') (Snapshot.load (recv_ptr crowded_world))
          = Some [pile_D; pile_C; pile_B; pile_A]
        ∧ Snapshot.contents (recv_ptr w') = [].
Proof.
  destruct (publish_local (H := merge_std_sort) far_left crowded_world)
    as [w' |] eqn:Hp; [| vm_compute in Hp; discriminate].
  exists w'. split; [done |].
  destruct (snapshots_survive_runs (H := merge_std_sort) crowded_world w'
              (Snapshot.load (recv_ptr crowded_world))) as (Hr & _ & _).
  { apply rtc_once. by apply (step_publish far_left). }
  split.
  - rewrite Hr by (vm_compute; lia). reflexivity.
  - vm_compute in Hp. injection Hp as <-. reflexivity.
Defined.

(** X15.  The notification buffer is a window on the latest messages: a
    buffer within its bound holds, after any number of notifications, the
    last [MAX_NOTIFICATIONS] of its former entries followed by the new
    messages, in order; the operation buffers are not touched. *)
Theorem notifications_keep_latest (msgs : list str) (w : World) :
  (length (Snapshot.contents (recent_ptr w)) ≤ MAX_NOTIFICATIONS)%nat →
  let all := Snapshot.contents (recent_ptr w) ++ msgs in
  Snapshot.contents (recent_ptr (notify_all msgs w))
  = drop (length all - MAX_NOTIFICATIONS) all
  ∧ recv_ptr (notify_all msgs w) = recv_ptr w
  ∧ local_ptr (notify_all msgs w) = local_ptr w.
Proof.
  revert w. unfold notify_all.
  induction msgs as [|msg msgs IH]; intros w Hle; cbn [foldl].
  - simpl. rewrite app_nil_r.
    replace (length (Snapshot.contents (recent_ptr w)) - MAX_NOTIFICATIONS)%nat
      with 0%nat by lia.
    done.
  - set (w1 := append_recent_notification msg w).
    assert (Hw1 : Snapshot.contents (recent_ptr w1)
                  = drop (length (Snapshot.contents (recent_ptr w) ++ [msg])
                          - MAX_NOTIFICATIONS)
                         (Snapshot.contents (recent_ptr w) ++ [msg])).
    { unfold w1. simpl. rewrite append_bounded_contents.
      rewrite length_app. simpl.
      case_decide as Hfull.
      - by replace (length (Snapshot.contents (recent_ptr w)) + 1
                    - MAX_NOTIFICATIONS)%nat with 1%nat by lia.
      - by replace (length (Snapshot.contents (recent_ptr w)) + 1
                    - MAX_NOTIFICATIONS)%nat with 0%nat by lia. }
    assert (Hlen1 : (length (Snapshot.contents (recent_ptr w1))
                     ≤ MAX_NOTIFICATIONS)%nat).
    { rewrite Hw1, length_drop, length_app. simpl. lia. }
    destruct (IH w1 Hlen1) as (Hc & Hr & Hl).
    split; [| by rewrite Hr, Hl].
    rewrite Hc, Hw1.
    rewrite <- (drop_app_le _ msgs) by (rewrite length_app; simpl; lia).
    rewrite drop_drop, <- app_assoc. simpl.
    f_equal. rewrite length_drop, !length_app.
    simpl. unfold MAX_NOTIFICATIONS in *. lia.
Qed.

Lemma notifications_keep_latest_witness :
  Snapshot.contents
    (recent_ptr (notify_all [lit "1"; lit "2"; lit "3"; lit "4"; lit "5";
                             lit "6"; lit "7"] (init_world [])))
  = [lit "3"; lit "4"; lit "5"; lit "6"; lit "7"].
Proof.
  apply (notifications_keep_latest
           [lit "1"; lit "2"; lit "3"; lit "4"; lit "5"; lit "6"; lit "7"]
           (init_world [])).
  vm_compute. lia.
Defined.

(** ** Change detection: a whole pass *)

Lemma edit_of_line_none (i : nat) (a b user : str) (now : Z) :
  edit_of_line i a b user now = None ↔ a = b.
Proof.
  split.
  - intros Hnone. destruct (decide (a = b)) as [| Hne]; [done |].
    destruct (edit_of_line_changed i a b user now Hne) as [u Hu]. congruence.
  - intros ->. unfold edit_of_line. by rewrite decide_True.
Qed.

Lemma omap_nil_iff {A B : Type} (f : A → option B) (l : list A) :
  omap f l = [] ↔ ∀ x, x ∈ l → f x = None.
Proof.
  split.
  - intros Hnil x Hx. destruct (f x) as [y |] eqn:Hy; [exfalso | done].
    assert (Hin : y ∈ omap f l) by (apply list_elem_of_omap; eauto).
    rewrite Hnil in Hin. by apply elem_of_nil in Hin.
  - intros Hall. destruct (omap f l) as [|y rest] eqn:E; [done | exfalso].
    assert (Hin : y ∈ omap f l) by (rewrite E; left).
    apply list_elem_of_omap in Hin as (x & Hx & Hy).
    rewrite (Hall x Hx) in Hy. done.
Qed.

Lemma detect_changes_nil_iff (old_lines new_lines : list str) (user : str)
    (clock : nat → Z) :
  detect_changes old_lines new_lines user clock = Some []
  ↔ ∀ i, default [] (old_lines !! i) = default [] (new_lines !! i).
Proof.
  unfold detect_changes. rewrite detect_loop_spec. split.
  - intros [= Hnil] i.
    destruct (decide (i < length old_lines `max` length new_lines)%nat)
      as [Hi | Hi].
    + apply (edit_of_line_none i _ _ user (clock i)).
      apply (proj1 (omap_nil_iff _ _) Hnil). apply elem_of_seq. lia.
    + rewrite !lookup_ge_None_2 by lia. done.
  - intros Hall. f_equal. apply omap_nil_iff. intros i _.
    apply edit_of_line_none, Hall.
Qed.

(** X16.  A pass of [detect_changes] emits nothing exactly when the two
    documents agree line by line, a missing line counting as an empty one;
    so empty lines added at the end of the document are never detected. *)
Theorem detect_changes_silent_iff (old_lines new_lines : list str)
    (user : str) (clock : nat → Z) :
  (detect_changes old_lines new_lines user clock = Some []
   ↔ ∀ i, default [] (old_lines !! i) = default [] (new_lines !! i))
  ∧ ∀ k, detect_changes old_lines (old_lines ++ replicate k []) user clock
         = Some [].
Proof.
  split; [apply detect_changes_nil_iff |].
  intros k. apply detect_changes_nil_iff. intros i.
  destruct (decide (i < length old_lines)%nat) as [Hi | Hi].
  - by rewrite lookup_app_l.
  - rewrite lookup_app_r by lia. rewrite lookup_ge_None_2 by lia. simpl.
    destruct (replicate k [] !! (i - length old_lines)%nat) as [x |] eqn:E;
      [| done].
    apply lookup_replicate in E as [-> _]. done.
Qed.

Lemma seq_sorted (start n : nat) : StronglySorted lt (seq start n).
Proof.
  revert start. induction n as [|n IH]; intros start; simpl;
    constructor; [apply IH |].
  apply Forall_forall. intros k Hk. apply elem_of_seq in Hk. lia.
Qed.

Lemma omap_sorted_lines (f : nat → option UpdateObject) (indices : list nat) :
  (∀ k u, f k = Some u → line u = Z.of_nat k) →
  StronglySorted lt indices →
  StronglySorted (λ u v, line u < line v) (omap f indices).
Proof.
  intros Hline Hsorted.
  induction Hsorted as [|i rest Hrest IH Hall]; [constructor |].
  cbn [omap list_omap]. destruct (f i) as [u |] eqn:Hu; [| exact IH].
  constructor; [exact IH |].
  apply Forall_forall. intros v Hv.
  apply list_elem_of_omap in Hv as (k & Hk & Hfk).
  rewrite Forall_forall in Hall. specialize (Hall k Hk).
  rewrite (Hline i u Hu), (Hline k v Hfk). lia.
Qed.

Lemma sorted_lines_conflict_free (ops : list UpdateObject) :
  StronglySorted (λ u v, line u < line v) ops →
  ∀ i j a b, i ≠ j → ops !! i = Some a → ops !! j = Some b →
    conflict a b = false.
Proof.
  intros Hsorted.
  induction Hsorted as [|x rest Hrest IH Hall]; intros i j a b Hne Hi Hj;
    [done |].
  rewrite Forall_forall in Hall.
  destruct i as [|i], j as [|j]; simpl in Hi, Hj; try done.
  - injection Hi as <-.
    pose proof (Hall b (list_elem_of_lookup_2 _ _ _ Hj)).
    destruct (conflict x b) eqn:Hc; [| done].
    apply conflict_same_line in Hc. lia.
  - injection Hj as <-.
    pose proof (Hall a (list_elem_of_lookup_2 _ _ _ Hi)).
    destruct (conflict a x) eqn:Hc; [| done].
    apply conflict_same_line in Hc. lia.
  - apply (IH i j); congruence.
Qed.

Lemma edit_of_line_range (i : nat) (a b user : str) (now : Z)
    (upd : UpdateObject) :
  edit_of_line i a b user now = Some upd →
  0 ≤ start_col upd < end_col upd
  ∧ end_col upd ≤ Z.of_nat (length a `max` length b).
Proof.
  unfold edit_of_line. case_decide as Hab; [done |].
  case_decide as Hseg; [done |]. intros [= <-]. simpl.
  destruct (trim_bounds a b) as [[Hpo Hoa] [Hpn Hnb]].
  split; [| lia]. split; [lia |].
  destruct (decide (trim_start a b
                    < trim_old_end a b `max` trim_new_end a b)%nat)
    as [Hlt | Hge]; [lia | exfalso].
  apply Hseg. rewrite !segment_empty by lia. done.
Qed.

(** X17.  The operations of one pass of [detect_changes]: their lines
    increase strictly and lie in the longer of the two documents, every
    range is non-empty and starts at a column of the old line, no two of
    them conflict, and conflict resolution keeps them all. *)
Theorem one_pass_operations_all_survive (old_lines new_lines : list str)
    (user : str) (clock : nat → Z) :
  ∃ ops,
    detect_changes old_lines new_lines user clock = Some ops
    ∧ StronglySorted (λ u v, line u < line v) ops
    ∧ Forall (λ u, 0 ≤ line u
                   < Z.of_nat (length old_lines `max` length new_lines)
                 ∧ 0 ≤ start_col u < end_col u) ops
    ∧ (∀ i j a b, i ≠ j → ops !! i = Some a → ops !! j = Some b →
         conflict a b = false)
    ∧ survivors ops = ops.
Proof.
  unfold detect_changes. rewrite detect_loop_spec.
  eexists. split; [done |].
  assert (Hsorted : StronglySorted (λ u v, line u < line v)
            (omap (λ i, edit_of_line i (default [] (old_lines !! i))
                          (default [] (new_lines !! i)) user (clock i))
                  (seq 0 (length old_lines `max` length new_lines)))).
  { apply omap_sorted_lines; [| apply seq_sorted].
    intros k u Hu. by eapply edit_of_line_line. }
  split; [done |]. split.
  - apply Forall_forall. intros u Hu.
    apply list_elem_of_omap in Hu as (k & Hk & Hu).
    apply elem_of_seq in Hk.
    rewrite (edit_of_line_line _ _ _ _ _ _ Hu).
    split; [lia |]. by apply edit_of_line_range in Hu as [? _].
  - split; [by apply sorted_lines_conflict_free |].
    by apply conflict_free_all_survive, sorted_lines_conflict_free.
Qed.

(** X18.  Replaying the operation that the diff emitted for a line on the
    old line: the common prefix is kept, the new text is put in and the
    old line resumes at column [max(old_end, new_end)], cut to its length.
    When the new text fits the record, the result is the new line exactly
    when the new line is no longer than the old one or the two lines share
    no suffix after their common prefix; otherwise the replay also removes
    the first bytes of the common suffix. *)
Theorem replay_of_diff (i : nat) (a b user : str) (now : Z)
    (upd : UpdateObject) :
  let p := trim_start a b in
  let old_end := trim_old_end a b in
  let new_end := trim_new_end a b in
  diff_line i a b user now = Some (Changed upd) →
  apply_op a upd
  = Some (take p a ++ new_content upd
          ++ drop ((old_end `max` new_end) `min` length a) a)
  ∧ (NUL ∉ segment b p new_end → (new_end - p ≤ 255)%nat →
     (apply_op a upd = Some b
      ↔ (length b ≤ length a)%nat ∨ trim_suffix a b = 0%nat)).
Proof.
  intros p old_end new_end. rewrite diff_line_spec.
  destruct (edit_of_line i a b user now) as [u |] eqn:Hedit; [| done].
  intros [= ->]. unfold edit_of_line in Hedit.
  case_decide as Hab; [done |]. case_decide as Hseg; [done |].
  injection Hedit as <-. fold p old_end new_end.
  destruct (trim_bounds a b) as [[Hpo Hoa] [Hpn Hnb]].
  fold p old_end new_end in Hpo, Hoa, Hpn, Hnb.
  assert (Hsuffix : (trim_suffix a b ≤ length a ∧ trim_suffix a b ≤ length b)%nat).
  { unfold trim_suffix.
    pose proof (common_suffix_len_le (drop (trim_start a b) a)
                  (drop (trim_start a b) b)) as Hle.
    rewrite !length_drop in Hle. lia. }
  assert (Hform : apply_op a
            {| line := Z.of_nat i; start_col := Z.of_nat p;
               end_col := Z.of_nat (old_end `max` new_end);
               old_content := strncpy 255 (segment a p old_end);
               new_content := strncpy 255 (segment b p new_end);
               ts := now; user_id := strncpy 31 user |}
          = Some (take p a ++ strncpy 255 (segment b p new_end)
                  ++ drop ((old_end `max` new_end) `min` length a) a)).
  { rewrite apply_op_splice. unfold splice. simpl.
    rewrite clamp_in_range by lia. rewrite c_str_strncpy.
    replace (clamp (Z.of_nat (old_end `max` new_end)) (Z.of_nat (length a)))
      with (Z.of_nat ((old_end `max` new_end) `min` length a)).
    2: { unfold clamp.
         destruct (Z.gtb_spec (Z.max 0 (Z.of_nat (old_end `max` new_end)))
                     (Z.of_nat (length a))); lia. }
    by rewrite !Nat2Z.id. }
  split; [exact Hform |].
  intros Hnul Hlen. rewrite Hform.
  rewrite strncpy_fits;
    [| done | unfold segment; rewrite length_take; lia].
  rewrite (trim_decompose_new a b) at 2. fold p old_end new_end.
  unfold old_end, new_end, trim_old_end, trim_new_end in *.
  split.
  - intros [= Heq]. apply app_inv_head in Heq. apply app_inv_head in Heq.
    apply (f_equal length) in Heq. rewrite !length_drop in Heq. lia.
  - intros Hcond. do 3 f_equal. f_equal. lia.
Qed.

Lemma replay_of_diff_witness :
  ∃ upd, diff_line 0 (lit "ac") (lit "abc") (lit "u") 0 = Some (Changed upd)
         ∧ apply_op (lit "ac") upd = Some (lit "ab").
Proof.
  eexists. split; [reflexivity |].
  destruct (replay_of_diff 0 (lit "ac") (lit "abc") (lit "u") 0 _ eq_refl)
    as [Hform _].
  exact Hform.
Defined.

(** ** User registry *)

Lemma registered_in_fold (user_id : str) (entries : list str) (acc : bool) :
  foldl (λ found entry, if strcmp entry user_id =? 0 then true else found)
        acc entries = true
  ↔ acc = true ∨ c_str user_id ∈ c_str <$> entries.
Proof.
  revert acc. induction entries as [|e entries IH]; intros acc; cbn [foldl].
  - rewrite fmap_nil. split; [auto | intros [? | Hin]; [done |]].
    by apply elem_of_nil in Hin.
  - rewrite IH, fmap_cons, elem_of_cons.
    destruct (Z.eqb_spec (strcmp e user_id) 0) as [Hz | Hnz].
    + apply strcmp_zero in Hz. split; [intros _ | auto]. right. left. done.
    + split; [intros [? | ?]; auto |].
      intros [? | [Heq | ?]]; auto.
      exfalso. apply Hnz. apply strcmp_zero. done.
Qed.

Lemma registered_in_spec (user_id : str) (entries : list str) :
  registered_in user_id entries = true
  ↔ c_str user_id ∈ c_str <$> entries.
Proof.
  unfold registered_in. rewrite registered_in_fold. intuition congruence.
Qed.

Lemma register_user_cases (user_id : str) (r : Registry) :
  registry_wf r →
  (register_user user_id r = r
   ∧ (c_str user_id ∈ active_users r
      ∨ user_count r = Z.of_nat MAX_USERS))
  ∨ ((c_str user_id ∉ active_users r)
     ∧ user_count r < Z.of_nat MAX_USERS
     ∧ register_user user_id r
       = mkRegistry (user_count r + 1)
           (<[Z.to_nat (user_count r) := strncpy 31 user_id]> (users r))
     ∧ active_users (register_user user_id r)
       = active_users r ++ [strncpy 31 user_id]).
Proof.
  intros (Hcount & Hlen & Hall). unfold register_user.
  destruct (Z.ltb_spec (user_count r) 0) as [? | _]; [lia |].
  destruct (Z.gtb_spec (user_count r) (Z.of_nat MAX_USERS)) as [? | _];
    [lia |]. cbn [orb].
  destruct (registered_in user_id (take (Z.to_nat (user_count r)) (users r)))
    eqn:Hfound; cbn [negb andb].
  - left. split; [by destruct r |]. left.
    by apply registered_in_spec in Hfound.
  - destruct (Z.ltb_spec (user_count r) (Z.of_nat MAX_USERS)) as [Hroom | Hfull].
    + right. split.
      { intros Hin. apply registered_in_spec in Hin. congruence. }
      split; [done |]. split; [done |].
      unfold active_users. simpl.
      replace (Z.to_nat (user_count r + 1))
        with (S (Z.to_nat (user_count r))) by lia.
      erewrite take_S_r by (apply list_lookup_insert_eq; lia).
      rewrite take_insert_ge by lia.
      by rewrite fmap_app, fmap_cons, fmap_nil, c_str_strncpy.
    + left. split; [by destruct r |]. right. lia.
Qed.

Lemma register_user_wf (user_id : str) (r : Registry) :
  length (users r) = MAX_USERS →
  Forall (λ entry, (length (c_str entry) ≤ 31)%nat) (users r) →
  registry_wf (register_user user_id r).
Proof.
  intros Hlen Hall. unfold register_user.
  set (count := if (user_count r <? 0) || (user_count r >? Z.of_nat MAX_USERS)
                then 0 else user_count r).
  assert (Hcount : 0 ≤ count ≤ Z.of_nat MAX_USERS).
  { unfold count.
    destruct (Z.ltb_spec (user_count r) 0);
      destruct (Z.gtb_spec (user_count r) (Z.of_nat MAX_USERS));
      unfold MAX_USERS in *; simpl in *; lia. }
  destruct (negb _ && (count <? Z.of_nat MAX_USERS)) eqn:Hadd.
  - apply andb_true_iff in Hadd as [_ Hroom]. apply Z.ltb_lt in Hroom.
    repeat split; simpl; [lia | lia | by rewrite length_insert |].
    apply Forall_insert; [done |].
    rewrite c_str_strncpy. apply strncpy_length.
  - repeat split; simpl; [lia | lia | done | done].
Qed.



(** X20.  Registering is idempotent for an identifier of at most 31
    bytes: the user is listed once, however often it registers, and it is
    listed whenever the table had room. *)
Theorem register_user_idempotent (user_id : str) (r : Registry) :
  registry_wf r →
  (length (c_str user_id) ≤ 31)%nat →
  register_user user_id (register_user user_id r) = register_user user_id r
  ∧ (user_count r < Z.of_nat MAX_USERS →
     c_str user_id ∈ active_users (register_user user_id r)).
Proof.
  intros Hwf Hshort.
  assert (Hstored : strncpy 31 user_id = c_str user_id).
  { unfold strncpy. by apply take_ge. }
  assert (Hwf' : registry_wf (register_user user_id r)).
  { destruct Hwf as (_ & ? & ?). by apply register_user_wf. }
  destruct (register_user_cases user_id r Hwf)
    as [[Hsame Hwhy] | (Hnew & Hroom & Hreg & Hactive)].
  - split; [by rewrite !Hsame |]. rewrite Hsame.
    destruct Hwhy as [? | ?]; [done | lia].
  - assert (Hin : c_str user_id ∈ active_users (register_user user_id r)).
    { rewrite Hactive, Hstored. apply elem_of_app. right. left. }
    split; [| done].
    destruct (register_user_cases user_id _ Hwf')
      as [[Hsame _] | (Hnot & _)]; done.
Qed.

Lemma register_user_idempotent_witness :
  register_user (lit "alice") (register_user (lit "alice") empty_registry)
  = register_user (lit "alice") empty_registry.
Proof.
  apply (register_user_idempotent (lit "alice") empty_registry).
  - repeat split; [vm_compute; discriminate.. | vm_compute; repeat constructor].
  - vm_compute. lia.
Defined.

(** X21.  An identifier of more than 31 bytes is stored cut to 31 bytes
    and never recognised afterwards: each registration adds another copy
    of the cut identifier while the table has room. *)
Theorem long_identifier_registered_again (user_id : str) (r : Registry) :
  registry_wf r →
  (31 < length (c_str user_id))%nat →
  user_count r + 2 ≤ Z.of_nat MAX_USERS →
  active_users (register_user user_id (register_user user_id r))
  = active_users r ++ [take 31 (c_str user_id); take 31 (c_str user_id)].
Proof.
  intros Hwf Hlong Hroom.
  assert (Hunknown : ∀ r', registry_wf r' → c_str user_id ∉ active_users r').
  { intros r' (_ & _ & Hall) Hin. unfold active_users in Hin.
    apply list_elem_of_fmap in Hin as (e & He & Hin).
    apply subseteq_take in Hin.
    rewrite Forall_forall in Hall. specialize (Hall e Hin).
    rewrite <- He in Hall. lia. }
  assert (Hwf' : registry_wf (register_user user_id r)).
  { destruct Hwf as (_ & ? & ?). by apply register_user_wf. }
  destruct (register_user_cases user_id r Hwf)
    as [[_ [Hin | Hfull]] | (_ & _ & Hreg & Hactive)];
    [by apply Hunknown in Hin | lia |].
  destruct (register_user_cases user_id _ Hwf')
    as [[_ [Hin | Hfull]] | (_ & _ & _ & Hactive')].
  - by apply Hunknown in Hin.
  - rewrite Hreg in Hfull. simpl in Hfull. lia.
  - rewrite Hactive', Hactive, <- app_assoc. done.
Qed.

Lemma long_identifier_registered_again_witness :
  active_users
    (register_user (lit "abcdefghijklmnopqrstuvwxyz0123456789")
       (register_user (lit "abcdefghijklmnopqrstuvwxyz0123456789")
          empty_registry))
  = [lit "abcdefghijklmnopqrstuvwxyz01234"; lit "abcdefghijklmnopqrstuvwxyz01234"].
Proof.
  apply (long_identifier_registered_again
           (lit "abcdefghijklmnopqrstuvwxyz0123456789") empty_registry).
  - repeat split; [vm_compute; discriminate.. | vm_compute; repeat constructor].
  - vm_compute. lia.
  - vm_compute. discriminate.
Defined.

(** ** Broadcast over the named pipes *)

Lemma send_to_lookup (p : str) (upd : UpdateObject) (net : Network)
    (path : str) :
  jammed (send_to p upd net) = jammed net
  ∧ fifo (send_to p upd net) !! path
    = match fifo net !! path with
      | Some queue =>
          Some (if decide (c_str p = path)
                then if jammed net path then queue else queue ++ [upd]
                else queue)
      | None => None
      end.
Proof.
  unfold send_to.
  destruct (fifo net !! c_str p) as [q |] eqn:Hq.
  - destruct (jammed net (c_str p)) eqn:Hj.
    + split; [done |]. destruct (fifo net !! path) as [q' |] eqn:Hq'; [| done].
      case_decide as Hp; [| done]. subst path. by rewrite Hj.
    + split; [done |]. simpl.
      destruct (decide (c_str p = path)) as [<- | Hne].
      * by rewrite lookup_insert_eq, Hq, Hj.
      * rewrite lookup_insert_ne by done. by destruct (fifo net !! path).
  - split; [done |]. destruct (fifo net !! path) as [q' |] eqn:Hq'; [| done].
    case_decide as Hp; [| done]. congruence.
Qed.

Lemma broadcast_loop_lookup (upd : UpdateObject) (sender_id : str)
    (entries : list str) (net : Network) (path : str) :
  jammed (broadcast_loop upd sender_id entries net) = jammed net
  ∧ fifo (broadcast_loop upd sender_id entries net) !! path
    = match fifo net !! path with
      | Some queue =>
          Some (if jammed net path then queue
                else queue ++ replicate (deliveries sender_id path entries) upd)
      | None => None
      end.
Proof.
  revert net. unfold deliveries.
  induction entries as [|e entries IH]; intros net; cbn [broadcast_loop].
  - split; [done |]. destruct (fifo net !! path); [| done].
    simpl. rewrite app_nil_r. by destruct (jammed net path).
  - case_decide as Hsender.
    + rewrite filter_cons_False by (intros [? _]; done). apply IH.
    + destruct (IH (send_to (pipe_name (c_str e)) upd net)) as [Hj Hf].
      destruct (send_to_lookup (pipe_name (c_str e)) upd net path)
        as [Hj1 Hf1].
      split; [congruence |]. rewrite Hf, Hf1, Hj1.
      destruct (fifo net !! path) as [q |]; [| done]. f_equal.
      destruct (decide (c_str (pipe_name (c_str e)) = path)) as [Hp | Hp].
      * rewrite filter_cons_True by done.
        destruct (jammed net path); [done |].
        cbn [length replicate]. by rewrite <- app_assoc.
      * rewrite filter_cons_False by (intros [_ ?]; done). done.
Qed.

Lemma pipe_name_c_str (target : str) :
  NUL ∉ target → c_str (pipe_name target) = pipe_name target.
Proof.
  intros Hnul. apply c_str_no_nul. unfold pipe_name.
  intros [Hin | Hin]%elem_of_app; [| done].
  vm_compute in Hin.
  repeat (apply elem_of_cons in Hin as [Hin | Hin]; [discriminate |]).
  by apply elem_of_nil in Hin.
Qed.

Lemma pipe_name_entry (e : str) :
  c_str (pipe_name (c_str e)) = pipe_name (c_str e).
Proof. apply pipe_name_c_str, c_str_nul_free. Qed.

(** X22.  What a broadcast does to the pipes: each pipe that a reader
    holds open and that accepts the write receives one copy of the
    operation for every registered entry, other than the sender, whose
    pipe it is, behind the records already queued; a pipe without a reader
    is not created, a pipe whose write fails keeps its queue, and no
    other pipe changes.  Without a registry nothing is sent. *)
Theorem broadcast_update_delivers (upd : UpdateObject) (sender_id : str)
    (r : Registry) (net : Network) :
  user_count r ≤ Z.of_nat (length (users r)) →
  ∃ net',
    broadcast_update upd sender_id (Some r) net = Some net'
    ∧ jammed net' = jammed net
    ∧ (∀ path,
         fifo net' !! path
         = match fifo net !! path with
           | Some queue =>
               Some (if jammed net path then queue
                     else queue
                          ++ replicate
                               (deliveries sender_id path
                                  (take (Z.to_nat (user_count r)) (users r)))
                               upd)
           | None => None
           end)
    ∧ broadcast_update upd sender_id None net = Some net.
Proof.
  intros Hcount. unfold broadcast_update. rewrite decide_True by done.
  exists (broadcast_loop upd sender_id
            (take (Z.to_nat (user_count r)) (users r)) net).
  split; [done |].
  split; [apply (broadcast_loop_lookup upd sender_id _ net []) |].
  split; [| done].
  intros path. apply (broadcast_loop_lookup upd sender_id _ net path).
Qed.

Lemma broadcast_update_delivers_witness :
  ∃ net',
    broadcast_update tie_alice (lit "alice")
      (Some (register_user (lit "bob")
               (register_user (lit "alice") empty_registry)))
      (mkNetwork {[ pipe_name (lit "bob") := [] ]} (λ _, false))
    = Some net'
    ∧ fifo net' !! pipe_name (lit "bob") = Some [tie_alice]
    ∧ fifo net' !! pipe_name (lit "alice") = None.
Proof.
  destruct (broadcast_update_delivers tie_alice (lit "alice")
              (register_user (lit "bob")
                 (register_user (lit "alice") empty_registry))
              (mkNetwork {[ pipe_name (lit "bob") := [] ]} (λ _, false)))
    as (net' & Hsent & _ & Hfifo & _).
  { vm_compute. discriminate. }
  exists net'. split; [exact Hsent |]. split.
  - rewrite Hfifo. reflexivity.
  - rewrite Hfifo. reflexivity.
Defined.

Lemma deliveries_none (sender_id path : str) (entries : list str) :
  (∀ e, e ∈ entries → c_str e ≠ sender_id →
     pipe_name (c_str e) ≠ path) →
  deliveries sender_id path entries = 0%nat.
Proof.
  intros Hnone. unfold deliveries.
  induction entries as [|e entries IH]; [done |].
  rewrite filter_cons_False.
  - apply IH. intros e' He'. apply Hnone. by right.
  - intros [Hs Hp]. rewrite pipe_name_entry in Hp.
    by apply (Hnone e); [left | |].
Qed.

Lemma broadcast_fifo_unchanged (upd : UpdateObject) (sender_id path : str)
    (r : Registry) (net net' : Network) :
  broadcast_update upd sender_id (Some r) net = Some net' →
  deliveries sender_id path (take (Z.to_nat (user_count r)) (users r))
  = 0%nat →
  fifo net' !! path = fifo net !! path.
Proof.
  unfold broadcast_update. case_decide; [| done]. intros [= <-] Hzero.
  destruct (broadcast_loop_lookup upd sender_id
              (take (Z.to_nat (user_count r)) (users r)) net path)
    as [_ ->].
  rewrite Hzero. destruct (fifo net !! path) as [q |]; [| done].
  simpl. rewrite app_nil_r. by destruct (jammed net path).
Qed.

(** X23.  A broadcast never writes to [pipe_name sender_id], the pipe of
    its sender, whatever the registry holds. *)
Theorem broadcast_skips_sender (upd : UpdateObject) (sender_id : str)
    (r : Registry) (net net' : Network) :
  broadcast_update upd sender_id (Some r) net = Some net' →
  fifo net' !! pipe_name sender_id = fifo net !! pipe_name sender_id.
Proof.
  intros Hsent. eapply broadcast_fifo_unchanged; [done |].
  apply deliveries_none. intros e _ Hne Hp.
  apply Hne. unfold pipe_name in Hp. by apply app_inv_head in Hp.
Qed.

Lemma broadcast_skips_sender_witness :
  ∃ net',
    broadcast_update tie_alice (lit "alice")
      (Some (register_user (lit "bob")
               (register_user (lit "alice") empty_registry)))
      (mkNetwork {[ pipe_name (lit "alice") := []; pipe_name (lit "bob") := [] ]}
                 (λ _, false))
    = Some net'
    ∧ fifo net' !! pipe_name (lit "alice") = Some [].
Proof.
  eexists. split; [reflexivity |].
  rewrite (broadcast_skips_sender tie_alice (lit "alice")
             (register_user (lit "bob")
                (register_user (lit "alice") empty_registry))
             (mkNetwork {[ pipe_name (lit "alice") := [];
                           pipe_name (lit "bob") := [] ]} (λ _, false))
             _ eq_refl).
  reflexivity.
Defined.

(** X24.  A user whose identifier is longer than 31 bytes is cut off: the
    registry holds the cut identifier, so no broadcast of any sender ever
    reaches the pipe on which that user listens. *)
Theorem long_identifier_never_receives (upd : UpdateObject)
    (sender_id user_id : str) (r : Registry) (net net' : Network) :
  registry_wf r →
  (31 < length (c_str user_id))%nat →
  broadcast_update upd sender_id (Some r) net = Some net' →
  fifo net' !! c_str (pipe_name user_id)
  = fifo net !! c_str (pipe_name user_id).
Proof.
  intros (_ & _ & Hall) Hlong Hsent.
  eapply broadcast_fifo_unchanged; [done |].
  apply deliveries_none. intros e He _ Hp.
  apply subseteq_take in He.
  rewrite Forall_forall in Hall. specialize (Hall e He).
  assert (Hc : c_str (pipe_name user_id) = pipe_name (c_str user_id)).
  { unfold pipe_name. vm_compute (lit _). simpl.
    repeat (case_decide; [discriminate |]). done. }
  rewrite Hc in Hp. unfold pipe_name in Hp. apply app_inv_head in Hp.
  rewrite Hp in Hall. lia.
Qed.

Lemma long_identifier_never_receives_witness :
  ∃ net',
    broadcast_update tie_alice (lit "alice")
      (Some (register_user (lit "abcdefghijklmnopqrstuvwxyz0123456789")
               (register_user (lit "alice") empty_registry)))
      (mkNetwork
         {[ pipe_name (lit "abcdefghijklmnopqrstuvwxyz0123456789") := [] ]}
         (λ _, false))
    = Some net'
    ∧ fifo net' !! pipe_name (lit "abcdefghijklmnopqrstuvwxyz0123456789")
      = Some [].
Proof.
  eexists. split; [reflexivity |].
  pose proof (long_identifier_never_receives tie_alice (lit "alice")
                (lit "abcdefghijklmnopqrstuvwxyz0123456789")
                (register_user (lit "abcdefghijklmnopqrstuvwxyz0123456789")
                   (register_user (lit "alice") empty_registry))
                (mkNetwork
                   {[ pipe_name (lit "abcdefghijklmnopqrstuvwxyz0123456789")
                      := [] ]} (λ _, false))) as Hnever.
  etrans; [apply Hnever |].
  - repeat split; [vm_compute; discriminate.. | vm_compute; repeat constructor].
  - vm_compute. lia.
  - reflexivity.
  - reflexivity.
Defined.

Lemma deliveries_one (sender_id target : str) (entries : list str) :
  NoDup (c_str <$> entries) →
  target ∈ c_str <$> entries →
  target ≠ sender_id →
  deliveries sender_id (pipe_name target) entries = 1%nat.
Proof.
  intros Hnodup Hin Hne.
  induction entries as [|e entries IH]; [by apply elem_of_nil in Hin |].
  rewrite fmap_cons in Hnodup, Hin.
  apply NoDup_cons in Hnodup as [Hfresh Hnodup].
  unfold deliveries in *.
  destruct (decide (c_str e = target)) as [He | He].
  - rewrite filter_cons_True by (rewrite pipe_name_entry; split; congruence).
    cbn [length]. f_equal.
    apply (deliveries_none sender_id (pipe_name target) entries).
    intros e' He' _ Hp. unfold pipe_name in Hp. apply app_inv_head in Hp.
    apply Hfresh. rewrite He, <- Hp. by apply list_elem_of_fmap_2.
  - rewrite filter_cons_False.
    + apply IH; [done |]. by apply elem_of_cons in Hin as [? | ?].
    + intros [_ Hp]. rewrite pipe_name_entry in Hp.
      unfold pipe_name in Hp. by apply app_inv_head in Hp.
Qed.

(** X25.  With the users registered once each, a broadcast hands exactly
    one copy of the operation to every registered user other than the
    sender whose pipe is open and accepts the write. *)
Theorem broadcast_one_copy_each (upd : UpdateObject)
    (sender_id target : str) (queue : list UpdateObject)
    (r : Registry) (net net' : Network) :
  broadcast_update upd sender_id (Some r) net = Some net' →
  NoDup (active_users r) →
  target ∈ active_users r →
  target ≠ sender_id →
  fifo net !! pipe_name target = Some queue →
  jammed net (pipe_name target) = false →
  fifo net' !! pipe_name target = Some (queue ++ [upd]).
Proof.
  unfold broadcast_update, active_users. case_decide; [| done].
  intros [= <-] Hnodup Hin Hne Hq Hj.
  destruct (broadcast_loop_lookup upd sender_id
              (take (Z.to_nat (user_count r)) (users r)) net
              (pipe_name target)) as [_ ->].
  rewrite Hq, Hj. by rewrite deliveries_one.
Qed.

Lemma broadcast_one_copy_each_witness :
  ∃ net',
    broadcast_update tie_alice (lit "alice")
      (Some (register_user (lit "bob")
               (register_user (lit "alice") empty_registry)))
      (mkNetwork {[ pipe_name (lit "bob") := [tie_bob] ]} (λ _, false))
    = Some net'
    ∧ fifo net' !! pipe_name (lit "bob") = Some [tie_bob; tie_alice].
Proof.
  eexists. split; [reflexivity |].
  apply (broadcast_one_copy_each tie_alice (lit "alice") (lit "bob") [tie_bob]
           (register_user (lit "bob")
              (register_user (lit "alice") empty_registry))
           (mkNetwork {[ pipe_name (lit "bob") := [tie_bob] ]} (λ _, false))).
  - reflexivity.
  - vm_compute. repeat constructor; intros Hin;
      repeat (apply elem_of_cons in Hin as [Hin | Hin]; [discriminate |]);
      by apply elem_of_nil in Hin.
  - vm_compute. right. left.
  - discriminate.
  - reflexivity.
  - reflexivity.
Defined.

(** ** Conflicts *)

(** X26.  Two non-empty column ranges overlap, in the sense of
    [ranges_overlap], exactly when they share a column; an empty range
    overlaps a range only strictly inside it, and so never itself. *)
Theorem ranges_overlap_shared_column (s1 e1 s2 e2 : Z) :
  (s1 < e1 → s2 < e2 →
   (ranges_overlap s1 e1 s2 e2 = true
    ↔ ∃ col, s1 ≤ col < e1 ∧ s2 ≤ col < e2))
  ∧ (ranges_overlap s1 s1 s2 e2 = true ↔ s2 < s1 < e2)
  ∧ ranges_overlap s1 s1 s1 s1 = false.
Proof.
  unfold ranges_overlap. split; [| split].
  - intros H1 H2.
    destruct (Z.leb_spec e1 s2), (Z.leb_spec e2 s1); simpl;
      (split; [try done; intros _; exists (Z.max s1 s2); lia
              | try done; intros (col & ? & ?); lia]).
  - destruct (Z.leb_spec s1 s2), (Z.leb_spec e2 s1); simpl;
      split; try done; lia.
  - destruct (Z.leb_spec s1 s1); [done | lia].
Qed.

(** ** A pass of the editor loop *)

Lemma publish_local_below `{StdSort} (upd : UpdateObject) (w : World) :
  (buffered w + 1 < MERGE_THRESHOLD)%nat →
  publish_local upd w = Some (push_local upd w).
Proof.
  unfold buffered. intros Hlow. unfold publish_local.
  rewrite bool_decide_false.
  2: { simpl. rewrite append_contents, length_app. simpl. lia. }
  unfold try_merge_if_needed, should_merge.
  rewrite bool_decide_false; [done |].
  simpl. rewrite append_contents, length_app. simpl. lia.
Qed.

Lemma publish_all_below `{StdSort} (ops : list UpdateObject) (w : World) :
  (buffered w + length ops < MERGE_THRESHOLD)%nat →
  ∃ w', publish_all ops w = Some w'
    ∧ Snapshot.contents (local_ptr w') = Snapshot.contents (local_ptr w) ++ ops
    ∧ recv_ptr w' = recv_ptr w
    ∧ recent_ptr w' = recent_ptr w
    ∧ doc_file w' = doc_file w
    ∧ io_log w' = io_log w.
Proof.
  revert w. induction ops as [|upd ops IH]; intros w Hlow.
  - exists w. simpl. by rewrite app_nil_r.
  - cbn [publish_all]. simpl in Hlow.
    rewrite publish_local_below by lia. simpl.
    destruct (IH (push_local upd w)) as (w' & Hrun & Hl & Hr & Hn & Hd & Hio).
    { unfold buffered in *. simpl. rewrite append_contents, length_app.
      simpl. lia. }
    exists w'. split; [done |]. simpl in *.
    rewrite append_contents in Hl. rewrite <- app_assoc in Hl. done.
Qed.

(** X27.  A pass of [detect_changes] that leaves fewer than
    [MERGE_THRESHOLD] operations buffered only buffers: the detected
    operations are appended to the local buffer in line order, nothing is
    broadcast, and the file is neither read nor written. *)
Theorem small_pass_only_buffers `{StdSort} (old_lines new_lines : list str)
    (user : str) (clock : nat → Z) (w : World) :
  ∃ ops,
    detect_changes old_lines new_lines user clock = Some ops
    ∧ ((buffered w + length ops < MERGE_THRESHOLD)%nat →
       ∃ w',
         detect_loop_run old_lines new_lines user clock
           (seq 0 (length old_lines `max` length new_lines)) w = Some w'
         ∧ Snapshot.contents (local_ptr w')
           = Snapshot.contents (local_ptr w) ++ ops
         ∧ recv_ptr w' = recv_ptr w
         ∧ recent_ptr w' = recent_ptr w
         ∧ doc_file w' = doc_file w
         ∧ io_log w' = io_log w).
Proof.
  rewrite detect_loop_run_spec. unfold detect_changes.
  rewrite detect_loop_spec. eexists. split; [done |].
  intros Hlow. simpl. by apply publish_all_below.
Qed.

Lemma edit_of_line_author (i : nat) (a b user : str) (now : Z)
    (upd : UpdateObject) :
  edit_of_line i a b user now = Some upd →
  user_id upd = strncpy 31 user ∧ ts upd = now.
Proof.
  unfold edit_of_line. case_decide; [done |]. case_decide; [done |].
  by intros [= <-].
Qed.

(** X28.  A merge comes back as local edits.  The file that a merge wrote
    is what the next pass of the editor loop reads; compared with the
    lines [old_content] that the loop saw last, every line that differs
    yields exactly one operation, authored by the local user at the time
    of that pass, and the pass is silent only if no line differs. *)
Theorem merged_changes_echo `{StdSort} (local_ops : list UpdateObject)
    (w : World) (old_content : list str) (user : str) (clock : nat → Z) :
  let all := local_ops ++ Snapshot.contents (recv_ptr w) in
  all ≠ [] →
  Forall (λ u, 0 ≤ line u) all →
  Forall (λ u, newline ∉ c_str (new_content u)) (survivors all) →
  ∃ doc' w' ops,
    merge_and_apply local_ops w = Some w'
    ∧ merge_doc all (read_file (doc_file w)) = Some doc'
    ∧ detect_changes old_content (read_file (doc_file w')) user clock
      = Some ops
    ∧ (ops = [] ↔
       ∀ i, default [] (old_content !! i) = default [] (doc' !! i))
    ∧ (∀ i : nat,
         default [] (old_content !! i) ≠ default [] (doc' !! i) →
         ∃ u, on_line (Z.of_nat i) ops = [u]
              ∧ user_id u = strncpy 31 user ∧ ts u = clock i).
Proof.
  intros all Hne Hnn Hnl.
  destruct (merge_and_apply_reads_back local_ops w Hne Hnn Hnl)
    as (doc' & w' & Hrun & Hdoc & Hread & _).
  destruct (detect_changes_on_line old_content doc' user clock 0)
    as (ops & Hops & _).
  exists doc', w', ops. rewrite Hread.
  split; [done |]. split; [done |]. split; [done |]. split.
  - rewrite <- (detect_changes_nil_iff old_content doc' user clock).
    rewrite Hops. split; [by intros -> | by intros [= ->]].
  - intros i Hdiff.
    destruct (detect_changes_on_line old_content doc' user clock i)
      as (ops' & Hops' & Hline).
    assert (ops' = ops) as -> by congruence.
    destruct (edit_of_line_changed i _ _ user (clock i) Hdiff) as [u Hu].
    exists u. rewrite Hline, Hu. split; [done |].
    by apply edit_of_line_author in Hu.
Qed.

Lemma merged_changes_echo_witness :
  ∃ doc' w' ops,
    merge_and_apply [tie_bob] (init_world (lit "Hello")) = Some w'
    ∧ merge_doc [tie_bob] (read_file (lit "Hello")) = Some doc'
    ∧ detect_changes [lit "Hello"] (read_file (doc_file w')) (lit "alice")
        (λ _, 7) = Some ops
    ∧ ∃ u, on_line 0 ops = [u] ∧ user_id u = lit "alice" ∧ ts u = 7.
Proof.
  destruct (merged_changes_echo [tie_bob] (init_world (lit "Hello"))
              [lit "Hello"] (lit "alice") (λ _, 7))
    as (doc' & w' & ops & Hrun & Hdoc & Hops & _ & Hecho).
  - discriminate.
  - repeat constructor. discriminate.
  - repeat constructor. vm_compute. intros Hin.
    repeat (apply elem_of_cons in Hin as [Hin | Hin]; [discriminate Hin |]).
    by apply elem_of_nil in Hin.
  - exists doc', w', ops. split; [exact Hrun |]. split; [exact Hdoc |].
    split; [exact Hops |].
    apply (Hecho 0%nat). vm_compute in Hdoc. injection Hdoc as <-.
    vm_compute. discriminate.
Defined.

(** X29.  The listener never broadcasts.  A received record is appended to
    the receive buffer and announced as the latest notification; when it
    brings the buffered operations to [MERGE_THRESHOLD], the local buffer
    is merged into the file together with the received operations and
    emptied, and still nothing is broadcast. *)
Theorem listener_merges_unsent `{StdSort} (message : UpdateObject → str)
    (upd : UpdateObject) (w w' : World) :
  listener_receive message upd w = Some w' →
  broadcasts (io_log w') = broadcasts (io_log w)
  ∧ last (Snapshot.contents (recent_ptr w')) = Some (message upd)
  ∧ ((buffered w + 1 < MERGE_THRESHOLD)%nat →
     Snapshot.contents (recv_ptr w')
     = Snapshot.contents (recv_ptr w) ++ [upd]
     ∧ local_ptr w' = local_ptr w
     ∧ doc_file w' = doc_file w ∧ io_log w' = io_log w)
  ∧ ((MERGE_THRESHOLD ≤ buffered w + 1)%nat →
     ∃ doc',
       merge_doc (Snapshot.contents (local_ptr w)
                  ++ Snapshot.contents (recv_ptr w) ++ [upd])
                 (read_file (doc_file w)) = Some doc'
       ∧ doc_file w' = write_file_from_lines doc'
       ∧ io_log w' = io_log w ++ [FileRead; FileWrite (doc_file w')]
       ∧ Snapshot.contents (local_ptr w') = []
       ∧ Snapshot.contents (recv_ptr w') = []).
Proof.
  unfold listener_receive, try_merge_if_needed, should_merge, buffered.
  cbn [push_remote append_recent_notification recv_ptr local_ptr recent_ptr
       doc_file io_log].
  rewrite append_contents, length_app. cbn [length app].
  assert (Hlast : last (Snapshot.contents
                          (Snapshot.append_bounded MAX_NOTIFICATIONS
                             (message upd) (recent_ptr w)))
                  = Some (message upd)).
  { rewrite append_bounded_contents. case_decide as Hfull.
    - destruct (Snapshot.contents (recent_ptr w)) as [|m rest];
        [simpl in Hfull; unfold MAX_NOTIFICATIONS in Hfull; lia |].
      simpl. apply last_snoc.
    - apply last_snoc. }
  case_bool_decide as Htot.
  - unfold merge_and_apply.
    cbn [recv_ptr local_ptr recent_ptr doc_file io_log app].
    rewrite append_contents. rewrite decide_False.
    2: { intros Hnil. apply app_eq_nil in Hnil as [_ Hnil].
         by apply app_eq_nil in Hnil as [_ ?]. }
    destruct (merge_doc _ _) as [doc' |] eqn:Hdoc; [| done].
    cbn [mbind option_bind]. intros [= <-].
    cbn [recv_ptr local_ptr recent_ptr doc_file io_log].
    split.
    { rewrite !broadcasts_app. simpl. by rewrite !app_nil_r. }
    split; [done |]. split; [intros; lia |]. intros _.
    exists doc'. rewrite !clear_contents, <- app_assoc. done.
  - intros [= <-].
    cbn [recv_ptr local_ptr recent_ptr doc_file io_log].
    split; [done |]. split; [done |].
    split; [| intros; lia]. intros _. simpl. by rewrite append_contents.
Qed.

Lemma listener_merges_unsent_witness :
  ∃ w', listener_receive (H := merge_std_sort) (λ u, new_content u) far_left
          crowded_world = Some w'
        ∧ broadcasts (io_log w') = []
        ∧ Snapshot.contents (recv_ptr w') = [].
Proof.
  destruct (listener_receive (H := merge_std_sort) (λ u, new_content u)
              far_left crowded_world) as [w' |] eqn:Hp;
    [| vm_compute in Hp; discriminate].
  exists w'. split; [done |].
  destruct (listener_merges_unsent (H := merge_std_sort)
              (λ u, new_content u) far_left crowded_world w' Hp)
    as (Hb & _ & _ & Hmerge).
  split; [rewrite Hb; reflexivity |].
  destruct Hmerge as (doc' & _ & _ & _ & _ & Hrecv); [vm_compute; lia |].
  exact Hrecv.
Defined.
